(** * canvas-slideshow: the playback and transition engine of Slideshow.ts

    A shallow embedding of [src/Slideshow.ts]: the classes
    [ControlElement], [ControlsManager] and [Slideshow], the browser's
    interval table ([setInterval] / [clearInterval]) and the part of the
    2D canvas context the engine drives ([save], [restore], [translate],
    [clearRect], [drawImage], [globalAlpha]).

    Modelling conventions.
    - JavaScript numbers that hold indices, handles and the slide offset
      are [Z]; image extents and canvas coordinates are exact rationals
      [Q] (a height is [width * 9/16]).  The one product whose rounding
      decides an index, [images.length * Math.random ()], is rounded as
      the binary64 product it is ([roundDouble]).
    - [globalAlpha] is kept in thousandths: [fadeStep = 0.008] is [8],
      the thresholds [0.1] and [1.0] are [100] and [1000].  The code only
      adds and subtracts [fadeStep] and compares with those thresholds.
    - The DOM presentation of a button (its class list and label) is not
      modelled; the caption element's text is.
    - An event handler or timer callback that throws is abandoned by the
      event loop: the effects it had before the throw remain.
    - The engine is modelled from the moment the images have loaded; the
      wait of [handleImageLoad] before that is modelled on its own, on
      what each check finds.  The manifest request, the opacity of the
      preloader and the resize, orientation and fullscreen listeners
      (with their one-shot [setTimeout]) are not modelled. *)

From Stdlib Require Import ZArith QArith Qround Qabs Qpower List Sorted String
  Bool Lia Lqa.
Import ListNotations.

Local Open Scope Z_scope.

(** ** ControlElement *)

Record ControlElement : Type := mkControlElement {
  isEnabled : bool;   (* true: the button is available *)
  state : bool        (* true: the action of the button is active *)
}.

Definition getState (c : ControlElement) : bool := state c.
Definition isActive (c : ControlElement) : bool := isEnabled c.

(** [ControlElement.toggle]: returns the new state; a control that is
    not enabled is left alone and the call returns [false]. *)
Definition toggle (c : ControlElement) : bool * ControlElement :=
  if isEnabled c then
    if state c
    then (false, mkControlElement (isEnabled c) false)
    else (true, mkControlElement (isEnabled c) true)
  else (false, c).

(** [ControlElement.toggleEnabled]: disabling also forces the state to
    inactive. *)
Definition toggleEnabled (c : ControlElement) : bool * ControlElement :=
  if isEnabled c then
    let c1 := if getState c then snd (toggle c) else c in
    (false, mkControlElement false (state c1))
  else (true, mkControlElement true (state c)).

(** ** ControlsManager *)

Record ControlsManager : Type := mkControlsManager {
  playButton : ControlElement;
  directionButton : ControlElement;
  randomButton : ControlElement;
  nextButton : ControlElement;
  previousButton : ControlElement;
  effectSelector : ControlElement;
  fullScreenButton : ControlElement
}.

Definition setPlayButton (b : ControlElement) (m : ControlsManager) :=
  mkControlsManager b (directionButton m) (randomButton m) (nextButton m)
    (previousButton m) (effectSelector m) (fullScreenButton m).
Definition setDirectionButton (b : ControlElement) (m : ControlsManager) :=
  mkControlsManager (playButton m) b (randomButton m) (nextButton m)
    (previousButton m) (effectSelector m) (fullScreenButton m).
Definition setRandomButton (b : ControlElement) (m : ControlsManager) :=
  mkControlsManager (playButton m) (directionButton m) b (nextButton m)
    (previousButton m) (effectSelector m) (fullScreenButton m).
Definition setNextButton (b : ControlElement) (m : ControlsManager) :=
  mkControlsManager (playButton m) (directionButton m) (randomButton m) b
    (previousButton m) (effectSelector m) (fullScreenButton m).
Definition setPreviousButton (b : ControlElement) (m : ControlsManager) :=
  mkControlsManager (playButton m) (directionButton m) (randomButton m)
    (nextButton m) b (effectSelector m) (fullScreenButton m).
Definition setFullScreenButton (b : ControlElement) (m : ControlsManager) :=
  mkControlsManager (playButton m) (directionButton m) (randomButton m)
    (nextButton m) (previousButton m) (effectSelector m) b.

Definition isPlaying (m : ControlsManager) : bool := getState (playButton m).
Definition isRandom (m : ControlsManager) : bool := getState (randomButton m).
Definition isReversed (m : ControlsManager) : bool :=
  getState (directionButton m).
Definition isFullScreen (m : ControlsManager) : bool :=
  getState (fullScreenButton m).

(** [ControlsManager.togglePlay]. *)
Definition togglePlay (m : ControlsManager) : bool * ControlsManager :=
  let m1 := setPlayButton (snd (toggle (playButton m))) m in
  let playing := isPlaying m1 in
  let randomEnabled := isActive (randomButton m1) in
  let directionEnabled := isActive (directionButton m1) in
  if playing then
    let m2 := if negb randomEnabled
              then setRandomButton (snd (toggleEnabled (randomButton m1))) m1
              else m1 in
    let m3 := if negb directionEnabled
              then setDirectionButton
                     (snd (toggleEnabled (directionButton m2))) m2
              else m2 in
    (playing, m3)
  else
    let m2 := if randomEnabled
              then setRandomButton (snd (toggleEnabled (randomButton m1))) m1
              else m1 in
    let m3 := if directionEnabled
              then setDirectionButton
                     (snd (toggleEnabled (directionButton m2))) m2
              else m2 in
    (playing, m3).

(** [ControlsManager.toggleDirection]. *)
Definition toggleDirection (m : ControlsManager) : bool * ControlsManager :=
  let m1 := setDirectionButton (snd (toggle (directionButton m))) m in
  (isReversed m1, m1).

(** [ControlsManager.toggleRandom]. *)
Definition toggleRandom (m : ControlsManager) : bool * ControlsManager :=
  let r := toggle (randomButton m) in
  let m1 := setRandomButton (snd r) m in
  let m2 := setPreviousButton (snd (toggleEnabled (previousButton m1))) m1 in
  let m3 := setNextButton (snd (toggleEnabled (nextButton m2))) m2 in
  let m4 := setDirectionButton (snd (toggleEnabled (directionButton m3))) m3 in
  (fst r, m4).

(** [ControlsManager.toggleFullScreen]. *)
Definition toggleFullScreen (m : ControlsManager) : ControlsManager :=
  setFullScreenButton (snd (toggle (fullScreenButton m))) m.

(** The controls as [setupControls] builds them: every control enabled,
    every action inactive. *)
Definition freshControl : ControlElement := mkControlElement true false.
Definition freshControls : ControlsManager :=
  mkControlsManager freshControl freshControl freshControl freshControl
    freshControl freshControl freshControl.

(** ** Images, the canvas context and the interval table *)

Record Image : Type := mkImage {
  src : string;
  alt : string;
  drawable : bool   (* false: [drawImage] throws on this resource *)
}.

Inductive Exn : Type := TypeError | InvalidStateError.

(** What [save] pushes and [restore] brings back. *)
Record DrawingState : Type := mkDrawingState {
  transform : Q * Q;    (* translation of the local origin *)
  globalAlpha : Z       (* in thousandths *)
}.

Inductive Paint : Type :=
| Cleared (origin : Q * Q) (w h : Q)
| Drew (img : Image) (origin : Q * Q) (w h : Q) (alpha : Z).

Record Context : Type := mkContext {
  current : DrawingState;
  saved : list DrawingState;
  saveCalls : nat;
  restoreCalls : nat;
  painted : list Paint          (* oldest first *)
}.

(** The closures handed to [setInterval], with the variables they
    capture.  [offset] is the mutable local of a slide transition. *)
Inductive Callback : Type :=
| Autoplay
| RandomPlay (randomState : bool)
| FadeOut (nextCounter : Z) (imgWidth imgHeight : Q)
| FadeIn (imgWidth imgHeight : Q)
| SlideAcross (nextCounter : Z) (imgWidth imgHeight : Q) (forward : bool)
              (offset : Z)
| SlideDown (nextCounter : Z) (imgWidth imgHeight : Q) (forward : bool)
            (offset : Z).

Record Timer : Type := mkTimer {
  handle : Z;
  period : Q;
  callback : Callback
}.

(** The values [drawingFunction] takes: the empty function of the field
    initialiser and the four closures of [effectCallback]. *)
Inductive DrawingFunction : Type :=
| DrawNothing | DrawPlain | DrawFade | DrawHorizontal | DrawVertical.

Inductive ConsoleLine : Type :=
| Drawing (source : string)
| CouldNotDraw (counter : Z) (ex : Exn)
| Selected (option : string)
| Touchend.                     (* the line "touchend" *)

Record Slideshow : Type := mkSlideshow {
  images : list Image;
  globalImageWidth : Q;
  globalImageHeight : Q;
  interval : Z;
  imageCounter : Z;
  context : Context;
  controls : ControlsManager;
  captions : string;
  drawingFunction : DrawingFunction;
  (* the host *)
  timers : list Timer;          (* the live intervals *)
  nextHandle : Z;
  liveHighWater : nat;          (* most intervals ever live together *)
  console : list ConsoleLine
}.

Definition playSpeed : Q := 8000.
Definition animationSpeed : Q := 33.
Definition fadeStep : Z := 8.
Definition alphaFloor : Z := 100.
Definition alphaFull : Z := 1000.

Definition withInterval (v : Z) (s : Slideshow) : Slideshow :=
  mkSlideshow (images s) (globalImageWidth s) (globalImageHeight s) v
    (imageCounter s) (context s) (controls s) (captions s)
    (drawingFunction s) (timers s) (nextHandle s) (liveHighWater s)
    (console s).
Definition withImageCounter (v : Z) (s : Slideshow) : Slideshow :=
  mkSlideshow (images s) (globalImageWidth s) (globalImageHeight s)
    (interval s) v (context s) (controls s) (captions s)
    (drawingFunction s) (timers s) (nextHandle s) (liveHighWater s)
    (console s).
Definition withContext (v : Context) (s : Slideshow) : Slideshow :=
  mkSlideshow (images s) (globalImageWidth s) (globalImageHeight s)
    (interval s) (imageCounter s) v (controls s) (captions s)
    (drawingFunction s) (timers s) (nextHandle s) (liveHighWater s)
    (console s).
Definition withControls (v : ControlsManager) (s : Slideshow) : Slideshow :=
  mkSlideshow (images s) (globalImageWidth s) (globalImageHeight s)
    (interval s) (imageCounter s) (context s) v (captions s)
    (drawingFunction s) (timers s) (nextHandle s) (liveHighWater s)
    (console s).
Definition withCaptions (v : string) (s : Slideshow) : Slideshow :=
  mkSlideshow (images s) (globalImageWidth s) (globalImageHeight s)
    (interval s) (imageCounter s) (context s) (controls s) v
    (drawingFunction s) (timers s) (nextHandle s) (liveHighWater s)
    (console s).
Definition withDrawingFunction (v : DrawingFunction) (s : Slideshow)
  : Slideshow :=
  mkSlideshow (images s) (globalImageWidth s) (globalImageHeight s)
    (interval s) (imageCounter s) (context s) (controls s) (captions s)
    v (timers s) (nextHandle s) (liveHighWater s) (console s).
Definition withTimers (v : list Timer) (s : Slideshow) : Slideshow :=
  mkSlideshow (images s) (globalImageWidth s) (globalImageHeight s)
    (interval s) (imageCounter s) (context s) (controls s) (captions s)
    (drawingFunction s) v (nextHandle s) (liveHighWater s) (console s).
Definition withConsole (v : list ConsoleLine) (s : Slideshow) : Slideshow :=
  mkSlideshow (images s) (globalImageWidth s) (globalImageHeight s)
    (interval s) (imageCounter s) (context s) (controls s) (captions s)
    (drawingFunction s) (timers s) (nextHandle s) (liveHighWater s) v.

(** ** Computations: state, with exceptions that keep the state *)

Inductive outcome (A : Type) : Type :=
| Normal (a : A)
| Throw (e : Exn).
Arguments Normal {A} a.
Arguments Throw {A} e.

Definition M (A : Type) : Type := Slideshow -> outcome A * Slideshow.

Definition ret {A} (a : A) : M A := fun s => (Normal a, s).
Definition bind {A B} (m : M A) (k : A -> M B) : M B :=
  fun s => match m s with
           | (Normal a, s1) => k a s1
           | (Throw e, s1) => (Throw e, s1)
           end.
Definition throw {A} (e : Exn) : M A := fun s => (Throw e, s).
Definition tryCatch {A} (body : M A) (handler : Exn -> M A) : M A :=
  fun s => match body s with
           | (Normal a, s1) => (Normal a, s1)
           | (Throw e, s1) => handler e s1
           end.
Definition gets {A} (f : Slideshow -> A) : M A := fun s => (Normal (f s), s).
Definition modify (f : Slideshow -> Slideshow) : M unit :=
  fun s => (Normal tt, f s).
Definition when (b : bool) (m : M unit) : M unit := if b then m else ret tt.

(** The state a computation leaves, whether it returned or threw. *)
Definition exec {A} (m : M A) (s : Slideshow) : Slideshow := snd (m s).

Declare Scope js_scope.
Delimit Scope js_scope with js.
Notation "x <- c1 ;; c2" := (bind c1 (fun x => c2))
  (at level 61, c1 at next level, right associativity) : js_scope.
Notation "c1 ;; c2" := (bind c1 (fun _ => c2))
  (at level 61, right associativity) : js_scope.
Local Open Scope js_scope.

Definition Qltb (x y : Q) : bool := negb (Qle_bool y x).

(** *** The host's interval table *)

Definition clearInterval (h : Z) : M unit :=
  modify (fun s =>
    withTimers (filter (fun t => negb (handle t =? h)) (timers s)) s).

Definition setInterval (cb : Callback) (ms : Q) : M Z :=
  fun s =>
    let h := nextHandle s in
    let live := mkTimer h ms cb :: timers s in
    (Normal h,
     mkSlideshow (images s) (globalImageWidth s) (globalImageHeight s)
       (interval s) (imageCounter s) (context s) (controls s) (captions s)
       (drawingFunction s) live (h + 1)
       (Nat.max (liveHighWater s) (List.length live)) (console s)).

(** *** The canvas context *)

Definition withCurrent (d : DrawingState) (c : Context) : Context :=
  mkContext d (saved c) (saveCalls c) (restoreCalls c) (painted c).
Definition paint (p : Paint) (c : Context) : Context :=
  mkContext (current c) (saved c) (saveCalls c) (restoreCalls c)
    (painted c ++ [p]).

Definition ctxSave (c : Context) : Context :=
  mkContext (current c) (current c :: saved c) (S (saveCalls c))
    (restoreCalls c) (painted c).
Definition ctxRestore (c : Context) : Context :=
  match saved c with
  | d :: rest =>
      mkContext d rest (saveCalls c) (S (restoreCalls c)) (painted c)
  | [] =>
      mkContext (current c) [] (saveCalls c) (S (restoreCalls c)) (painted c)
  end.
Definition ctxTranslate (dx dy : Q) (c : Context) : Context :=
  let t := transform (current c) in
  withCurrent
    (mkDrawingState (fst t + dx, snd t + dy)%Q (globalAlpha (current c))) c.
Definition ctxSetAlpha (a : Z) (c : Context) : Context :=
  withCurrent (mkDrawingState (transform (current c)) a) c.
Definition origin (x y : Q) (c : Context) : Q * Q :=
  let t := transform (current c) in (fst t + x, snd t + y)%Q.

Definition save : M unit :=
  modify (fun s => withContext (ctxSave (context s)) s).
Definition restore : M unit :=
  modify (fun s => withContext (ctxRestore (context s)) s).
Definition translate (dx dy : Q) : M unit :=
  modify (fun s => withContext (ctxTranslate dx dy (context s)) s).
Definition clearRect (x y w h : Q) : M unit :=
  modify (fun s =>
    withContext (paint (Cleared (origin x y (context s)) w h) (context s)) s).
Definition getAlpha : M Z := gets (fun s => globalAlpha (current (context s))).
Definition setAlpha (a : Z) : M unit :=
  modify (fun s => withContext (ctxSetAlpha a (context s)) s).

(** [drawImage(img, x, y, w, h)]: [undefined] is a TypeError, a resource
    the canvas cannot use an InvalidStateError. *)
Definition drawImage (img : option Image) (x y w h : Q) : M unit :=
  match img with
  | None => throw TypeError
  | Some i =>
      if drawable i then
        modify (fun s =>
          withContext
            (paint (Drew i (origin x y (context s)) w h
                           (globalAlpha (current (context s))))
                   (context s)) s)
      else throw InvalidStateError
  end.

(** [this.images[i]]: [undefined] outside the array. *)
Definition imageOf (imgs : list Image) (i : Z) : option Image :=
  if i <? 0 then None else nth_error imgs (Z.to_nat i).

Definition imageAt (i : Z) : M (option Image) :=
  gets (fun s => imageOf (images s) i).

(** Reading a property of an array element: a TypeError on [undefined]. *)
Definition member {A} (f : Image -> A) (img : option Image) : M A :=
  match img with
  | Some i => ret (f i)
  | None => throw TypeError
  end.

Definition consoleLog (l : ConsoleLine) : M unit :=
  modify (fun s => withConsole (console s ++ [l]) s).

(** ** Slideshow *)

Definition onControls {A} (f : ControlsManager -> A * ControlsManager)
  : M A :=
  fun s => let r := f (controls s) in (Normal (fst r), withControls (snd r) s).

(** [this.interval = setInterval (...)]. *)
Definition installInterval (cb : Callback) (ms : Q) : M unit :=
  h <- setInterval cb ms ;;
  modify (withInterval h).

(** [clearInterval (this.interval)]. *)
Definition clearHeld : M unit :=
  h <- gets interval ;;
  clearInterval h.

Definition resumeSlideShow : M unit :=
  clearHeld ;;
  installInterval Autoplay playSpeed.

(** [drawSlide (captionElement, width, height, slide)]; the caption
    element is always the one whose text is [captions]. *)
Definition drawSlide (width height : Q) (slide : Z) : M unit :=
  modify (withImageCounter slide) ;;
  tryCatch
    (clearRect 0 0 width height ;;
     ic <- gets imageCounter ;;
     img <- imageAt ic ;;
     source <- member src img ;;
     consoleLog (Drawing source) ;;
     drawImage img 0 0 width height ;;
     caption <- member alt img ;;
     modify (withCaptions caption))
    (fun ex =>
       ic <- gets imageCounter ;;
       consoleLog (CouldNotDraw ic ex)).

(** The test on the optional [width] / [height] arguments (default -1). *)
Definition extentOr (given global : Q) : Q :=
  if Qltb given 0 then global else given.

(** [fadeTransition (captionElem, nextCounter, width, height)]. *)
Definition fadeTransition (nextCounter : Z) (width height : Q) : M unit :=
  gw <- gets globalImageWidth ;;
  gh <- gets globalImageHeight ;;
  let imgWidth := extentOr width gw in
  let imgHeight := extentOr height gh in
  clearHeld ;;
  installInterval (FadeOut nextCounter imgWidth imgHeight) animationSpeed.

(** The closure [fadeTransition] installs: the fade-out. *)
Definition fadeOutTick (nextCounter : Z) (imgWidth imgHeight : Q) : M unit :=
  a <- getAlpha ;;
  if alphaFloor <=? a then
    ic <- gets imageCounter ;;
    drawSlide imgWidth imgHeight ic ;;
    a1 <- getAlpha ;;
    setAlpha (a1 - fadeStep)
  else
    clearHeld ;;
    modify (withImageCounter nextCounter) ;;
    installInterval (FadeIn imgWidth imgHeight) animationSpeed.

(** The closure the fade-out installs when it ends: the fade-in. *)
Definition fadeInTick (imgWidth imgHeight : Q) : M unit :=
  a <- getAlpha ;;
  if a <? alphaFull then
    ic <- gets imageCounter ;;
    drawSlide imgWidth imgHeight ic ;;
    a1 <- getAlpha ;;
    setAlpha (a1 + fadeStep)
  else
    clearHeld ;;
    playing <- gets (fun s => isPlaying (controls s)) ;;
    when playing resumeSlideShow.

Definition increment : Z := 3.

Definition withOffset (off : Z) (cb : Callback) : Callback :=
  match cb with
  | SlideAcross n w h f _ => SlideAcross n w h f off
  | SlideDown n w h f _ => SlideDown n w h f off
  | other => other
  end.

(** [offset += increment] inside the closure owning interval [self]. *)
Definition setOffset (self off : Z) : M unit :=
  modify (fun s =>
    withTimers
      (map (fun t => if handle t =? self
                     then mkTimer (handle t) (period t)
                                  (withOffset off (callback t))
                     else t)
           (timers s)) s).

(** The body of [if (offset >= limit)], the same in both slide
    closures. *)
Definition finishSlide (nextCounter : Z) : M unit :=
  clearHeld ;;
  modify (withImageCounter nextCounter) ;;
  ic <- gets imageCounter ;;
  img <- imageAt ic ;;
  caption <- member alt img ;;
  modify (withCaptions caption) ;;
  playing <- gets (fun s => isPlaying (controls s)) ;;
  when playing resumeSlideShow.

(** [horizontalTransition (captionElem, nextCounter, width, height)]. *)
Definition horizontalTransition (nextCounter : Z) (width height : Q)
  : M unit :=
  clearHeld ;;
  gw <- gets globalImageWidth ;;
  gh <- gets globalImageHeight ;;
  let imgWidth := extentOr width gw in
  let imgHeight := extentOr height gh in
  ic <- gets imageCounter ;;
  let forward := ic <? nextCounter in
  save ;;
  installInterval (SlideAcross nextCounter imgWidth imgHeight forward 0)
                  (animationSpeed / inject_Z increment)%Q.

(** The closure [horizontalTransition] installs; [self] is the handle of
    its interval, [offset] the value of its local at the start of the
    tick. *)
Definition horizontalTick (self nextCounter : Z) (imgWidth imgHeight : Q)
  (forward : bool) (offset : Z) : M unit :=
  let negImgWidth := (imgWidth * -1)%Q in
  let limit := (imgWidth + inject_Z increment)%Q in
  save ;;
  clearRect 0 0 imgWidth imgHeight ;;
  (if forward then translate (-1 * inject_Z offset)%Q 0
   else translate (inject_Z offset) 0) ;;
  ic <- gets imageCounter ;;
  outgoing <- imageAt ic ;;
  drawImage outgoing 0 0 imgWidth imgHeight ;;
  (if forward then translate imgWidth 0 else translate negImgWidth 0) ;;
  incoming <- imageAt nextCounter ;;
  drawImage incoming 0 0 imgWidth imgHeight ;;
  let offset1 := offset + increment in
  setOffset self offset1 ;;
  restore ;;
  when (Qle_bool limit (inject_Z offset1)) (finishSlide nextCounter).

(** [verticalTransition (captionElem, nextCounter, width, height)]. *)
Definition verticalTransition (nextCounter : Z) (width height : Q)
  : M unit :=
  clearHeld ;;
  gw <- gets globalImageWidth ;;
  gh <- gets globalImageHeight ;;
  let imgWidth := extentOr width gw in
  let imgHeight := extentOr height gh in
  ic <- gets imageCounter ;;
  let forward := ic <? nextCounter in
  save ;;
  installInterval (SlideDown nextCounter imgWidth imgHeight forward 0)
                  (animationSpeed / inject_Z increment)%Q.

(** The closure [verticalTransition] installs. *)
Definition verticalTick (self nextCounter : Z) (imgWidth imgHeight : Q)
  (forward : bool) (offset : Z) : M unit :=
  let negImgHeight := (imgHeight * -1)%Q in
  let limit := (imgHeight + inject_Z increment)%Q in
  save ;;
  clearRect 0 0 imgWidth imgHeight ;;
  (if forward then translate 0 (inject_Z offset)
   else translate 0 (-1 * inject_Z offset)%Q) ;;
  ic <- gets imageCounter ;;
  outgoing <- imageAt ic ;;
  drawImage outgoing 0 0 imgWidth imgHeight ;;
  (if forward then translate 0 negImgHeight else translate 0 imgHeight) ;;
  incoming <- imageAt nextCounter ;;
  drawImage incoming 0 0 imgWidth imgHeight ;;
  let offset1 := offset + increment in
  setOffset self offset1 ;;
  restore ;;
  when (Qle_bool limit (inject_Z offset1)) (finishSlide nextCounter).

(** [this.drawingFunction (slide)]: the closures pass no width or height,
    so the transitions see the default -1. *)
Definition callDrawingFunction (slide : Z) : M unit :=
  f <- gets drawingFunction ;;
  match f with
  | DrawNothing => ret tt
  | DrawPlain =>
      gw <- gets globalImageWidth ;;
      gh <- gets globalImageHeight ;;
      drawSlide gw gh slide
  | DrawFade => fadeTransition slide (-1) (-1)
  | DrawHorizontal => horizontalTransition slide (-1) (-1)
  | DrawVertical => verticalTransition slide (-1) (-1)
  end.

(** The index [drawNextSlide] passes on. *)
Definition nextIndex (len counter : Z) : Z :=
  let nextCounter := counter + 1 in
  if nextCounter >=? len then 0 else nextCounter.

(** The index [drawPreviousSlide] passes on. *)
Definition previousIndex (len counter : Z) : Z :=
  let nextCounter := counter - 1 in
  if nextCounter <? 0 then len - 1 else nextCounter.

Definition imagesLength (s : Slideshow) : Z :=
  Z.of_nat (List.length (images s)).

Definition drawNextSlide : M unit :=
  len <- gets imagesLength ;;
  ic <- gets imageCounter ;;
  callDrawingFunction (nextIndex len ic).

Definition drawPreviousSlide : M unit :=
  len <- gets imagesLength ;;
  ic <- gets imageCounter ;;
  callDrawingFunction (previousIndex len ic).

(** *** The product of two doubles

    Round to nearest, ties to even, in binary64: 53 significant bits,
    the smallest spacing [2^-1074].  Overflow is not modelled; the only
    product rounded here is below [2^53]. *)

Definition pow2 (e : Z) : Q := (2 ^ e)%Q.

(** The [e] with [2^e <= |x| < 2^(e+1)], for [x] other than 0. *)
Definition binade (x : Q) : Z :=
  let e0 := Z.log2 (Z.abs (Qnum x)) - Z.log2 (Zpos (Qden x)) in
  if Qle_bool (pow2 e0) (Qabs x) then e0 else e0 - 1.

(** The spacing of the doubles around [x]. *)
Definition ulp (x : Q) : Q := pow2 (Z.max (binade x - 52) (-1074)).

Definition roundHalfEven (y : Q) : Z :=
  let f := Qfloor y in
  match (y - inject_Z f ?= 1 # 2)%Q with
  | Lt => f
  | Gt => f + 1
  | Eq => if Z.even f then f else f + 1
  end.

Definition roundDouble (x : Q) : Q :=
  if Qeq_bool x 0 then 0%Q
  else (inject_Z (roundHalfEven (x / ulp x)) * ulp x)%Q.

(** The rationals that are doubles: rounding leaves them as they are. *)
Definition isDouble (x : Q) : bool := Qeq_bool (roundDouble x) x.

(** [Math.floor (this.images.length * Math.random ())], with the double
    [Math.random] returned passed in; the length is an integer below
    [2^32], so a double itself, and the product is the rounded one. *)
Definition drawRandomSlide (random : Q) : M unit :=
  len <- gets imagesLength ;;
  callDrawingFunction (Qfloor (roundDouble (inject_Z len * random))).

(** The closure [resumeSlideShow] installs. *)
Definition autoplayTick (random : Q) : M unit :=
  isRnd <- gets (fun s => isRandom (controls s)) ;;
  if negb isRnd then
    rev <- gets (fun s => isReversed (controls s)) ;;
    if negb rev then drawNextSlide else drawPreviousSlide
  else drawRandomSlide random.

(** The closure [randomCallback] installs. *)
Definition randomTick (randomState : bool) (random : Q) : M unit :=
  if randomState then drawRandomSlide random else resumeSlideShow.

Definition playCallback : M unit :=
  st <- onControls togglePlay ;;
  if negb st then clearHeld else resumeSlideShow.

Definition directionCallback : M unit :=
  reversed <- onControls toggleDirection ;;
  resumeSlideShow.

Definition randomCallback : M unit :=
  randomState <- onControls toggleRandom ;;
  clearHeld ;;
  installInterval (RandomPlay randomState) playSpeed.

(** What the keyboard and touch handlers do before drawing. *)
Definition stopForManualAdvance : M unit :=
  clearHeld ;;
  playing <- gets (fun s => isPlaying (controls s)) ;;
  when playing (_ <- onControls togglePlay ;; ret tt).

Definition nextCallback : M unit :=
  isRnd <- gets (fun s => isRandom (controls s)) ;;
  when (negb isRnd) (stopForManualAdvance ;; drawNextSlide).

Definition previousCallback : M unit :=
  isRnd <- gets (fun s => isRandom (controls s)) ;;
  when (negb isRnd) (stopForManualAdvance ;; drawPreviousSlide).

(** The [keydown] listener of [setupKeyboardControls]. *)
Definition keydown (key : string) : M unit :=
  if String.eqb key "ArrowLeft" then stopForManualAdvance ;; drawPreviousSlide
  else if String.eqb key "ArrowRight" then stopForManualAdvance ;; drawNextSlide
  else ret tt.

(** The [touchend] listener of [setupTouchControls];
    [difference = endX - startX]. *)
Definition touchend (difference : Q) : M unit :=
  let precision : Q := 15%Q in
  consoleLog Touchend ;;
  if Qle_bool precision difference then stopForManualAdvance ;; drawNextSlide
  else if Qle_bool difference (precision * -1)%Q
       then stopForManualAdvance ;; drawPreviousSlide
       else ret tt.

Definition effectCallback (option : string) : M unit :=
  consoleLog (Selected option) ;;
  if String.eqb option "None" then modify (withDrawingFunction DrawPlain)
  else if String.eqb option "fade" then modify (withDrawingFunction DrawFade)
  else if String.eqb option "slide-across"
       then modify (withDrawingFunction DrawHorizontal)
  else if String.eqb option "slide-vertically"
       then modify (withDrawingFunction DrawVertical)
  else ret tt.

(** ** The event loop *)

Definition invoke (t : Timer) (random : Q) : M unit :=
  match callback t with
  | Autoplay => autoplayTick random
  | RandomPlay st => randomTick st random
  | FadeOut n w h => fadeOutTick n w h
  | FadeIn w h => fadeInTick w h
  | SlideAcross n w h f off => horizontalTick (handle t) n w h f off
  | SlideDown n w h f off => verticalTick (handle t) n w h f off
  end.

Definition liveTimer (h : Z) (s : Slideshow) : option Timer :=
  find (fun t => handle t =? h) (timers s).

Inductive Event : Type :=
| Elapsed (h : Z) (random : Q)   (* interval [h] comes due; the value
                                    [Math.random] would return *)
| PlayClicked
| DirectionClicked
| RandomClicked
| NextClicked
| PreviousClicked
| EffectChanged (option : string)
| KeyDown (key : string)
| TouchEnd (difference : Q).

Definition handler (e : Event) : M unit :=
  match e with
  | Elapsed h random =>
      t <- gets (liveTimer h) ;;
      match t with
      | Some t => invoke t random
      | None => ret tt
      end
  | PlayClicked => playCallback
  | DirectionClicked => directionCallback
  | RandomClicked => randomCallback
  | NextClicked => nextCallback
  | PreviousClicked => previousCallback
  | EffectChanged option => effectCallback option
  | KeyDown key => keydown key
  | TouchEnd d => touchend d
  end.

Definition step (e : Event) (s : Slideshow) : Slideshow := exec (handler e) s.

Definition run (es : list Event) (s : Slideshow) : Slideshow :=
  fold_left (fun acc e => step e acc) es s.

(** The interval held in [this.interval] comes due. *)
Definition tick (s : Slideshow) : Slideshow := step (Elapsed (interval s) 0) s.

Fixpoint ticks (n : nat) (s : Slideshow) : Slideshow :=
  match n with
  | O => s
  | S k => ticks k (tick s)
  end.

(** ** Start-up *)

Definition freshContext : Context :=
  mkContext (mkDrawingState (0, 0)%Q alphaFull) [] 0 0 [].

(** The object when the images have loaded and [resizeCanvas] has fixed
    the extents. *)
Definition loaded (imgs : list Image) (w h : Q) : Slideshow :=
  mkSlideshow imgs w h 0 0 freshContext freshControls EmptyString
    DrawNothing [] 1 0 [].

(** The body of the closure [handleImageLoad] schedules once the images
    have loaded (after [resizeCanvas]). *)
Definition start : M unit :=
  modify (withDrawingFunction DrawPlain) ;;
  modify (withImageCounter (-1)) ;;
  modify (withControls freshControls) ;;
  drawNextSlide ;;
  _ <- onControls togglePlay ;;
  resumeSlideShow.

Definition started (imgs : list Image) (w h : Q) : Slideshow :=
  exec start (loaded imgs w h).

Inductive reachable (imgs : list Image) (w h : Q) : Slideshow -> Prop :=
| reach_started : reachable imgs w h (started imgs w h)
| reach_step e s : reachable imgs w h s -> reachable imgs w h (step e s).

(** * Notions used by the properties *)

(** [leaves P m R]: started in a state with [P], [m] ends, by returning
    or by throwing, in a state with [R]. *)
Definition leaves {A} (P : Slideshow -> Prop) (m : M A)
  (R : Slideshow -> Prop) : Prop :=
  forall s, P s -> R (exec m s).

(** No interval is live. *)
Definition idle (s : Slideshow) : Prop :=
  timers s = [] /\ (liveHighWater s <= 1)%nat.

(** The only interval that can be live is the one held in [interval],
    and no two intervals were ever live together. *)
Definition singleTimer (s : Slideshow) : Prop :=
  (liveHighWater s <= 1)%nat /\
  (timers s = [] \/ exists t, timers s = [t] /\ handle t = interval s).

(** The fields a computation must not touch to keep the discipline. *)
Definition sameTimers (s1 s2 : Slideshow) : Prop :=
  timers s2 = timers s1 /\ interval s2 = interval s1 /\
  liveHighWater s2 = liveHighWater s1.

(** A computation is [quiet] when it leaves the interval table, the held
    handle and the high-water mark alone. *)
Definition quiet {A} (m : M A) : Prop :=
  forall s0, leaves (sameTimers s0) m (sameTimers s0).

(** ** States used as examples *)

Definition demoImages : list Image :=
  [mkImage "a.jpg" "first" true; mkImage "b.jpg" "second" true;
   mkImage "c.jpg" "third" true]%string.

(** Three images on a 640 x 360 canvas, just started. *)
Definition demo : Slideshow := started demoImages 640 360.

(** ** Control state *)

Definition togglePlayTwice (m : ControlsManager) : ControlsManager :=
  snd (togglePlay (snd (togglePlay m))).

(** [togglePlay] twice restores the playing flag and the enabled flags of
    the random and direction controls. *)
Definition restoredByTogglePlayTwice (m : ControlsManager) : Prop :=
  isPlaying (togglePlayTwice m) = isPlaying m /\
  isEnabled (randomButton (togglePlayTwice m)) = isEnabled (randomButton m) /\
  isEnabled (directionButton (togglePlayTwice m))
  = isEnabled (directionButton m).

(** Playing, with random mode switched on. *)
Definition randomOn : Slideshow := step RandomClicked demo.

(** Random mode switched on, then paused and resumed. *)
Definition resumedAfterRandom : Slideshow :=
  run [RandomClicked; PlayClicked; PlayClicked] demo.

(** Paused. *)
Definition paused : Slideshow := step PlayClicked demo.

(** ** Manual advance *)

Definition advanceTarget (forward : bool) (s : Slideshow) : Z :=
  if forward then nextIndex (imagesLength s) (imageCounter s)
  else previousIndex (imagesLength s) (imageCounter s).

(** The slideshow once the [touchend] listener has written its console
    line. *)
Definition touched (s : Slideshow) : Slideshow :=
  exec (consoleLog Touchend) s.

(** The manual advance as the specification words it: stop, then render
    the target with the plain draw whatever effect is selected. *)
Definition specAdvance (forward : bool) (s : Slideshow) : Slideshow :=
  exec (drawSlide (globalImageWidth s) (globalImageHeight s)
                  (advanceTarget forward s))
       (exec stopForManualAdvance s).

(** The fade effect selected while playing. *)
Definition fadeSelected : Slideshow := step (EffectChanged "fade") demo.

(** ** Slide transitions, both axes *)

Inductive Axis : Type := Horizontal | Vertical.

Definition slideTransition (a : Axis) : Z -> Q -> Q -> M unit :=
  match a with
  | Horizontal => horizontalTransition
  | Vertical => verticalTransition
  end.

(** Two images of which the canvas cannot draw the second (a broken
    image: loaded as far as [complete] tells, refused by [drawImage]), on
    the same canvas, just started. *)
Definition faultyImages : list Image :=
  [mkImage "a.jpg" "first" true; mkImage "b.jpg" "second" false]%string.

Definition faulty : Slideshow := started faultyImages 640 360.

(** The slide from the first image to the second has just begun. *)
Definition faultySlide (a : Axis) : Slideshow :=
  exec (slideTransition a 1 (-1) (-1)) faulty.

Definition slideCallback (a : Axis) : Z -> Q -> Q -> bool -> Z -> Callback :=
  match a with
  | Horizontal => SlideAcross
  | Vertical => SlideDown
  end.

(** The extent along the axis: the width across, the height down. *)
Definition extent (a : Axis) (w h : Q) : Q :=
  match a with
  | Horizontal => w
  | Vertical => h
  end.

(** The coordinate along the axis. *)
Definition along (a : Axis) (p : Q * Q) : Q :=
  match a with
  | Horizontal => fst p
  | Vertical => snd p
  end.

(** The context after the first and after the second [translate] of a
    tick. *)
Definition shifted (a : Axis) (forward : bool) (offset : Z) (c : Context)
  : Context :=
  match a with
  | Horizontal =>
      if forward then ctxTranslate (-1 * inject_Z offset) 0 c
      else ctxTranslate (inject_Z offset) 0 c
  | Vertical =>
      if forward then ctxTranslate 0 (inject_Z offset) c
      else ctxTranslate 0 (-1 * inject_Z offset) c
  end.

Definition abutted (a : Axis) (forward : bool) (w h : Q) (c : Context)
  : Context :=
  match a with
  | Horizontal =>
      if forward then ctxTranslate w 0 c else ctxTranslate (w * -1) 0 c
  | Vertical =>
      if forward then ctxTranslate 0 (h * -1) c else ctxTranslate 0 h c
  end.

(** Where a tick at [offset] draws the outgoing and the incoming image,
    the origin being at [base] when the tick begins. *)
Definition atBase (base : Q * Q) : Context :=
  mkContext (mkDrawingState base 0) [] 0 0 [].

Definition outgoingAt (a : Axis) (forward : bool) (base : Q * Q)
  (offset : Z) : Q * Q :=
  origin 0 0 (shifted a forward offset (atBase base)).

Definition incomingAt (a : Axis) (forward : bool) (w h : Q) (base : Q * Q)
  (offset : Z) : Q * Q :=
  origin 0 0 (abutted a forward w h (shifted a forward offset (atBase base))).

(** What one tick paints. *)
Definition slideFrame (a : Axis) (forward : bool) (w h : Q)
  (outgoing incoming : Image) (base : Q * Q) (alpha : Z) (offset : Z)
  : list Paint :=
  [Cleared (origin 0 0 (atBase base)) w h;
   Drew outgoing (outgoingAt a forward base offset) w h alpha;
   Drew incoming (incomingAt a forward w h base offset) w h alpha].

(** The offsets at which the first [k] ticks draw. *)
Definition offsets (k : nat) : list Z :=
  map (fun j => increment * Z.of_nat j) (seq 0 k).

(** The number of ticks the specification gives:
    [ceil ((extent + step) / step)]. *)
Definition slideTicks (ext : Q) : nat :=
  Z.to_nat (Qceiling ((ext + inject_Z increment) / inject_Z increment)).

(** The context a tick leaves when both images were drawn. *)
Definition tickContext (a : Axis) (forward : bool) (w h : Q)
  (outgoing incoming : Image) (offset : Z) (c : Context) : Context :=
  let c1 := ctxSave c in
  let c2 := paint (Cleared (origin 0 0 c1) w h) c1 in
  let c3 := shifted a forward offset c2 in
  let c4 := paint (Drew outgoing (origin 0 0 c3) w h
                        (globalAlpha (current c3))) c3 in
  let c5 := abutted a forward w h c4 in
  let c6 := paint (Drew incoming (origin 0 0 c5) w h
                        (globalAlpha (current c5))) c5 in
  ctxRestore c6.

(** The slideshow between two ticks of a slide transition: the closure
    of interval [hd] holds [offset]. *)
Definition sliding (a : Axis) (hd : Z) (ms : Q) (n : Z) (w h : Q)
  (forward : bool) (offset : Z) (c : Context) (s : Slideshow) : Slideshow :=
  withTimers [mkTimer hd ms (slideCallback a n w h forward offset)]
    (withContext c s).

(** The context after [k] ticks that began at [offset]. *)
Fixpoint slideContext (a : Axis) (forward : bool) (w h : Q)
  (outgoing incoming : Image) (k : nat) (offset : Z) (c : Context)
  : Context :=
  match k with
  | O => c
  | S k1 =>
      slideContext a forward w h outgoing incoming k1 (offset + increment)
        (tickContext a forward w h outgoing incoming offset c)
  end.

(** The frames of [k] ticks that began at [offset]. *)
Fixpoint slideFrames (a : Axis) (forward : bool) (w h : Q)
  (outgoing incoming : Image) (base : Q * Q) (alpha : Z) (k : nat)
  (offset : Z) : list Paint :=
  match k with
  | O => []
  | S k1 =>
      slideFrame a forward w h outgoing incoming base alpha offset ++
      slideFrames a forward w h outgoing incoming base alpha k1
        (offset + increment)
  end.

(** The test that ends a slide transition, on the offset a tick has
    just incremented. *)
Definition reachedLimit (ext : Q) (offset : Z) : bool :=
  Qle_bool (ext + inject_Z increment) (inject_Z offset).

(** The slideshow once [clearInterval (this.interval)] has emptied the
    table and the host has handed out its next handle, which
    [this.interval] now holds. *)
Definition rearmed (s : Slideshow) : Slideshow :=
  mkSlideshow (images s) (globalImageWidth s) (globalImageHeight s)
    (nextHandle s) (imageCounter s) (context s) (controls s) (captions s)
    (drawingFunction s) [] (nextHandle s + 1)
    (Nat.max (liveHighWater s) 1) (console s).

(** The interval table after a transition ends: autoplay re-armed when
    playing, nothing otherwise. *)
Definition afterTransition (s : Slideshow) : list Timer :=
  if isPlaying (controls s)
  then [mkTimer (nextHandle s) playSpeed Autoplay]
  else [].

(** Whether the coordinate of the outgoing image falls from tick to tick:
    across when moving forward, down when moving backward. *)
Definition falls (a : Axis) (forward : bool) : bool :=
  match a with
  | Horizontal => forward
  | Vertical => negb forward
  end.

(** The origins of the images drawn first after each clear. *)
Fixpoint firstDrawn (l : list Paint) : list (Q * Q) :=
  match l with
  | Cleared _ _ _ :: ((Drew _ o _ _ _ :: _) as rest) => o :: firstDrawn rest
  | _ :: rest => firstDrawn rest
  | [] => []
  end.

(** The vertical slide selected while playing. *)
Definition verticalSelected : Slideshow :=
  step (EffectChanged "slide-vertically") demo.

(** The direction of travel as the specification words it: the
    coordinate of the outgoing image falls when moving forward and rises
    when moving backward, on either axis. *)
Definition specDirection (a : Axis) (forward : bool) (base : Q * Q)
  (offset : Z) : Prop :=
  if forward
  then (along a (outgoingAt a forward base (offset + increment)) <
        along a (outgoingAt a forward base offset))%Q
  else (along a (outgoingAt a forward base offset) <
        along a (outgoingAt a forward base (offset + increment)))%Q.

(** ** The fade transition *)

(** The opacities at which images were painted, oldest first. *)
Fixpoint paintedAlphas (l : list Paint) : list Z :=
  match l with
  | Drew _ _ _ _ alpha :: rest => alpha :: paintedAlphas rest
  | Cleared _ _ _ :: rest => paintedAlphas rest
  | [] => []
  end.

(** Whether [drawImage] paints the image at index [i]. *)
Definition visible (imgs : list Image) (i : Z) : bool :=
  match imageOf imgs i with
  | Some img => drawable img
  | None => false
  end.

Definition shown (v : bool) (alphas : list Z) : list Z :=
  if v then alphas else [].

(** [k] values from [a] on, [delta] apart. *)
Fixpoint ramp (a delta : Z) (k : nat) : list Z :=
  match k with
  | O => []
  | S k1 => a :: ramp (a + delta) delta k1
  end.

(** The number of steps of [fadeStep] between the opacity at which the
    fade-out stops, 0.096, and full opacity. *)
Definition fadeSpan : nat := 113.
Definition alphaLowest : Z := 96.

(** The slideshow between two ticks of a fade transition whose interval
    [hd] runs the closure [cb]: the opacity is [a], the current index
    [ic], and [alphas] were painted since the state [s0]. *)
Definition fading (cb : Callback) (hd nh : Z) (a ic : Z) (alphas : list Z)
  (s0 s : Slideshow) : Prop :=
  timers s = [mkTimer hd animationSpeed cb] /\ interval s = hd /\
  nextHandle s = nh /\
  globalAlpha (current (context s)) = a /\ imageCounter s = ic /\
  images s = images s0 /\ controls s = controls s0 /\
  paintedAlphas (painted (context s)) =
  paintedAlphas (painted (context s0)) ++ alphas.

(** The slideshow when a fade transition has ended. *)
Definition faded (nh : Z) (a ic : Z) (alphas : list Z) (s0 s : Slideshow)
  : Prop :=
  timers s = (if isPlaying (controls s0)
              then [mkTimer nh playSpeed Autoplay] else []) /\
  globalAlpha (current (context s)) = a /\ imageCounter s = ic /\
  paintedAlphas (painted (context s)) =
  paintedAlphas (painted (context s0)) ++ alphas.

(** The opacities the slideshow reaches: full opacity less a whole
    number of steps, at most [fadeSpan] of them. *)
Definition onGrid (a : Z) : Prop :=
  exists j, (j <= fadeSpan)%nat /\ a = alphaFull - fadeStep * Z.of_nat j.

(** The opacity of the context and of every saved drawing state is on
    the grid. *)
Definition alphaGrid (s : Slideshow) : Prop :=
  onGrid (globalAlpha (current (context s))) /\
  Forall (fun d => onGrid (globalAlpha d)) (saved (context s)).

(** * Further notions *)

(** ** Control state *)

(** A disabled control is not active. *)
Definition coherent (c : ControlElement) : Prop :=
  isEnabled c = false -> state c = false.

(** What holds of the controls from start-up on: no disabled control is
    active, the play button, the effect selector and the full-screen
    button are never disabled, and the random control is enabled exactly
    while the slideshow plays. *)
Definition controlsInvariant (m : ControlsManager) : Prop :=
  coherent (playButton m) /\ coherent (directionButton m) /\
  coherent (randomButton m) /\ coherent (nextButton m) /\
  coherent (previousButton m) /\ coherent (effectSelector m) /\
  coherent (fullScreenButton m) /\
  isEnabled (playButton m) = true /\
  isEnabled (effectSelector m) = true /\
  isEnabled (fullScreenButton m) = true /\
  isEnabled (randomButton m) = isPlaying m.

Definition toggleRandomTwice (m : ControlsManager) : ControlsManager :=
  snd (toggleRandom (snd (toggleRandom m))).

(** ** Indices *)

Definition validIndex (imgs : list Image) (i : Z) : Prop :=
  0 <= i < Z.of_nat (List.length imgs).

(** The index a closure will commit or draw, if it holds one. *)
Definition targetOf (cb : Callback) : option Z :=
  match cb with
  | FadeOut n _ _ => Some n
  | SlideAcross n _ _ _ _ => Some n
  | SlideDown n _ _ _ _ => Some n
  | Autoplay | RandomPlay _ | FadeIn _ _ => None
  end.

Definition targetValid (imgs : list Image) (t : Timer) : Prop :=
  match targetOf (callback t) with
  | Some n => validIndex imgs n
  | None => True
  end.

(** The image array is [imgs], the current index is one of its indices
    and so is the target of every live transition. *)
Definition indicesValid (imgs : list Image) (s : Slideshow) : Prop :=
  images s = imgs /\ validIndex imgs (imageCounter s) /\
  Forall (targetValid imgs) (timers s).

(** [Math.random] returns a double in [0, 1). *)
Definition admissible (e : Event) : Prop :=
  match e with
  | Elapsed _ random =>
      (0 <= random)%Q /\ (random < 1)%Q /\ isDouble random = true
  | _ => True
  end.

(** The largest length of a JavaScript array is [2^32 - 1]. *)
Definition arrayLimit : Z := 2 ^ 32.

(** The states reached from start-up by events whose random values are
    ones [Math.random] can return. *)
Inductive reached (imgs : list Image) (w h : Q) : Slideshow -> Prop :=
| reached_started : reached imgs w h (started imgs w h)
| reached_step e s :
    admissible e -> reached imgs w h s -> reached imgs w h (step e s).

(** [k] applications of [f]. *)
Fixpoint iterate {A} (f : A -> A) (k : nat) (x : A) : A :=
  match k with
  | O => x
  | S k1 => iterate f k1 (f x)
  end.

(** A property of the controls, as a property of the slideshow. *)
Definition ofControls (Q : ControlsManager -> Prop) (s : Slideshow) : Prop :=
  Q (controls s).

(** The seven controls of a manager. *)
Definition buttons (m : ControlsManager) : list ControlElement :=
  [playButton m; directionButton m; randomButton m; nextButton m;
   previousButton m; effectSelector m; fullScreenButton m].

(** ** Autoplay *)

(** Autoplay at rest with no effect selected and random mode off: the
    interval [hd] runs the autoplay closure, the image array has [len]
    images and the current index is one of its indices. *)
Definition autoplaying (hd : Z) (ms : Q) (reversed : bool) (len : Z)
  (s : Slideshow) : Prop :=
  timers s = [mkTimer hd ms Autoplay] /\ interval s = hd /\
  isRandom (controls s) = false /\ isReversed (controls s) = reversed /\
  drawingFunction s = DrawPlain /\ imagesLength s = len /\
  0 <= imageCounter s < len.

(** ** Waiting for the images *)

Definition loadTimeout : Z := 90000.

(** [imagesLoaded], on what it reads: the [complete] flag of each
    element of [this.images], in array order.  The array holds the
    [Image] objects [preloadImages] pushed, so an element is never
    [undefined] and the test on it is the flag. *)
Definition imagesLoaded (complete : list bool) : bool :=
  match complete with
  | [] => false
  | _ => forallb (fun c => c) complete
  end.

(** What [fadeoutPreloader] looks up in the document: the element of the
    slideshow and the preloader element [showPreloader] creates when the
    page is shown ([getElementById] gives [null] for one that is not
    there). *)
Record Document : Type := mkDocument {
  slideshowElem : bool;
  preloaderElem : bool
}.

(** The call of [fadeoutPreloader] made by [handleImageLoad]: it reads
    [style] of the slideshow element and then of the preloader, a
    TypeError on [null].  The opacities it changes and the calls it
    schedules for itself are not modelled. *)
Definition fadeoutPreloader (d : Document) : outcome unit :=
  if slideshowElem d then
    if preloaderElem d then Normal tt else Throw TypeError
  else Throw TypeError.

(** How the polling of [handleImageLoad] ends, and at which check (the
    first check is number 0; check [j] runs 500 ms after check [j - 1]). *)
Inductive LoadOutcome : Type :=
| Begins (check : nat)    (* the closure that starts the slideshow is
                             scheduled *)
| Faults (check : nat) (ex : Exn)
                          (* the check throws; nothing is scheduled *)
| Alerts (check : nat).   (* the alert "could not be loaded" *)

(** [handleImageLoad (loadTimeoutCounter, showPreloader)] and the calls
    it schedules for itself; [flags j] are the [complete] flags the check
    number [j] finds and [doc j] the document it finds.  The counter is
    an integer number of milliseconds. *)
Fixpoint handleImageLoad (fuel : nat) (flags : nat -> list bool)
  (doc : nat -> Document) (check : nat) (loadTimeoutCounter : Z)
  : option LoadOutcome :=
  match fuel with
  | O => None
  | S fuel1 =>
      let timeoutCounter := loadTimeoutCounter in
      if imagesLoaded (flags check) then
        match fadeoutPreloader (doc check) with
        | Normal _ => Some (Begins check)
        | Throw ex => Some (Faults check ex)
        end
      else if timeoutCounter <? loadTimeout
           then handleImageLoad fuel1 flags doc (S check)
                  (timeoutCounter + 500)
           else Some (Alerts check)
  end.

(** What the check that finds the images loaded does. *)
Definition onLoaded (d : Document) (check : nat) : LoadOutcome :=
  if slideshowElem d && preloaderElem d then Begins check
  else Faults check TypeError.

(** The number of times a check can be scheduled again when it starts
    from [counter]. *)
Definition retries (counter : Z) : nat :=
  Z.to_nat ((loadTimeout - counter + 499) / 500).

(** ** The opacity of the canvas *)

Definition alphaIs (a : Z) (s : Slideshow) : Prop :=
  globalAlpha (current (context s)) = a.

(** The opacity is [a], and a [restore] would bring back [a]. *)
Definition alphaHeld (a : Z) (s : Slideshow) : Prop :=
  alphaIs a s /\
  forall d rest, saved (context s) = d :: rest -> globalAlpha d = a.

Definition isFade (cb : Callback) : bool :=
  match cb with
  | FadeOut _ _ _ | FadeIn _ _ => true
  | _ => false
  end.

(** The event is a tick of a fade closure. *)
Definition fadeDue (e : Event) (s : Slideshow) : bool :=
  match e with
  | Elapsed h _ =>
      match liveTimer h s with
      | Some t => isFade (callback t)
      | None => false
      end
  | _ => false
  end.

(** No event of the run is a tick of a fade closure. *)
Fixpoint fadeFree (es : list Event) (s : Slideshow) : bool :=
  match es with
  | [] => true
  | e :: rest => negb (fadeDue e s) && fadeFree rest (step e s)
  end.
(** * Properties *)

(** ** What a computation leaves behind *)


Section Leaves.
Context {A B : Type}.
Variables P R T : Slideshow -> Prop.

Lemma leaves_ret (a : A) : leaves P (ret a) P.
Proof. intros s HP. exact HP. Qed.

Lemma leaves_throw (e : Exn) : leaves P (@throw A e) P.
Proof. intros s HP. exact HP. Qed.

Lemma leaves_gets (f : Slideshow -> A) : leaves P (gets f) P.
Proof. intros s HP. exact HP. Qed.

Lemma leaves_modify (f : Slideshow -> Slideshow) :
  (forall s, P s -> R (f s)) -> leaves P (modify f) R.
Proof. intros Hf s HP. apply Hf, HP. Qed.

Lemma leaves_bind (m : M A) (k : A -> M B) :
  leaves P m R -> (forall a, leaves R (k a) T) ->
  (forall s, R s -> T s) -> leaves P (bind m k) T.
Proof.
  intros Hm Hk Hsub s HP. specialize (Hm s HP).
  unfold exec, bind in *. destruct (m s) as [[a | e] s1]; simpl in *.
  - apply Hk, Hm.
  - apply Hsub, Hm.
Qed.

Lemma leaves_tryCatch (body : M A) (handler : Exn -> M A) :
  leaves P body R -> (forall e, leaves R (handler e) T) ->
  (forall s, R s -> T s) -> leaves P (tryCatch body handler) T.
Proof.
  intros Hb Hh Hsub s HP. specialize (Hb s HP).
  unfold exec, tryCatch in *. destruct (body s) as [[a | e] s1]; simpl in *.
  - apply Hsub, Hb.
  - apply Hh, Hb.
Qed.
End Leaves.

Lemma leaves_seq {A B} (P : Slideshow -> Prop) (m : M A) (k : A -> M B) :
  leaves P m P -> (forall a, leaves P (k a) P) -> leaves P (bind m k) P.
Proof. intros Hm Hk. apply (leaves_bind P P P); auto. Qed.

Lemma leaves_when (P : Slideshow -> Prop) (b : bool) (m : M unit) :
  leaves P m P -> leaves P (when b m) P.
Proof. intros Hm. destruct b; [exact Hm | apply leaves_ret]. Qed.

Lemma leaves_if {A} (P R : Slideshow -> Prop) (b : bool) (m1 m2 : M A) :
  leaves P m1 R -> leaves P m2 R -> leaves P (if b then m1 else m2) R.
Proof. destruct b; auto. Qed.

(** ** The single-timer discipline *)


Lemma idle_singleTimer s : idle s -> singleTimer s.
Proof. intros [Ht Hw]. split; [exact Hw | left; exact Ht]. Qed.

Lemma leaves_sameTimers (P : Slideshow -> Prop) (f : Slideshow -> Slideshow) :
  (forall s1 s2, sameTimers s1 s2 -> P s1 -> P s2) ->
  (forall s, sameTimers s (f s)) -> leaves P (modify f) P.
Proof. intros Hinv Hf. apply leaves_modify. intros s HP. eapply Hinv; eauto. Qed.

Lemma singleTimer_same s1 s2 : sameTimers s1 s2 -> singleTimer s1 -> singleTimer s2.
Proof.
  intros (Ht & Hi & Hw) [Hw1 H1]. unfold singleTimer. rewrite Ht, Hi, Hw. auto.
Qed.

Lemma idle_same s1 s2 : sameTimers s1 s2 -> idle s1 -> idle s2.
Proof. intros (Ht & Hi & Hw) [H1 Hw1]. unfold idle. rewrite Ht, Hw. auto. Qed.

Lemma clearHeld_idle : leaves singleTimer clearHeld idle.
Proof.
  intros s [Hw Ht]. unfold exec, clearHeld, clearInterval, bind, gets, modify.
  simpl. split; [| exact Hw].
  destruct Ht as [Ht | (t & Ht & Hh)]; rewrite Ht; simpl.
  - reflexivity.
  - rewrite Hh, Z.eqb_refl. reflexivity.
Qed.

Lemma clearHeld_keeps_idle : leaves idle clearHeld idle.
Proof.
  intros s Hs. apply clearHeld_idle, idle_singleTimer, Hs.
Qed.

Lemma installInterval_singleTimer cb ms :
  leaves idle (installInterval cb ms) singleTimer.
Proof.
  intros s [Ht Hw]. unfold exec, installInterval, setInterval, bind, modify.
  unfold singleTimer. cbn [snd fst timers liveHighWater interval withInterval].
  rewrite Ht. split.
  - apply Nat.max_lub; [exact Hw | apply Nat.le_refl].
  - right. eexists. split; reflexivity.
Qed.

Lemma resumeSlideShow_singleTimer : leaves singleTimer resumeSlideShow singleTimer.
Proof.
  apply (leaves_bind _ idle).
  - apply clearHeld_idle.
  - intros _. apply installInterval_singleTimer.
  - apply idle_singleTimer.
Qed.

Lemma resumeSlideShow_from_idle : leaves idle resumeSlideShow singleTimer.
Proof.
  intros s Hs. apply resumeSlideShow_singleTimer, idle_singleTimer, Hs.
Qed.


Lemma sameTimers_refl s : sameTimers s s.
Proof. repeat split. Qed.

Lemma quiet_modify (f : Slideshow -> Slideshow) :
  (forall s, sameTimers s (f s)) -> quiet (modify f).
Proof.
  intros Hf s0. apply leaves_modify. intros s (Ht & Hi & Hw).
  destruct (Hf s) as (Ht1 & Hi1 & Hw1). unfold sameTimers.
  rewrite Ht1, Hi1, Hw1. auto.
Qed.

Lemma quiet_ret {A} (a : A) : quiet (ret a).
Proof. intros s0. apply leaves_ret. Qed.

Lemma quiet_throw {A} (e : Exn) : quiet (@throw A e).
Proof. intros s0. apply leaves_throw. Qed.

Lemma quiet_gets {A} (f : Slideshow -> A) : quiet (gets f).
Proof. intros s0. apply leaves_gets. Qed.

Lemma quiet_bind {A B} (m : M A) (k : A -> M B) :
  quiet m -> (forall a, quiet (k a)) -> quiet (bind m k).
Proof. intros Hm Hk s0. apply leaves_seq; [apply Hm | intros a; apply Hk]. Qed.

Lemma quiet_tryCatch {A} (body : M A) (handler : Exn -> M A) :
  quiet body -> (forall e, quiet (handler e)) -> quiet (tryCatch body handler).
Proof.
  intros Hb Hh s0.
  apply (leaves_tryCatch _ (sameTimers s0)); [apply Hb | intros e; apply Hh | auto].
Qed.

Lemma quiet_when (b : bool) (m : M unit) : quiet m -> quiet (when b m).
Proof. destruct b; [auto | intros _; apply quiet_ret]. Qed.

Lemma quiet_onControls {A} (f : ControlsManager -> A * ControlsManager) :
  quiet (onControls f).
Proof.
  intros s0 s Hs. unfold exec, onControls. simpl. exact Hs.
Qed.

Lemma quiet_drawImage img x y w h : quiet (drawImage img x y w h).
Proof.
  unfold drawImage. destruct img as [i |]; [| apply quiet_throw].
  destruct (drawable i); [| apply quiet_throw].
  apply quiet_modify. intros s. unfold sameTimers. simpl. auto.
Qed.

Lemma quiet_member {A} (f : Image -> A) img : quiet (member f img).
Proof. destruct img; [apply quiet_ret | apply quiet_throw]. Qed.

Create HintDb quiet.
#[local] Hint Resolve quiet_ret quiet_throw quiet_gets quiet_bind
  quiet_tryCatch quiet_when quiet_onControls quiet_drawImage quiet_member
  sameTimers_refl : quiet.

Ltac quiet_prim :=
  apply quiet_modify; intros s; unfold sameTimers; simpl; auto.

Lemma quiet_save : quiet save.
Proof. quiet_prim. Qed.
Lemma quiet_restore : quiet restore.
Proof. quiet_prim. Qed.
Lemma quiet_translate dx dy : quiet (translate dx dy).
Proof. quiet_prim. Qed.
Lemma quiet_clearRect x y w h : quiet (clearRect x y w h).
Proof. quiet_prim. Qed.
Lemma quiet_setAlpha a : quiet (setAlpha a).
Proof. quiet_prim. Qed.
Lemma quiet_consoleLog l : quiet (consoleLog l).
Proof. quiet_prim. Qed.
Lemma quiet_withImageCounter v : quiet (modify (withImageCounter v)).
Proof. quiet_prim. Qed.
Lemma quiet_withCaptions v : quiet (modify (withCaptions v)).
Proof. quiet_prim. Qed.
Lemma quiet_withDrawingFunction v : quiet (modify (withDrawingFunction v)).
Proof. quiet_prim. Qed.
Lemma quiet_withControls v : quiet (modify (withControls v)).
Proof. quiet_prim. Qed.

#[local] Hint Resolve quiet_save quiet_restore quiet_translate quiet_clearRect
  quiet_setAlpha quiet_consoleLog quiet_withImageCounter quiet_withCaptions
  quiet_withDrawingFunction quiet_withControls : quiet.

Lemma quiet_drawSlide w h slide : quiet (drawSlide w h slide).
Proof. unfold drawSlide, imageAt. auto 20 with quiet. Qed.

#[local] Hint Resolve quiet_drawSlide : quiet.

Lemma quiet_leaves {A} (P : Slideshow -> Prop) (m : M A) :
  (forall s1 s2, sameTimers s1 s2 -> P s1 -> P s2) -> quiet m -> leaves P m P.
Proof.
  intros Hinv Hq s HP. apply (Hinv s); [| exact HP].
  apply (Hq s s), sameTimers_refl.
Qed.

Lemma quiet_singleTimer {A} (m : M A) : quiet m -> leaves singleTimer m singleTimer.
Proof. apply quiet_leaves. exact singleTimer_same. Qed.

Lemma quiet_idle {A} (m : M A) : quiet m -> leaves idle m idle.
Proof. apply quiet_leaves. exact idle_same. Qed.

(** Rewriting the offset inside a closure keeps every handle. *)
Lemma setOffset_singleTimer self off :
  leaves singleTimer (setOffset self off) singleTimer.
Proof.
  apply leaves_modify. intros s [Hw Ht]. split; [exact Hw |]. simpl.
  destruct Ht as [Ht | (t & Ht & Hh)]; rewrite Ht; simpl.
  - left. reflexivity.
  - right. eexists. split; [reflexivity |].
    destruct (handle t =? self); simpl; exact Hh.
Qed.

Lemma leaves_via_idle {A B} (P : Slideshow -> Prop) (m : M A) (k : A -> M B) :
  leaves P m idle -> (forall a, leaves idle (k a) singleTimer) ->
  leaves P (bind m k) singleTimer.
Proof.
  intros Hm Hk. apply (leaves_bind P idle); auto. apply idle_singleTimer.
Qed.

Lemma leaves_weaken_idle {A} (P : Slideshow -> Prop) (m : M A) :
  leaves P m idle -> leaves P m singleTimer.
Proof. intros Hm s HP. apply idle_singleTimer, Hm, HP. Qed.

Lemma fadeTransition_singleTimer n w h :
  leaves singleTimer (fadeTransition n w h) singleTimer.
Proof.
  unfold fadeTransition.
  apply leaves_seq; [apply leaves_gets | intros gw].
  apply leaves_seq; [apply leaves_gets | intros gh].
  apply leaves_via_idle; [apply clearHeld_idle | intros _].
  apply installInterval_singleTimer.
Qed.

Lemma horizontalTransition_singleTimer n w h :
  leaves singleTimer (horizontalTransition n w h) singleTimer.
Proof.
  unfold horizontalTransition.
  apply leaves_via_idle; [apply clearHeld_idle | intros _].
  apply leaves_via_idle; [apply leaves_gets | intros gw].
  apply leaves_via_idle; [apply leaves_gets | intros gh].
  apply leaves_via_idle; [apply leaves_gets | intros ic].
  apply leaves_via_idle; [apply quiet_idle, quiet_save | intros _].
  apply installInterval_singleTimer.
Qed.

Lemma verticalTransition_singleTimer n w h :
  leaves singleTimer (verticalTransition n w h) singleTimer.
Proof.
  unfold verticalTransition.
  apply leaves_via_idle; [apply clearHeld_idle | intros _].
  apply leaves_via_idle; [apply leaves_gets | intros gw].
  apply leaves_via_idle; [apply leaves_gets | intros gh].
  apply leaves_via_idle; [apply leaves_gets | intros ic].
  apply leaves_via_idle; [apply quiet_idle, quiet_save | intros _].
  apply installInterval_singleTimer.
Qed.

Lemma callDrawingFunction_singleTimer slide :
  leaves singleTimer (callDrawingFunction slide) singleTimer.
Proof.
  unfold callDrawingFunction.
  apply leaves_seq; [apply leaves_gets | intros f]. destruct f.
  - apply leaves_ret.
  - apply quiet_singleTimer. auto with quiet.
  - apply fadeTransition_singleTimer.
  - apply horizontalTransition_singleTimer.
  - apply verticalTransition_singleTimer.
Qed.

Lemma drawNextSlide_singleTimer : leaves singleTimer drawNextSlide singleTimer.
Proof.
  unfold drawNextSlide.
  apply leaves_seq; [apply leaves_gets | intros len].
  apply leaves_seq; [apply leaves_gets | intros ic].
  apply callDrawingFunction_singleTimer.
Qed.

Lemma drawPreviousSlide_singleTimer :
  leaves singleTimer drawPreviousSlide singleTimer.
Proof.
  unfold drawPreviousSlide.
  apply leaves_seq; [apply leaves_gets | intros len].
  apply leaves_seq; [apply leaves_gets | intros ic].
  apply callDrawingFunction_singleTimer.
Qed.

Lemma drawRandomSlide_singleTimer r :
  leaves singleTimer (drawRandomSlide r) singleTimer.
Proof.
  unfold drawRandomSlide.
  apply leaves_seq; [apply leaves_gets | intros len].
  apply callDrawingFunction_singleTimer.
Qed.

Lemma stopForManualAdvance_singleTimer :
  leaves singleTimer stopForManualAdvance singleTimer.
Proof.
  unfold stopForManualAdvance.
  apply leaves_seq; [apply leaves_weaken_idle, clearHeld_idle | intros _].
  apply quiet_singleTimer. auto 10 with quiet.
Qed.

Lemma finishSlide_singleTimer n : leaves singleTimer (finishSlide n) singleTimer.
Proof.
  unfold finishSlide.
  apply leaves_seq; [apply leaves_weaken_idle, clearHeld_idle | intros _].
  apply leaves_seq; [apply quiet_singleTimer; auto with quiet | intros _].
  apply leaves_seq; [apply leaves_gets | intros ic].
  apply leaves_seq; [apply leaves_gets | intros img].
  apply leaves_seq; [apply quiet_singleTimer; auto with quiet | intros c].
  apply leaves_seq; [apply quiet_singleTimer; auto with quiet | intros _].
  apply leaves_seq; [apply leaves_gets | intros playing].
  apply leaves_when, resumeSlideShow_singleTimer.
Qed.

Lemma horizontalTick_singleTimer self n w h f off :
  leaves singleTimer (horizontalTick self n w h f off) singleTimer.
Proof.
  unfold horizontalTick.
  repeat (apply leaves_seq;
          [first [ apply leaves_gets
                 | apply setOffset_singleTimer
                 | apply quiet_singleTimer; unfold imageAt;
                   try destruct f; auto with quiet ]
          | intros ?]).
  apply leaves_when, finishSlide_singleTimer.
Qed.

Lemma verticalTick_singleTimer self n w h f off :
  leaves singleTimer (verticalTick self n w h f off) singleTimer.
Proof.
  unfold verticalTick.
  repeat (apply leaves_seq;
          [first [ apply leaves_gets
                 | apply setOffset_singleTimer
                 | apply quiet_singleTimer; unfold imageAt;
                   try destruct f; auto with quiet ]
          | intros ?]).
  apply leaves_when, finishSlide_singleTimer.
Qed.

Lemma fadeOutTick_singleTimer n w h :
  leaves singleTimer (fadeOutTick n w h) singleTimer.
Proof.
  unfold fadeOutTick, getAlpha.
  apply leaves_seq; [apply leaves_gets | intros a].
  apply leaves_if.
  - apply quiet_singleTimer. auto 10 with quiet.
  - apply leaves_via_idle; [apply clearHeld_idle | intros _].
    apply leaves_via_idle; [apply quiet_idle; auto with quiet | intros _].
    apply installInterval_singleTimer.
Qed.

Lemma fadeInTick_singleTimer w h :
  leaves singleTimer (fadeInTick w h) singleTimer.
Proof.
  unfold fadeInTick, getAlpha.
  apply leaves_seq; [apply leaves_gets | intros a].
  apply leaves_if.
  - apply quiet_singleTimer. auto 10 with quiet.
  - apply leaves_seq; [apply leaves_weaken_idle, clearHeld_idle | intros _].
    apply leaves_seq; [apply leaves_gets | intros playing].
    apply leaves_when, resumeSlideShow_singleTimer.
Qed.

Lemma invoke_singleTimer t r : leaves singleTimer (invoke t r) singleTimer.
Proof.
  unfold invoke. destruct (callback t).
  - unfold autoplayTick.
    apply leaves_seq; [apply leaves_gets | intros isRnd].
    apply leaves_if; [| apply drawRandomSlide_singleTimer].
    apply leaves_seq; [apply leaves_gets | intros rev].
    apply leaves_if;
      [apply drawNextSlide_singleTimer | apply drawPreviousSlide_singleTimer].
  - unfold randomTick.
    apply leaves_if;
      [apply drawRandomSlide_singleTimer | apply resumeSlideShow_singleTimer].
  - apply fadeOutTick_singleTimer.
  - apply fadeInTick_singleTimer.
  - apply horizontalTick_singleTimer.
  - apply verticalTick_singleTimer.
Qed.

Lemma handler_singleTimer e : leaves singleTimer (handler e) singleTimer.
Proof.
  destruct e; simpl.
  - apply leaves_seq; [apply leaves_gets | intros [t |]].
    + apply invoke_singleTimer.
    + apply leaves_ret.
  - unfold playCallback.
    apply leaves_seq; [apply quiet_singleTimer; auto with quiet | intros st].
    apply leaves_if;
      [apply leaves_weaken_idle, clearHeld_idle | apply resumeSlideShow_singleTimer].
  - unfold directionCallback.
    apply leaves_seq; [apply quiet_singleTimer; auto with quiet | intros rev].
    apply resumeSlideShow_singleTimer.
  - unfold randomCallback.
    apply leaves_seq; [apply quiet_singleTimer; auto with quiet | intros st].
    apply leaves_via_idle; [apply clearHeld_idle | intros _].
    apply installInterval_singleTimer.
  - unfold nextCallback.
    apply leaves_seq; [apply leaves_gets | intros isRnd].
    apply leaves_when.
    apply leaves_seq; [apply stopForManualAdvance_singleTimer | intros _].
    apply drawNextSlide_singleTimer.
  - unfold previousCallback.
    apply leaves_seq; [apply leaves_gets | intros isRnd].
    apply leaves_when.
    apply leaves_seq; [apply stopForManualAdvance_singleTimer | intros _].
    apply drawPreviousSlide_singleTimer.
  - unfold effectCallback.
    apply leaves_seq; [apply quiet_singleTimer; auto with quiet | intros _].
    repeat apply leaves_if;
      try (apply quiet_singleTimer; auto with quiet).
  - unfold keydown.
    repeat apply leaves_if; try apply leaves_ret;
      (apply leaves_seq; [apply stopForManualAdvance_singleTimer | intros _]);
      [apply drawPreviousSlide_singleTimer | apply drawNextSlide_singleTimer].
  - unfold touchend.
    apply leaves_seq; [apply quiet_singleTimer; auto with quiet | intros _].
    repeat apply leaves_if; try apply leaves_ret;
      (apply leaves_seq; [apply stopForManualAdvance_singleTimer | intros _]);
      [apply drawNextSlide_singleTimer | apply drawPreviousSlide_singleTimer].
Qed.

Lemma step_singleTimer e s : singleTimer s -> singleTimer (step e s).
Proof. apply handler_singleTimer. Qed.

Lemma start_singleTimer : leaves singleTimer start singleTimer.
Proof.
  unfold start.
  apply leaves_seq; [apply quiet_singleTimer; auto with quiet | intros _].
  apply leaves_seq; [apply quiet_singleTimer; auto with quiet | intros _].
  apply leaves_seq; [apply quiet_singleTimer; auto with quiet | intros _].
  apply leaves_seq; [apply drawNextSlide_singleTimer | intros _].
  apply leaves_seq; [apply quiet_singleTimer; auto with quiet | intros _].
  apply resumeSlideShow_singleTimer.
Qed.

Lemma loaded_singleTimer imgs w h : singleTimer (loaded imgs w h).
Proof. split; [simpl; lia | left; reflexivity]. Qed.

Lemma reachable_singleTimer imgs w h s :
  reachable imgs w h s -> singleTimer s.
Proof.
  induction 1 as [| e s _ IH].
  - apply start_singleTimer, loaded_singleTimer.
  - apply step_singleTimer, IH.
Qed.

(** C1. At most one timer handle is ever active.  In every state reached
    from start-up by interval ticks and control actions (autoplay ticks,
    the ticks of the fade and slide transitions, the play, direction,
    random, next and previous buttons, the arrow keys, swipes and effect
    selection) at most one interval is live and it is the one held in
    [interval]; every [setInterval] found the table empty, so the number
    of intervals live together never exceeded one. *)
Theorem one_live_timer (imgs : list Image) (w h : Q) (s : Slideshow) :
  reachable imgs w h s ->
  (List.length (timers s) <= 1)%nat /\
  (liveHighWater s <= 1)%nat /\
  (forall t, In t (timers s) -> handle t = interval s).
Proof.
  intros Hr. destruct (reachable_singleTimer imgs w h s Hr) as [Hw Ht].
  split; [| split; [exact Hw |]].
  - destruct Ht as [Ht | (t & Ht & _)]; rewrite Ht; simpl; lia.
  - intros t Hin. destruct Ht as [Ht | (t0 & Ht & Hh)]; rewrite Ht in Hin.
    + destruct Hin.
    + destruct Hin as [<- | []]. exact Hh.
Qed.

Lemma one_live_timer_witness :
  (List.length (timers resumedAfterRandom) <= 1)%nat /\
  (liveHighWater resumedAfterRandom <= 1)%nat /\
  (forall t, In t (timers resumedAfterRandom) ->
             handle t = interval resumedAfterRandom).
Proof.
  apply (one_live_timer demoImages 640 360).
  unfold resumedAfterRandom. cbv [run fold_left].
  repeat apply reach_step. apply reach_started.
Defined.

(** ** Control state *)

Lemma toggleDirection_disabled (m : ControlsManager) :
  isEnabled (directionButton m) = false ->
  toggleDirection m = (isReversed m, m).
Proof.
  intros H. unfold toggleDirection, toggle. rewrite H. destruct m; reflexivity.
Qed.

(** [toggleRandom] flips the enabled flag of the three controls whatever
    the random control did. *)
Lemma toggleRandom_flips (m : ControlsManager) :
  let m1 := snd (toggleRandom m) in
  isEnabled (previousButton m1) = negb (isEnabled (previousButton m)) /\
  isEnabled (nextButton m1) = negb (isEnabled (nextButton m)) /\
  isEnabled (directionButton m1) = negb (isEnabled (directionButton m)).
Proof.
  destruct m as [p [de ds] r [ne ns] [pe ps] e f]. simpl.
  destruct de, ne, pe; repeat split.
Qed.

(** After [togglePlay] the random and the direction control are enabled
    exactly when the slideshow plays. *)
Lemma togglePlay_enables (m : ControlsManager) :
  let m1 := snd (togglePlay m) in
  fst (togglePlay m) = isPlaying m1 /\
  isEnabled (randomButton m1) = isPlaying m1 /\
  isEnabled (directionButton m1) = isPlaying m1.
Proof.
  destruct m as [[pe ps] [de ds] [re rs] n p e f].
  destruct pe, ps, de, re; repeat split.
Qed.

(** C3. The code breaks the claim.  Switch random mode on, pause and
    resume: pausing forces random off but leaves previous and next
    disabled, so the next [toggleRandom], which enters random mode,
    flips them back to enabled while it disables direction. *)
Theorem toggleRandom_after_pause_enables_navigation :
  let m := controls resumedAfterRandom in
  let r := toggleRandom m in
  isRandom m = false /\ isEnabled (randomButton m) = true /\
  isEnabled (previousButton m) = false /\ isEnabled (nextButton m) = false /\
  fst r = true /\ isRandom (snd r) = true /\
  isEnabled (previousButton (snd r)) = true /\
  isEnabled (nextButton (snd r)) = true /\
  isEnabled (directionButton (snd r)) = false.
Proof. vm_compute. repeat split. Qed.

Lemma togglePlay_twice_counterexample :
  ~ restoredByTogglePlayTwice (controls randomOn).
Proof.
  intros (_ & _ & H). vm_compute in H. discriminate.
Qed.

(** C4, amended.  For every control state, [togglePlay] twice returns the
    playing flag to its original value and leaves the random and the
    direction control enabled exactly when that flag is set; so their
    enabled flags return to the original values when these agreed with
    the playing flag, and not otherwise. *)
Theorem togglePlay_twice (m : ControlsManager) :
  isPlaying (togglePlayTwice m) = isPlaying m /\
  isEnabled (randomButton (togglePlayTwice m)) = isPlaying m /\
  isEnabled (directionButton (togglePlayTwice m)) = isPlaying m.
Proof.
  destruct m as [[pe ps] [de ds] [re rs] n p e f].
  destruct pe, ps, de, ds, re, rs; repeat split.
Qed.

(** C9. The code breaks the claim.  While paused the direction control is
    disabled; [toggleDirection] then changes no control, but
    [directionCallback] goes on to [resumeSlideShow]: an autoplay
    interval is installed although the slideshow is not playing, and its
    first tick moves to the next slide. *)
Theorem disabled_direction_click_restarts_autoplay :
  let s1 := step DirectionClicked paused in
  isEnabled (directionButton (controls paused)) = false /\
  isPlaying (controls paused) = false /\
  timers paused = [] /\
  controls s1 = controls paused /\
  isPlaying (controls s1) = false /\
  timers s1 = [mkTimer 2 playSpeed Autoplay] /\
  imageCounter s1 = 0 /\
  imageCounter (tick s1) = 1.
Proof. vm_compute. repeat split. Qed.

(** ** Wraparound *)

(** C5. With at least one image and a valid current index, the forward
    advance passes 0 to the drawing function from the last index and the
    index plus one otherwise; the backward advance passes the last index
    from 0 and the index minus one otherwise. *)
Theorem wraparound (s : Slideshow) :
  1 <= imagesLength s -> 0 <= imageCounter s < imagesLength s ->
  let len := imagesLength s in
  let i := imageCounter s in
  drawNextSlide s = callDrawingFunction (if i =? len - 1 then 0 else i + 1) s /\
  drawPreviousSlide s
  = callDrawingFunction (if i =? 0 then len - 1 else i - 1) s.
Proof.
  intros Hlen Hi len i. unfold drawNextSlide, drawPreviousSlide, bind, gets.
  unfold nextIndex, previousIndex. fold len i. split; f_equal.
  - destruct (Z.eqb_spec i (len - 1)); destruct (Z.geb_spec (i + 1) len); lia.
  - destruct (Z.eqb_spec i 0); destruct (Z.ltb_spec (i - 1) 0); lia.
Qed.

Lemma wraparound_witness :
  drawNextSlide demo = callDrawingFunction 1 demo /\
  drawPreviousSlide demo = callDrawingFunction 2 demo.
Proof.
  apply (wraparound demo); vm_compute; intuition discriminate.
Defined.

(** ** The plain draw *)

(** What [drawSlide] does, case by case. *)
Lemma drawSlide_outcome (w h : Q) (slide : Z) (s : Slideshow) :
  exists s1,
    drawSlide w h slide s = (Normal tt, s1) /\
    imageCounter s1 = slide /\
    timers s1 = timers s /\ interval s1 = interval s /\
    ((exists img,
        imageOf (images s) slide = Some img /\ drawable img = true /\
        captions s1 = alt img /\
        console s1 = console s ++ [Drawing (src img)] /\
        painted (context s1) = painted (context s) ++
          [Cleared (origin 0 0 (context s)) w h;
           Drew img (origin 0 0 (context s)) w h
                (globalAlpha (current (context s)))])
     \/ (exists pre ex,
           console s1 = pre ++ [CouldNotDraw slide ex] /\
           captions s1 = captions s)).
Proof.
  unfold drawSlide, bind, tryCatch, modify, gets, imageAt, imageOf,
    clearRect, consoleLog. simpl.
  destruct (slide <? 0) eqn:Hneg.
  - simpl. eexists. split; [reflexivity |]. simpl. repeat split.
    right. eexists _, _. split; reflexivity.
  - destruct (nth_error (images s) (Z.to_nat slide)) as [img |] eqn:Himg; simpl.
    + unfold drawImage. destruct (drawable img) eqn:Hd; simpl.
      * eexists. split; [reflexivity |]. simpl. repeat split.
        left. exists img. repeat split; auto. rewrite <- app_assoc. reflexivity.
      * eexists. split; [reflexivity |]. simpl. repeat split.
        right. eexists _, _. split; reflexivity.
    + eexists. split; [reflexivity |]. simpl. repeat split.
      right. eexists _, _. split; reflexivity.
Qed.

(** C8. [drawSlide] never throws: for every target index it returns
    normally with [imageCounter] set to the target and the interval
    table untouched; either the image was painted and the caption
    updated, or the fault was caught and logged on the console. *)
Theorem drawSlide_contains_faults (w h : Q) (slide : Z) (s : Slideshow) :
  exists s1,
    drawSlide w h slide s = (Normal tt, s1) /\
    imageCounter s1 = slide /\
    timers s1 = timers s /\ interval s1 = interval s /\
    ((exists img,
        imageOf (images s) slide = Some img /\ drawable img = true /\
        captions s1 = alt img /\
        console s1 = console s ++ [Drawing (src img)] /\
        painted (context s1) = painted (context s) ++
          [Cleared (origin 0 0 (context s)) w h;
           Drew img (origin 0 0 (context s)) w h
                (globalAlpha (current (context s)))])
     \/ (exists pre ex,
           console s1 = pre ++ [CouldNotDraw slide ex] /\
           captions s1 = captions s)).
Proof. apply drawSlide_outcome. Qed.

Lemma drawSlide_returns (w h : Q) (slide : Z) (s : Slideshow) :
  drawSlide w h slide s = (Normal tt, exec (drawSlide w h slide) s).
Proof.
  destruct (drawSlide_outcome w h slide s) as (s1 & E & _).
  unfold exec. rewrite E. reflexivity.
Qed.

Lemma drawSlide_imageCounter (w h : Q) (slide : Z) (s : Slideshow) :
  imageCounter (exec (drawSlide w h slide) s) = slide /\
  timers (exec (drawSlide w h slide) s) = timers s.
Proof.
  destruct (drawSlide_outcome w h slide s) as (s1 & E & Hc & Ht & _).
  unfold exec. rewrite E. simpl. auto.
Qed.

(** ** Manual advance *)

Lemma manual_advance_counterexample :
  step NextClicked fadeSelected <> specAdvance true fadeSelected.
Proof.
  intros H. apply (f_equal imageCounter) in H. vm_compute in H. discriminate.
Qed.

Lemma stopForManualAdvance_returns (s : Slideshow) :
  stopForManualAdvance s = (Normal tt, exec stopForManualAdvance s).
Proof.
  unfold exec, stopForManualAdvance, clearHeld, clearInterval, bind, gets,
    modify, when, onControls, ret.
  simpl. destruct (isPlaying (controls s)); reflexivity.
Qed.

Lemma stopForManualAdvance_effect (s : Slideshow) :
  singleTimer s -> isEnabled (playButton (controls s)) = true ->
  let stopped := exec stopForManualAdvance s in
  timers stopped = [] /\ isPlaying (controls stopped) = false /\
  images stopped = images s /\ imageCounter stopped = imageCounter s /\
  drawingFunction stopped = drawingFunction s /\
  globalImageWidth stopped = globalImageWidth s /\
  globalImageHeight stopped = globalImageHeight s.
Proof.
  intros Hs He stopped.
  pose proof (clearHeld_idle s Hs) as [Hidle _].
  unfold stopped, stopForManualAdvance, exec, bind, gets, when in *.
  unfold clearHeld, bind, gets, clearInterval, modify in *. simpl in *.
  destruct (isPlaying (controls s)) eqn:Hp; simpl.
  - repeat split; auto.
    unfold isPlaying, getState, togglePlay, toggle in *. simpl.
    rewrite He, Hp. simpl.
    destruct (isActive (randomButton (controls s))),
      (isActive (directionButton (controls s))); reflexivity.
  - repeat split; auto.
Qed.

Lemma advance_after_stop (forward : bool) (s : Slideshow) :
  images (exec stopForManualAdvance s) = images s ->
  imageCounter (exec stopForManualAdvance s) = imageCounter s ->
  exec (stopForManualAdvance ;;
        if forward then drawNextSlide else drawPreviousSlide) s =
  exec (callDrawingFunction (advanceTarget forward s))
       (exec stopForManualAdvance s).
Proof.
  intros Hi Hc. unfold advanceTarget, imagesLength. rewrite <- Hi, <- Hc.
  unfold exec at 1, bind. rewrite stopForManualAdvance_returns.
  destruct forward; reflexivity.
Qed.

(** C2, amended.  A manual advance cancels the held interval, forces
    playing to false, computes the target by the wraparound rule and
    passes it to the drawing function currently selected: with no effect
    selected that is the plain draw, synchronous, leaving no interval and
    the current index at the target; a selected fade or slide effect is
    applied, not bypassed.  The arrow keys and swipes advance so in every
    mode, a swipe after the console line of its listener; the next and
    previous buttons do so when random mode is off and do nothing when it
    is on. *)
Theorem manual_advance (s : Slideshow) :
  singleTimer s -> isEnabled (playButton (controls s)) = true ->
  let stopped := exec stopForManualAdvance s in
  let advance forward :=
    exec (callDrawingFunction (advanceTarget forward s)) stopped in
  timers stopped = [] /\ isPlaying (controls stopped) = false /\
  step (KeyDown "ArrowRight") s = advance true /\
  step (KeyDown "ArrowLeft") s = advance false /\
  (forall d, (15 <= d)%Q ->
     step (TouchEnd d) s = step (KeyDown "ArrowRight") (touched s)) /\
  (forall d, (d <= -15)%Q ->
     step (TouchEnd d) s = step (KeyDown "ArrowLeft") (touched s)) /\
  (isRandom (controls s) = true ->
     step NextClicked s = s /\ step PreviousClicked s = s) /\
  (isRandom (controls s) = false ->
     step NextClicked s = advance true /\
     step PreviousClicked s = advance false) /\
  (drawingFunction s = DrawPlain -> forall forward,
     advance forward = specAdvance forward s /\
     timers (advance forward) = [] /\
     imageCounter (advance forward) = advanceTarget forward s).
Proof.
  intros Hs He stopped advance.
  destruct (stopForManualAdvance_effect s Hs He)
    as (Ht & Hp & Hi & Hc & Hd & Hw & Hh).
  fold stopped in Ht, Hp, Hi, Hc, Hd, Hw, Hh.
  pose proof (fun forward => advance_after_stop forward s Hi Hc) as Hadv.
  fold stopped in Hadv.
  split; [exact Ht |]. split; [exact Hp |].
  split; [exact (Hadv true) |]. split; [exact (Hadv false) |].
  split; [| split; [| split; [| split]]].
  - intros d Hd15. unfold step, handler, touchend. cbv zeta.
    apply Qle_bool_iff in Hd15. rewrite Hd15. reflexivity.
  - intros d Hd15. unfold step, handler, touchend. cbv zeta.
    destruct (Qle_bool 15 d) eqn:E1; [apply Qle_bool_iff in E1; lra |].
    destruct (Qle_bool d (15 * -1)) eqn:E2; [reflexivity |].
    assert (E3 : Qle_bool d (15 * -1) = true) by (apply Qle_bool_iff; lra).
    congruence.
  - intros Hr.
    unfold step, exec, handler, nextCallback, previousCallback, bind, gets.
    rewrite Hr. split; reflexivity.
  - intros Hr.
    split; unfold step, handler, nextCallback, previousCallback;
      unfold exec at 1, bind at 1, gets; rewrite Hr; cbn [negb when];
      [exact (Hadv true) | exact (Hadv false)].
  - intros Hdf forward.
    assert (Hplain : advance forward = specAdvance forward s).
    { unfold advance, specAdvance. fold stopped.
      unfold exec at 1. unfold callDrawingFunction, bind, gets.
      rewrite Hd, Hdf, Hw, Hh. reflexivity. }
    rewrite Hplain. unfold specAdvance. fold stopped.
    split; [reflexivity |]. split.
    + rewrite (proj2 (drawSlide_imageCounter _ _ _ _)). exact Ht.
    + apply drawSlide_imageCounter.
Qed.

Lemma manual_advance_witness :
  step NextClicked demo = specAdvance true demo /\
  imageCounter (specAdvance true demo) = advanceTarget true demo.
Proof.
  assert (Hs : singleTimer demo).
  { split; [vm_compute; lia |].
    right. exists (mkTimer 1 playSpeed Autoplay).
    split; vm_compute; reflexivity. }
  assert (He : isEnabled (playButton (controls demo)) = true)
    by (vm_compute; reflexivity).
  assert (Hr : isRandom (controls demo) = false) by (vm_compute; reflexivity).
  assert (Hd : drawingFunction demo = DrawPlain) by (vm_compute; reflexivity).
  pose proof (manual_advance demo Hs He) as H. cbv zeta in H.
  destruct H as (_ & _ & _ & _ & _ & _ & _ & Hbutton & Hplain).
  destruct (Hbutton Hr) as [Hn _].
  destruct (Hplain Hd true) as (Hspec & _ & Hc).
  rewrite Hn, Hspec. split; [reflexivity |].
  rewrite <- Hspec. exact Hc.
Defined.

(** ** Slide transitions *)

(** Symbolic execution of a handler on a state given field by field. *)
Ltac run_js :=
  cbv [invoke callback handle period slideCallback horizontalTick verticalTick
       bind gets modify ret when save clearRect restore translate imageAt setOffset
       images globalImageWidth globalImageHeight interval imageCounter context
       controls captions drawingFunction timers nextHandle liveHighWater console
       withInterval withImageCounter withContext withControls withCaptions
       withDrawingFunction withTimers withConsole].

Lemma slide_tick (a : Axis) (s : Slideshow) (hd : Z) (ms : Q) (n : Z)
  (w h : Q) (forward : bool) (offset : Z) (outgoing incoming : Image) :
  timers s = [mkTimer hd ms (slideCallback a n w h forward offset)] ->
  interval s = hd ->
  imageOf (images s) (imageCounter s) = Some outgoing ->
  drawable outgoing = true ->
  imageOf (images s) n = Some incoming -> drawable incoming = true ->
  tick s =
    let s1 := sliding a hd ms n w h forward (offset + increment)
                (tickContext a forward w h outgoing incoming offset
                             (context s)) s in
    if reachedLimit (extent a w h) (offset + increment)
    then exec (finishSlide n) s1 else s1.
Proof.
  destruct s as [imgs gw gh iv ic ctx ctl cap df tm nh hw con].
  cbn [timers interval images imageCounter context].
  intros Ht Hi Ho Hdo Hn Hdn. subst tm iv.
  unfold reachedLimit, tick, step, exec, handler.
  unfold bind at 1, gets at 1, liveTimer.
  cbn [find handle timers interval]. rewrite Z.eqb_refl.
  destruct a, forward;
    (run_js; rewrite Ho; cbv [drawImage]; rewrite Hdo;
     run_js; rewrite Hn; cbv [drawImage]; rewrite Hdn;
     run_js; cbn [map handle]; rewrite Z.eqb_refl;
     cbv [withOffset extent sliding]; run_js;
     match goal with |- context [Qle_bool ?x ?y] => destruct (Qle_bool x y) end;
     reflexivity).
Qed.

(** The stopping test in terms of the number of ticks. *)
Lemma Qceiling_le_iff (q : Q) (z : Z) : (Qceiling q <= z)%Z <-> (q <= inject_Z z)%Q.
Proof.
  split; intros H.
  - apply Qle_trans with (inject_Z (Qceiling q)); [apply Qle_ceiling |].
    rewrite <- Zle_Qle. exact H.
  - rewrite <- (Qceiling_Z z). apply Qceiling_resp_le, H.
Qed.

Lemma reachedLimit_iff (ext : Q) (j : Z) :
  reachedLimit ext (increment * j) = true <->
  (Qceiling ((ext + inject_Z increment) / inject_Z increment) <= j)%Z.
Proof.
  unfold reachedLimit. rewrite Qle_bool_iff, Qceiling_le_iff.
  unfold increment. rewrite inject_Z_mult.
  set (q := ((ext + inject_Z 3) / inject_Z 3)%Q).
  assert (Hq : (ext + inject_Z 3 == q * inject_Z 3)%Q).
  { unfold q. field. }
  rewrite Hq. change (inject_Z 3) with 3%Q.
  split; intros H; lra.
Qed.

Lemma slideTicks_pos (ext : Q) : (0 <= ext)%Q ->
  (1 <= Qceiling ((ext + inject_Z increment) / inject_Z increment))%Z.
Proof.
  intros H. change 1%Z with (Qceiling 1). apply Qceiling_resp_le.
  apply Qle_shift_div_l; [reflexivity |]. unfold increment.
  change (inject_Z 3) with 3%Q. lra.
Qed.

Lemma reachedLimit_ticks (ext : Q) (k : nat) : (0 <= ext)%Q ->
  reachedLimit ext (increment * Z.of_nat k) = true <-> (slideTicks ext <= k)%nat.
Proof.
  intros H. rewrite reachedLimit_iff. unfold slideTicks.
  pose proof (slideTicks_pos ext H). lia.
Qed.

Lemma tickContext_effect (a : Axis) (forward : bool) (w h : Q)
  (outgoing incoming : Image) (offset : Z) (c : Context) :
  let c1 := tickContext a forward w h outgoing incoming offset c in
  current c1 = current c /\ saved c1 = saved c /\
  saveCalls c1 = S (saveCalls c) /\ restoreCalls c1 = S (restoreCalls c) /\
  painted c1 = painted c ++
    slideFrame a forward w h outgoing incoming (transform (current c))
      (globalAlpha (current c)) offset.
Proof.
  destruct c as [[t al] sv sc rc p]. destruct a, forward; simpl;
    repeat split; rewrite <- !app_assoc; reflexivity.
Qed.

Lemma slideContext_effect (a : Axis) (forward : bool) (w h : Q)
  (outgoing incoming : Image) (k : nat) :
  forall (offset : Z) (c : Context),
  let c1 := slideContext a forward w h outgoing incoming k offset c in
  current c1 = current c /\ saved c1 = saved c /\
  saveCalls c1 = (saveCalls c + k)%nat /\
  restoreCalls c1 = (restoreCalls c + k)%nat /\
  painted c1 = painted c ++
    slideFrames a forward w h outgoing incoming (transform (current c))
      (globalAlpha (current c)) k offset.
Proof.
  induction k as [| k IH]; intros offset c.
  - simpl. rewrite app_nil_r, !Nat.add_0_r. repeat split.
  - cbn [slideContext slideFrames].
    destruct (tickContext_effect a forward w h outgoing incoming offset c)
      as (Hc & Hs & Hsc & Hrc & Hp).
    destruct (IH (offset + increment)
                 (tickContext a forward w h outgoing incoming offset c))
      as (Hc1 & Hs1 & Hsc1 & Hrc1 & Hp1).
    cbv zeta. rewrite Hc1, Hs1, Hsc1, Hrc1, Hp1, Hc, Hs, Hsc, Hrc, Hp.
    rewrite <- app_assoc. repeat split; lia.
Qed.

Section SlideRun.
Variables (a : Axis) (hd : Z) (ms : Q) (n : Z) (w h : Q) (forward : bool).
Variables (outgoing incoming : Image) (s1 : Slideshow).
Hypothesis held : interval s1 = hd.
Hypothesis outgoing_there : imageOf (images s1) (imageCounter s1) = Some outgoing.
Hypothesis outgoing_drawable : drawable outgoing = true.
Hypothesis incoming_there : imageOf (images s1) n = Some incoming.
Hypothesis incoming_drawable : drawable incoming = true.

Lemma sliding_tick (offset : Z) (c : Context) :
  tick (sliding a hd ms n w h forward offset c s1) =
    let s2 := sliding a hd ms n w h forward (offset + increment)
                (tickContext a forward w h outgoing incoming offset c) s1 in
    if reachedLimit (extent a w h) (offset + increment)
    then exec (finishSlide n) s2 else s2.
Proof.
  rewrite (slide_tick a _ hd ms n w h forward offset outgoing incoming);
    auto.
Qed.

Lemma ticks_sliding (k : nat) :
  forall (offset : Z) (c : Context),
  (forall j, (j < k)%nat ->
     reachedLimit (extent a w h) (offset + increment * Z.of_nat (S j)) = false) ->
  ticks k (sliding a hd ms n w h forward offset c s1) =
  sliding a hd ms n w h forward (offset + increment * Z.of_nat k)
    (slideContext a forward w h outgoing incoming k offset c) s1.
Proof.
  induction k as [| k IH]; intros offset c Hlim.
  - cbn [ticks slideContext].
    replace (offset + increment * Z.of_nat 0) with offset
      by (unfold increment; lia).
    reflexivity.
  - cbn [ticks slideContext]. rewrite sliding_tick. cbv zeta.
    pose proof (Hlim O ltac:(lia)) as H0.
    replace (offset + increment * Z.of_nat 1) with (offset + increment) in H0
      by (unfold increment; lia).
    rewrite H0, IH.
    + f_equal. unfold increment. lia.
    + intros j Hj. specialize (Hlim (S j) ltac:(lia)).
      rewrite <- Hlim. f_equal. unfold increment. lia.
Qed.
End SlideRun.

Ltac run_all :=
  cbv [exec slideTransition horizontalTransition verticalTransition clearHeld
       clearInterval installInterval setInterval finishSlide resumeSlideShow
       sliding rearmed afterTransition slideCallback
       bind gets modify ret when save imageAt member
       images globalImageWidth globalImageHeight interval imageCounter context
       controls captions drawingFunction timers nextHandle liveHighWater console
       withInterval withImageCounter withContext withControls withCaptions
       withDrawingFunction withTimers withConsole fst snd].

Lemma slideTransition_installs (a : Axis) (s : Slideshow) (n : Z) (w h : Q) :
  singleTimer s ->
  exec (slideTransition a n w h) s =
    sliding a (nextHandle s) (animationSpeed / inject_Z increment)%Q n
      (extentOr w (globalImageWidth s)) (extentOr h (globalImageHeight s))
      (imageCounter s <? n) 0 (ctxSave (context s)) (rearmed s).
Proof.
  intros [_ Ht].
  destruct s as [imgs gw gh iv ic ctx ctl cap df tm nh hw con].
  cbn [timers interval] in Ht.
  destruct Ht as [-> | (t & -> & Hh)]; destruct a; run_all;
    cbn [filter negb]; try (rewrite Hh, Z.eqb_refl); reflexivity.
Qed.

Lemma finishSlide_effect (a : Axis) (hd : Z) (ms : Q) (n : Z) (w h : Q)
  (forward : bool) (offset : Z) (c : Context) (incoming : Image)
  (s1 : Slideshow) :
  interval s1 = hd -> imageOf (images s1) n = Some incoming ->
  let s2 := exec (finishSlide n) (sliding a hd ms n w h forward offset c s1) in
  imageCounter s2 = n /\ captions s2 = alt incoming /\ context s2 = c /\
  timers s2 = afterTransition s1 /\ controls s2 = controls s1 /\
  images s2 = images s1.
Proof.
  destruct s1 as [imgs gw gh iv ic ctx ctl cap df tm nh hw con].
  cbn [interval images]. intros -> Hn.
  run_all. cbn [filter negb handle]. rewrite Z.eqb_refl. cbn [negb].
  rewrite Hn. run_all.
  destruct (isPlaying ctl); run_all; cbn [filter]; repeat split.
Qed.

Lemma ticks_succ (k : nat) : forall s, ticks (S k) s = tick (ticks k s).
Proof.
  induction k as [| k IH]; intros s.
  - reflexivity.
  - change (ticks (S (S k)) s) with (ticks (S k) (tick s)).
    rewrite IH. reflexivity.
Qed.

Lemma reachedLimit_before (ext : Q) (k : nat) : (0 <= ext)%Q ->
  (k < slideTicks ext)%nat -> reachedLimit ext (increment * Z.of_nat k) = false.
Proof.
  intros He Hk.
  destruct (reachedLimit ext (increment * Z.of_nat k)) eqn:E; [| reflexivity].
  apply (proj1 (reachedLimit_ticks ext k He)) in E. lia.
Qed.

Lemma reachedLimit_at (ext : Q) : (0 <= ext)%Q ->
  reachedLimit ext (increment * Z.of_nat (slideTicks ext)) = true.
Proof.
  intros He. apply (proj2 (reachedLimit_ticks ext _ He)). apply Nat.le_refl.
Qed.

Lemma slideTicks_succ (ext : Q) : (0 <= ext)%Q ->
  exists k, slideTicks ext = S k.
Proof.
  intros He. pose proof (slideTicks_pos ext He). unfold slideTicks.
  destruct (Z.to_nat _) eqn:E; [lia | eauto].
Qed.

Lemma slideContext_last (a : Axis) (forward : bool) (w h : Q)
  (outgoing incoming : Image) (k : nat) :
  forall (offset : Z) (c : Context),
  slideContext a forward w h outgoing incoming (S k) offset c =
  tickContext a forward w h outgoing incoming
    (offset + increment * Z.of_nat k)
    (slideContext a forward w h outgoing incoming k offset c).
Proof.
  induction k as [| k IH]; intros offset c.
  - cbn [slideContext].
    replace (offset + increment * Z.of_nat 0) with offset
      by (unfold increment; lia).
    reflexivity.
  - change (slideContext a forward w h outgoing incoming (S (S k)) offset c)
      with (slideContext a forward w h outgoing incoming (S k)
              (offset + increment)
              (tickContext a forward w h outgoing incoming offset c)).
    rewrite IH. cbn [slideContext]. f_equal. unfold increment. lia.
Qed.

Section SlideTransition.
Variables (a : Axis) (s : Slideshow) (n : Z) (w h : Q).
Variables (outgoing incoming : Image).
Hypothesis discipline : singleTimer s.
Hypothesis outgoing_there :
  imageOf (images s) (imageCounter s) = Some outgoing.
Hypothesis outgoing_drawable : drawable outgoing = true.
Hypothesis incoming_there : imageOf (images s) n = Some incoming.
Hypothesis incoming_drawable : drawable incoming = true.
Hypothesis extent_nonnegative :
  (0 <= extent a (extentOr w (globalImageWidth s))
                 (extentOr h (globalImageHeight s)))%Q.

Lemma slide_running (k : nat) :
  (k < slideTicks (extent a (extentOr w (globalImageWidth s))
                            (extentOr h (globalImageHeight s))))%nat ->
  ticks k (exec (slideTransition a n w h) s) =
  sliding a (nextHandle s) (animationSpeed / inject_Z increment)%Q n
    (extentOr w (globalImageWidth s)) (extentOr h (globalImageHeight s))
    (imageCounter s <? n) (increment * Z.of_nat k)
    (slideContext a (imageCounter s <? n) (extentOr w (globalImageWidth s))
       (extentOr h (globalImageHeight s)) outgoing incoming k 0
       (ctxSave (context s)))
    (rearmed s).
Proof.
  intros Hk. rewrite slideTransition_installs by exact discipline.
  rewrite (ticks_sliding a (nextHandle s) _ n _ _ _ outgoing incoming
             (rearmed s)); auto.
  intros j Hj.
  change (0 + increment * Z.of_nat (S j)) with (increment * Z.of_nat (S j)).
  apply reachedLimit_before; [exact extent_nonnegative | lia].
Qed.

Lemma slide_finished :
  ticks (slideTicks (extent a (extentOr w (globalImageWidth s))
                              (extentOr h (globalImageHeight s))))
        (exec (slideTransition a n w h) s) =
  exec (finishSlide n)
    (sliding a (nextHandle s) (animationSpeed / inject_Z increment)%Q n
       (extentOr w (globalImageWidth s)) (extentOr h (globalImageHeight s))
       (imageCounter s <? n)
       (increment *
        Z.of_nat (slideTicks (extent a (extentOr w (globalImageWidth s))
                                       (extentOr h (globalImageHeight s)))))
       (slideContext a (imageCounter s <? n)
          (extentOr w (globalImageWidth s)) (extentOr h (globalImageHeight s))
          outgoing incoming
          (slideTicks (extent a (extentOr w (globalImageWidth s))
                                (extentOr h (globalImageHeight s))))
          0 (ctxSave (context s)))
       (rearmed s)).
Proof.
  destruct (slideTicks_succ _ extent_nonnegative) as [k Hk].
  pose proof (reachedLimit_at _ extent_nonnegative) as Hlim.
  rewrite Hk in *. rewrite ticks_succ, slide_running by lia.
  rewrite (sliding_tick a (nextHandle s) _ n _ _ _ outgoing incoming
             (rearmed s)); auto.
  cbv zeta.
  replace (increment * Z.of_nat k + increment)
    with (increment * Z.of_nat (S k)) by (unfold increment; lia).
  rewrite Hlim, slideContext_last. reflexivity.
Qed.
End SlideTransition.

Lemma outgoing_moves (a : Axis) (forward : bool) (base : Q * Q) (offset : Z) :
  if falls a forward
  then (along a (outgoingAt a forward base (offset + increment)) <
        along a (outgoingAt a forward base offset))%Q
  else (along a (outgoingAt a forward base offset) <
        along a (outgoingAt a forward base (offset + increment)))%Q.
Proof.
  destruct base as [x y].
  destruct a, forward;
    cbv [falls negb along outgoingAt origin shifted ctxTranslate atBase
         withCurrent current transform fst snd increment];
    rewrite inject_Z_plus; change (inject_Z 3) with 3%Q; lra.
Qed.

Lemma liveTimer_afterTransition (s s2 : Slideshow) :
  timers s2 = afterTransition (rearmed s) ->
  liveTimer (nextHandle s) s2 = None.
Proof.
  intros Ht. unfold liveTimer. rewrite Ht. unfold afterTransition.
  destruct (isPlaying (controls (rearmed s))); [| reflexivity].
  cbn [find handle rearmed nextHandle].
  destruct (Z.eqb_spec (nextHandle s + 1) (nextHandle s)); [lia | reflexivity].
Qed.

Lemma slide_context (a : Axis) (s : Slideshow) (n : Z) (w h : Q)
  (outgoing incoming : Image) :
  singleTimer s ->
  imageOf (images s) (imageCounter s) = Some outgoing ->
  drawable outgoing = true ->
  imageOf (images s) n = Some incoming -> drawable incoming = true ->
  let imgWidth := extentOr w (globalImageWidth s) in
  let imgHeight := extentOr h (globalImageHeight s) in
  let ext := extent a imgWidth imgHeight in
  (0 <= ext)%Q ->
  forall k, (k <= slideTicks ext)%nat ->
  context (ticks k (exec (slideTransition a n w h) s)) =
  slideContext a (imageCounter s <? n) imgWidth imgHeight outgoing incoming
    k 0 (ctxSave (context s)).
Proof.
  intros Hs Ho Hdo Hn Hdn imgWidth imgHeight ext He k Hk.
  destruct (Nat.eq_dec k (slideTicks ext)) as [-> | Hne].
  - unfold ext, imgWidth, imgHeight.
    rewrite (slide_finished a s n w h outgoing incoming); auto.
    apply (finishSlide_effect a _ _ n _ _ _ _ _ incoming (rearmed s)); auto.
  - rewrite (slide_running a s n w h outgoing incoming); auto.
    fold imgWidth imgHeight ext. lia.
Qed.

(** A slide transition, across or down, between two drawable images
    saves the drawing state once when it starts and once in every tick,
    and restores it once in every tick: after [k] ticks, up to the last,
    [save] was called [1 + k] times and [restore] [k] times, each tick
    ends with the drawing state it began with, and the saved stack holds
    one state more than before the transition; the completed transition
    leaves it there. *)
Lemma slide_saves_once_more (a : Axis) (s : Slideshow) (n : Z) (w h : Q)
  (outgoing incoming : Image) :
  singleTimer s ->
  imageOf (images s) (imageCounter s) = Some outgoing ->
  drawable outgoing = true ->
  imageOf (images s) n = Some incoming -> drawable incoming = true ->
  let ext := extent a (extentOr w (globalImageWidth s))
                      (extentOr h (globalImageHeight s)) in
  (0 <= ext)%Q ->
  let s1 := exec (slideTransition a n w h) s in
  (forall k, (k <= slideTicks ext)%nat ->
     let c := context (ticks k s1) in
     saveCalls c = (saveCalls (context s) + 1 + k)%nat /\
     restoreCalls c = (restoreCalls (context s) + k)%nat /\
     saved c = current (context s) :: saved (context s) /\
     current c = current (context s)) /\
  liveTimer (interval s1) (ticks (slideTicks ext) s1) = None /\
  imageCounter (ticks (slideTicks ext) s1) = n.
Proof.
  intros Hs Ho Hdo Hn Hdn ext He s1. split.
  - intros k Hk c. unfold c, s1.
    rewrite (slide_context a s n w h outgoing incoming); auto.
    destruct (slideContext_effect a (imageCounter s <? n)
                (extentOr w (globalImageWidth s))
                (extentOr h (globalImageHeight s)) outgoing incoming k 0
                (ctxSave (context s))) as (Hc & Hsv & Hsc & Hrc & _).
    rewrite Hc, Hsv, Hsc, Hrc. cbn [ctxSave current saved saveCalls restoreCalls].
    repeat split; lia.
  - unfold s1 at 1. rewrite slideTransition_installs by exact Hs.
    change (interval (sliding _ _ _ _ _ _ _ _ _ (rearmed s))) with (nextHandle s).
    unfold s1, ext.
    rewrite (slide_finished a s n w h outgoing incoming); auto.
    destruct (finishSlide_effect a (nextHandle s)
                (animationSpeed / inject_Z increment)%Q n
                (extentOr w (globalImageWidth s))
                (extentOr h (globalImageHeight s)) (imageCounter s <? n)
                (increment * Z.of_nat (slideTicks ext))
                (slideContext a (imageCounter s <? n)
                   (extentOr w (globalImageWidth s))
                   (extentOr h (globalImageHeight s)) outgoing incoming
                   (slideTicks ext) 0 (ctxSave (context s)))
                incoming (rearmed s) eq_refl Hn)
      as (Hic & _ & _ & Ht & _).
    split; [| exact Hic].
    apply (liveTimer_afterTransition s). exact Ht.
Qed.

(** C10.  With an image the canvas cannot draw, the ticks of a slide
    transition are not balanced.  On [faulty], sliding from the first
    image to the undrawable second one, across or down: the transition
    saves once when it starts; its first tick saves again and restores
    nothing; after as many ticks as a fault-free transition takes (215
    across, 121 down) [save] has been called once per tick more and
    [restore] never, the saved stack has grown by one state per tick,
    and the interval is still live with the current index at 0. *)
Theorem slide_fault_skips_restore (a : Axis) :
  let s1 := faultySlide a in
  let n := slideTicks (extent a 640 360) in
  saveCalls (context s1) = S (saveCalls (context faulty)) /\
  saveCalls (context (tick s1)) = S (saveCalls (context s1)) /\
  restoreCalls (context (tick s1)) = restoreCalls (context s1) /\
  saveCalls (context (ticks n s1)) = (saveCalls (context s1) + n)%nat /\
  restoreCalls (context (ticks n s1)) = restoreCalls (context faulty) /\
  List.length (saved (context (ticks n s1))) =
    (List.length (saved (context faulty)) + 1 + n)%nat /\
  liveTimer (interval s1) (ticks n s1) <> None /\
  imageCounter (ticks n s1) = 0.
Proof.
  destruct a; vm_compute; repeat split; discriminate.
Qed.

Lemma slide_direction_counterexample :
  let s := ticks 2 (step NextClicked verticalSelected) in
  (imageCounter verticalSelected <? 1) = true /\
  map (along Vertical) (firstDrawn (skipn 2 (painted (context s))))
  = [0%Q; 3%Q] /\
  ~ specDirection Vertical true (0, 0)%Q 0.
Proof.
  split; [vm_compute; reflexivity |]. split; [vm_compute; reflexivity |].
  unfold specDirection.
  cbv [along outgoingAt origin shifted ctxTranslate atBase withCurrent
       current transform fst snd increment].
  intros H. vm_compute in H. discriminate.
Qed.

(** C7, amended.  A slide transition between two drawable images runs for
    exactly [ceil ((extent + step) / step)] ticks, the extent being the
    image width across and the image height down: until then its interval
    is live with the offset at [step] times the number of ticks done and
    the current index unchanged; the last tick cancels it and commits the
    target index and its caption.  The ticks paint the frames at offsets
    0, step, 2 step, ...; from one tick to the next the origin of the
    outgoing image strictly decreases along the axis when sliding across
    forward or down backward, and strictly increases when sliding across
    backward or down forward. *)
Theorem slide_transition_runs (a : Axis) (s : Slideshow) (n : Z) (w h : Q)
  (outgoing incoming : Image) :
  singleTimer s ->
  imageOf (images s) (imageCounter s) = Some outgoing ->
  drawable outgoing = true ->
  imageOf (images s) n = Some incoming -> drawable incoming = true ->
  let imgWidth := extentOr w (globalImageWidth s) in
  let imgHeight := extentOr h (globalImageHeight s) in
  let ext := extent a imgWidth imgHeight in
  (0 <= ext)%Q ->
  let forward := imageCounter s <? n in
  let base := transform (current (context s)) in
  let s1 := exec (slideTransition a n w h) s in
  (forall k, (k < slideTicks ext)%nat ->
     liveTimer (interval s1) (ticks k s1) =
       Some (mkTimer (interval s1) (animationSpeed / inject_Z increment)%Q
               (slideCallback a n imgWidth imgHeight forward
                  (increment * Z.of_nat k))) /\
     imageCounter (ticks k s1) = imageCounter s) /\
  liveTimer (interval s1) (ticks (slideTicks ext) s1) = None /\
  imageCounter (ticks (slideTicks ext) s1) = n /\
  captions (ticks (slideTicks ext) s1) = alt incoming /\
  (forall k, (k <= slideTicks ext)%nat ->
     painted (context (ticks k s1)) =
     painted (context s) ++
     slideFrames a forward imgWidth imgHeight outgoing incoming base
       (globalAlpha (current (context s))) k 0) /\
  (forall offset,
     if falls a forward
     then (along a (outgoingAt a forward base (offset + increment)) <
           along a (outgoingAt a forward base offset))%Q
     else (along a (outgoingAt a forward base offset) <
           along a (outgoingAt a forward base (offset + increment)))%Q).
Proof.
  intros Hs Ho Hdo Hn Hdn imgWidth imgHeight ext He forward base s1.
  assert (Hhd : interval s1 = nextHandle s).
  { unfold s1. rewrite slideTransition_installs by exact Hs. reflexivity. }
  rewrite Hhd.
  destruct (finishSlide_effect a (nextHandle s)
              (animationSpeed / inject_Z increment)%Q n imgWidth imgHeight
              forward (increment * Z.of_nat (slideTicks ext))
              (slideContext a forward imgWidth imgHeight outgoing incoming
                 (slideTicks ext) 0 (ctxSave (context s)))
              incoming (rearmed s) eq_refl Hn)
    as (Hic & Hcap & _ & Ht & _).
  pose proof (slide_finished a s n w h outgoing incoming Hs Ho Hdo Hn Hdn He)
    as Hfin.
  fold imgWidth imgHeight ext forward s1 in Hfin. rewrite <- Hfin in Hic, Hcap, Ht.
  split; [| split; [| split; [| split; [| split]]]].
  - intros k Hk. unfold s1.
    rewrite (slide_running a s n w h outgoing incoming); auto.
    split; [| reflexivity].
    unfold liveTimer, sliding. cbn [timers withTimers find handle].
    rewrite Z.eqb_refl. reflexivity.
  - apply (liveTimer_afterTransition s). exact Ht.
  - exact Hic.
  - exact Hcap.
  - intros k Hk. unfold s1.
    rewrite (slide_context a s n w h outgoing incoming); auto.
    destruct (slideContext_effect a forward imgWidth imgHeight outgoing
                incoming k 0 (ctxSave (context s))) as (_ & _ & _ & _ & Hp).
    exact Hp.
  - intros offset. apply outgoing_moves.
Qed.

(** ** The fade transition *)

Lemma paintedAlphas_app (l1 l2 : list Paint) :
  paintedAlphas (l1 ++ l2) = paintedAlphas l1 ++ paintedAlphas l2.
Proof.
  induction l1 as [| [o w h | img o w h al] l1 IH]; simpl; congruence.
Qed.

Lemma drawSlide_effect (w h : Q) (slide : Z) (s : Slideshow) :
  let s1 := exec (drawSlide w h slide) s in
  imageCounter s1 = slide /\ timers s1 = timers s /\
  interval s1 = interval s /\ nextHandle s1 = nextHandle s /\
  images s1 = images s /\ controls s1 = controls s /\
  current (context s1) = current (context s) /\
  paintedAlphas (painted (context s1)) =
  paintedAlphas (painted (context s)) ++
  shown (visible (images s) slide) [globalAlpha (current (context s))].
Proof.
  destruct s as [imgs gw gh iv ic ctx ctl cap df tm nh hw con].
  unfold visible.
  cbv [exec drawSlide bind tryCatch modify gets imageAt clearRect consoleLog
       member ret throw fst snd
       images globalImageWidth globalImageHeight interval imageCounter context
       controls captions drawingFunction timers nextHandle liveHighWater console
       withInterval withImageCounter withContext withControls withCaptions
       withDrawingFunction withTimers withConsole].
  destruct (imageOf imgs slide) as [img |]; cbv [drawImage].
  - destruct (drawable img);
      cbv [exec drawSlide bind tryCatch modify gets imageAt clearRect consoleLog
       member ret throw fst snd paint current painted shown
       images globalImageWidth globalImageHeight interval imageCounter context
       controls captions drawingFunction timers nextHandle liveHighWater console
       withInterval withImageCounter withContext withControls withCaptions
       withDrawingFunction withTimers withConsole];
      rewrite ?paintedAlphas_app; cbn [paintedAlphas];
      rewrite <- ?app_assoc, ?app_nil_r; repeat split.
  - cbv [bind tryCatch modify gets consoleLog member ret throw fst snd paint
         current painted shown
       images globalImageWidth globalImageHeight interval imageCounter context
       controls captions drawingFunction timers nextHandle liveHighWater console
       withInterval withImageCounter withContext withControls withCaptions
       withDrawingFunction withTimers withConsole].
    rewrite ?paintedAlphas_app; cbn [paintedAlphas];
      rewrite <- ?app_assoc, ?app_nil_r; repeat split.
Qed.

Lemma tick_invoke (s : Slideshow) (t : Timer) :
  timers s = [t] -> handle t = interval s -> tick s = exec (invoke t 0) s.
Proof.
  intros Ht Hh. unfold tick, step, exec, handler, bind, gets, liveTimer.
  rewrite Ht. cbn [find]. rewrite Hh, Z.eqb_refl. reflexivity.
Qed.

Lemma setAlpha_effect (a : Z) (s : Slideshow) :
  let s1 := exec (setAlpha a) s in
  globalAlpha (current (context s1)) = a /\
  imageCounter s1 = imageCounter s /\ timers s1 = timers s /\
  interval s1 = interval s /\ nextHandle s1 = nextHandle s /\
  images s1 = images s /\ controls s1 = controls s /\
  painted (context s1) = painted (context s).
Proof. repeat split. Qed.

(** A drawing tick of either phase: the slide is redrawn at the current
    opacity, which then moves by [delta]. *)
Lemma fade_draw (delta : Z) (w h : Q) (s : Slideshow) :
  let s1 := exec (setAlpha (globalAlpha (current (context s)) + delta))
                 (exec (drawSlide w h (imageCounter s)) s) in
  globalAlpha (current (context s1)) = globalAlpha (current (context s)) + delta /\
  imageCounter s1 = imageCounter s /\ timers s1 = timers s /\
  interval s1 = interval s /\ nextHandle s1 = nextHandle s /\
  images s1 = images s /\ controls s1 = controls s /\
  paintedAlphas (painted (context s1)) =
  paintedAlphas (painted (context s)) ++
  shown (visible (images s) (imageCounter s))
        [globalAlpha (current (context s))].
Proof.
  destruct (drawSlide_effect w h (imageCounter s) s)
    as (Hic & Ht & Hi & Hnh & Him & Hc & Hcur & Hp).
  cbv zeta.
  destruct (setAlpha_effect (globalAlpha (current (context s)) + delta)
              (exec (drawSlide w h (imageCounter s)) s))
    as (Ha & Hic1 & Ht1 & Hi1 & Hnh1 & Him1 & Hc1 & Hp1).
  rewrite Ha, Hic1, Ht1, Hi1, Hnh1, Him1, Hc1, Hp1.
  rewrite Hic, Ht, Hi, Hnh, Him, Hc, Hp. repeat split.
Qed.

Lemma fadeOutTick_draws (n : Z) (w h : Q) (s : Slideshow) :
  alphaFloor <= globalAlpha (current (context s)) ->
  exec (fadeOutTick n w h) s =
  exec (setAlpha (globalAlpha (current (context s)) + - fadeStep))
       (exec (drawSlide w h (imageCounter s)) s).
Proof.
  intros Ha. unfold fadeOutTick, exec, bind, getAlpha, gets.
  destruct (Z.leb_spec alphaFloor (globalAlpha (current (context s))));
    [| lia].
  rewrite drawSlide_returns.
  destruct (drawSlide_effect w h (imageCounter s) s)
    as (_ & _ & _ & _ & _ & _ & Hcur & _).
  cbv zeta in Hcur. rewrite Hcur. reflexivity.
Qed.

Lemma fadeInTick_draws (w h : Q) (s : Slideshow) :
  globalAlpha (current (context s)) < alphaFull ->
  exec (fadeInTick w h) s =
  exec (setAlpha (globalAlpha (current (context s)) + fadeStep))
       (exec (drawSlide w h (imageCounter s)) s).
Proof.
  intros Ha. unfold fadeInTick, exec, bind, getAlpha, gets.
  destruct (Z.ltb_spec (globalAlpha (current (context s))) alphaFull);
    [| lia].
  rewrite drawSlide_returns.
  destruct (drawSlide_effect w h (imageCounter s) s)
    as (_ & _ & _ & _ & _ & _ & Hcur & _).
  cbv zeta in Hcur. rewrite Hcur. reflexivity.
Qed.

Section FadeTicks.
Variables (n : Z) (w h : Q) (s0 : Slideshow).

Lemma fadeOut_draw_tick hd nh a ic alphas s :
  fading (FadeOut n w h) hd nh a ic alphas s0 s -> alphaFloor <= a ->
  fading (FadeOut n w h) hd nh (a - fadeStep) ic
    (alphas ++ shown (visible (images s0) ic) [a]) s0 (tick s).
Proof.
  intros (Ht & Hi & Hnh & Ha & Hic & Him & Hc & Hp) Hge.
  rewrite (tick_invoke s _ Ht) by (symmetry; exact Hi).
  cbn [invoke callback]. rewrite fadeOutTick_draws by (rewrite Ha; exact Hge).
  destruct (fade_draw (- fadeStep) w h s)
    as (Ha1 & Hic1 & Ht1 & Hi1 & Hnh1 & Him1 & Hc1 & Hp1).
  unfold fading.
  rewrite Ha1, Hic1, Ht1, Hi1, Hnh1, Him1, Hc1, Hp1.
  rewrite Ht, Hi, Hnh, Ha, Hic, Him, Hc, Hp, app_assoc.
  repeat split.
Qed.

Lemma fadeIn_draw_tick hd nh a ic alphas s :
  fading (FadeIn w h) hd nh a ic alphas s0 s -> a < alphaFull ->
  fading (FadeIn w h) hd nh (a + fadeStep) ic
    (alphas ++ shown (visible (images s0) ic) [a]) s0 (tick s).
Proof.
  intros (Ht & Hi & Hnh & Ha & Hic & Him & Hc & Hp) Hlt.
  rewrite (tick_invoke s _ Ht) by (symmetry; exact Hi).
  cbn [invoke callback]. rewrite fadeInTick_draws by (rewrite Ha; exact Hlt).
  destruct (fade_draw fadeStep w h s)
    as (Ha1 & Hic1 & Ht1 & Hi1 & Hnh1 & Him1 & Hc1 & Hp1).
  unfold fading.
  rewrite Ha1, Hic1, Ht1, Hi1, Hnh1, Him1, Hc1, Hp1.
  rewrite Ht, Hi, Hnh, Ha, Hic, Him, Hc, Hp, app_assoc.
  repeat split.
Qed.

Lemma fadeOut_switch_tick hd nh a ic alphas s :
  fading (FadeOut n w h) hd nh a ic alphas s0 s -> a < alphaFloor ->
  fading (FadeIn w h) nh (nh + 1) a n alphas s0 (tick s).
Proof.
  intros (Ht & Hi & Hnh & Ha & Hic & Him & Hc & Hp) Hlt.
  rewrite (tick_invoke s _ Ht) by (symmetry; exact Hi).
  destruct s as [imgs gw gh iv ic1 ctx ctl cap df tm nhd hw con].
  cbn [timers interval nextHandle context imageCounter images controls] in *.
  subst tm iv nhd.
  cbv [invoke callback fadeOutTick exec bind getAlpha gets snd].
  cbn [context]. rewrite Ha.
  destruct (Z.leb_spec alphaFloor a); [lia |].
  cbv [clearHeld clearInterval installInterval setInterval bind gets modify
       fst snd
       images globalImageWidth globalImageHeight interval imageCounter context
       controls captions drawingFunction timers nextHandle liveHighWater console
       withInterval withImageCounter withContext withControls withCaptions
       withDrawingFunction withTimers withConsole fading].
  cbn [filter handle negb]. rewrite Z.eqb_refl. cbn [negb].
  repeat split; assumption.
Qed.

Lemma fadeIn_done_tick hd nh a ic alphas s :
  fading (FadeIn w h) hd nh a ic alphas s0 s -> alphaFull <= a ->
  faded nh a ic alphas s0 (tick s).
Proof.
  unfold faded. remember (controls s0) as c0 eqn:Ec0.
  intros (Ht & Hi & Hnh & Ha & Hic & Him & Hc & Hp) Hge.
  rewrite (tick_invoke s _ Ht) by (symmetry; exact Hi).
  destruct s as [imgs gw gh iv ic1 ctx ctl cap df tm nhd hw con].
  cbn [timers interval nextHandle context imageCounter images controls] in *.
  rewrite <- Ec0 in Hc. subst tm iv nhd ctl.
  cbv [invoke callback fadeInTick exec bind getAlpha gets snd].
  cbn [context]. rewrite Ha.
  destruct (Z.ltb_spec a alphaFull); [lia |].
  cbv [clearHeld clearInterval bind gets modify fst snd
       images globalImageWidth globalImageHeight interval imageCounter context
       controls captions drawingFunction timers nextHandle liveHighWater console
       withInterval withImageCounter withContext withControls withCaptions
       withDrawingFunction withTimers withConsole faded].
  cbn [filter handle negb]. rewrite Z.eqb_refl. cbn [negb].
  destruct (isPlaying c0);
    cbv [when ret resumeSlideShow clearHeld clearInterval installInterval
         setInterval bind gets modify fst snd
         images globalImageWidth globalImageHeight interval imageCounter context
         controls captions drawingFunction timers nextHandle liveHighWater console
         withInterval withImageCounter withContext withControls withCaptions
         withDrawingFunction withTimers withConsole];
    cbn [filter]; repeat split; assumption.
Qed.
End FadeTicks.

Lemma ticks_add (j k : nat) : forall s, ticks (j + k) s = ticks k (ticks j s).
Proof.
  induction j as [| j IH]; intros s; [reflexivity |].
  cbn [Nat.add ticks]. apply IH.
Qed.

Lemma shown_app (v : bool) (l1 l2 : list Z) :
  shown v l1 ++ shown v l2 = shown v (l1 ++ l2).
Proof. destruct v; reflexivity. Qed.

Lemma ramp_In (delta : Z) (k : nat) :
  forall a0 x, In x (ramp a0 delta k) ->
  exists j, (j < k)%nat /\ x = a0 + delta * Z.of_nat j.
Proof.
  induction k as [| k IH]; intros a0 x Hin; [destruct Hin |].
  destruct Hin as [<- | Hin].
  - exists O. split; lia.
  - destruct (IH _ _ Hin) as (j & Hj & ->). exists (S j). split; lia.
Qed.

Lemma ramp_falling (a : Z) (k : nat) :
  StronglySorted Z.ge (ramp a (- fadeStep) k).
Proof.
  revert a. induction k as [| k IH]; intros a; cbn [ramp]; constructor.
  - apply IH.
  - apply Forall_forall. intros x Hin.
    destruct (ramp_In (- fadeStep) k _ _ Hin) as (j & _ & ->).
    unfold fadeStep. lia.
Qed.

Lemma ramp_rising (a : Z) (k : nat) :
  StronglySorted Z.le (ramp a fadeStep k).
Proof.
  revert a. induction k as [| k IH]; intros a; cbn [ramp]; constructor.
  - apply IH.
  - apply Forall_forall. intros x Hin.
    destruct (ramp_In fadeStep k _ _ Hin) as (j & _ & ->).
    unfold fadeStep. lia.
Qed.

Lemma shown_sorted (R : Z -> Z -> Prop) (v : bool) (l : list Z) :
  StronglySorted R l -> StronglySorted R (shown v l).
Proof. destruct v; [auto | constructor]. Qed.

Lemma shown_Forall (P : Z -> Prop) (v : bool) (l : list Z) :
  Forall P l -> Forall P (shown v l).
Proof. destruct v; [auto | constructor]. Qed.

Section FadeRuns.
Variables (n : Z) (w h : Q) (s0 : Slideshow).

Lemma fadeOut_run hd nh ic (k : nat) :
  forall a alphas s,
  fading (FadeOut n w h) hd nh a ic alphas s0 s ->
  alphaFloor <= a - fadeStep * (Z.of_nat k - 1) ->
  fading (FadeOut n w h) hd nh (a - fadeStep * Z.of_nat k) ic
    (alphas ++ shown (visible (images s0) ic) (ramp a (- fadeStep) k))
    s0 (ticks k s).
Proof.
  induction k as [| k IH]; intros a alphas s Hf Hge.
  - cbn [ticks ramp]. replace (a - fadeStep * Z.of_nat 0) with a by lia.
    destruct (visible (images s0) ic); cbn [shown]; rewrite app_nil_r; exact Hf.
  - cbn [ticks ramp].
    assert (Ha : alphaFloor <= a) by (unfold fadeStep in *; lia).
    pose proof (fadeOut_draw_tick n w h s0 hd nh a ic alphas s Hf Ha) as Hf1.
    apply IH in Hf1; [| unfold fadeStep in *; lia].
    replace (a - fadeStep - fadeStep * Z.of_nat k)
      with (a - fadeStep * Z.of_nat (S k)) in Hf1 by lia.
    rewrite <- app_assoc, shown_app in Hf1. exact Hf1.
Qed.

Lemma fadeIn_run hd nh ic (k : nat) :
  forall a alphas s,
  fading (FadeIn w h) hd nh a ic alphas s0 s ->
  a + fadeStep * (Z.of_nat k - 1) < alphaFull ->
  fading (FadeIn w h) hd nh (a + fadeStep * Z.of_nat k) ic
    (alphas ++ shown (visible (images s0) ic) (ramp a fadeStep k))
    s0 (ticks k s).
Proof.
  induction k as [| k IH]; intros a alphas s Hf Hlt.
  - cbn [ticks ramp]. replace (a + fadeStep * Z.of_nat 0) with a by lia.
    destruct (visible (images s0) ic); cbn [shown]; rewrite app_nil_r; exact Hf.
  - cbn [ticks ramp].
    assert (Ha : a < alphaFull) by (unfold fadeStep in *; lia).
    pose proof (fadeIn_draw_tick w h s0 hd nh a ic alphas s Hf Ha) as Hf1.
    apply IH in Hf1; [| unfold fadeStep in *; lia].
    replace (a + fadeStep + fadeStep * Z.of_nat k)
      with (a + fadeStep * Z.of_nat (S k)) in Hf1 by lia.
    rewrite <- app_assoc, shown_app in Hf1. exact Hf1.
Qed.
End FadeRuns.

Lemma fadeTransition_starts (s : Slideshow) (n : Z) (w h : Q) :
  singleTimer s ->
  fading (FadeOut n (extentOr w (globalImageWidth s))
                    (extentOr h (globalImageHeight s)))
    (nextHandle s) (nextHandle s + 1) (globalAlpha (current (context s)))
    (imageCounter s) [] s (exec (fadeTransition n w h) s).
Proof.
  intros [_ Ht].
  destruct s as [imgs gw gh iv ic ctx ctl cap df tm nh hw con].
  cbn [timers interval] in Ht.
  destruct Ht as [-> | (t & -> & Hh)];
    cbv [exec fadeTransition clearHeld clearInterval installInterval
         setInterval bind gets modify fst snd fading
         images globalImageWidth globalImageHeight interval imageCounter context
         controls captions drawingFunction timers nextHandle liveHighWater console
         withInterval withImageCounter withContext withControls withCaptions
         withDrawingFunction withTimers withConsole];
    cbn [filter negb]; try (rewrite Hh, Z.eqb_refl); cbn [negb];
    rewrite app_nil_r; repeat split.
Qed.

(** C6.  A fade transition started at an opacity of [1 - j0 * fadeStep]
    (every opacity the slideshow reaches has this form) redraws the
    current image at opacities falling by [fadeStep] down to 0.104, then
    switches to the target index and redraws the target at opacities
    rising by [fadeStep] from 0.096 up to 0.992; the tick after that
    finds full opacity and cancels the interval.  The painted opacities
    are non-increasing during the fade-out and non-decreasing during the
    fade-in, none is below 0.096, and at completion the current index is
    the target. *)
Theorem fade_transition_runs (s : Slideshow) (n : Z) (w h : Q) (j0 : nat) :
  singleTimer s -> (j0 <= fadeSpan)%nat ->
  globalAlpha (current (context s)) = alphaFull - fadeStep * Z.of_nat j0 ->
  let a := globalAlpha (current (context s)) in
  let imgWidth := extentOr w (globalImageWidth s) in
  let imgHeight := extentOr h (globalImageHeight s) in
  let nOut := (fadeSpan - j0)%nat in
  let vOut := visible (images s) (imageCounter s) in
  let vIn := visible (images s) n in
  let outs := shown vOut (ramp a (- fadeStep) nOut) in
  let ins := shown vIn (ramp alphaLowest fadeStep fadeSpan) in
  let hd := nextHandle s in
  let s1 := exec (fadeTransition n w h) s in
  let done := ticks (nOut + 1 + fadeSpan + 1) s1 in
  (forall k, (k <= nOut)%nat ->
     fading (FadeOut n imgWidth imgHeight) hd (hd + 1)
       (a - fadeStep * Z.of_nat k) (imageCounter s)
       (shown vOut (ramp a (- fadeStep) k)) s (ticks k s1)) /\
  (forall k, (k <= fadeSpan)%nat ->
     fading (FadeIn imgWidth imgHeight) (hd + 1) (hd + 2)
       (alphaLowest + fadeStep * Z.of_nat k) n
       (outs ++ shown vIn (ramp alphaLowest fadeStep k)) s
       (ticks (nOut + 1 + k) s1)) /\
  imageCounter done = n /\
  globalAlpha (current (context done)) = alphaFull /\
  timers done = (if isPlaying (controls s)
                 then [mkTimer (hd + 2) playSpeed Autoplay] else []) /\
  paintedAlphas (painted (context done)) =
    paintedAlphas (painted (context s)) ++ outs ++ ins /\
  StronglySorted Z.ge outs /\ StronglySorted Z.le ins /\
  Forall (fun x => alphaLowest <= x) (outs ++ ins).
Proof.
  intros Hs Hj Ha a imgWidth imgHeight nOut vOut vIn outs ins hd s1 done.
  pose proof (fadeTransition_starts s n w h Hs) as Hstart.
  fold a imgWidth imgHeight hd s1 in Hstart.
  assert (Hout : forall k, (k <= nOut)%nat ->
            fading (FadeOut n imgWidth imgHeight) hd (hd + 1)
              (a - fadeStep * Z.of_nat k) (imageCounter s)
              (shown vOut (ramp a (- fadeStep) k)) s (ticks k s1)).
  { intros k Hk.
    apply (fadeOut_run n imgWidth imgHeight s hd (hd + 1) (imageCounter s) k
             a [] s1 Hstart).
    unfold a, nOut, fadeSpan, alphaFloor, alphaFull, fadeStep in *. lia. }
  assert (Hlow : a - fadeStep * Z.of_nat nOut = alphaLowest).
  { unfold a, nOut, fadeSpan, alphaLowest, alphaFull, fadeStep in *. lia. }
  assert (Hswitch : fading (FadeIn imgWidth imgHeight) (hd + 1) (hd + 2)
                      alphaLowest n outs s (ticks (nOut + 1) s1)).
  { rewrite ticks_add. cbn [ticks].
    replace (hd + 2) with (hd + 1 + 1) by lia.
    apply (fadeOut_switch_tick n imgWidth imgHeight s hd (hd + 1) alphaLowest
             (imageCounter s)).
    - rewrite <- Hlow. apply Hout. apply Nat.le_refl.
    - unfold alphaLowest, alphaFloor. lia. }
  assert (Hin : forall k, (k <= fadeSpan)%nat ->
            fading (FadeIn imgWidth imgHeight) (hd + 1) (hd + 2)
              (alphaLowest + fadeStep * Z.of_nat k) n
              (outs ++ shown vIn (ramp alphaLowest fadeStep k)) s
              (ticks (nOut + 1 + k) s1)).
  { intros k Hk. rewrite ticks_add.
    apply (fadeIn_run imgWidth imgHeight s (hd + 1) (hd + 2) n k
             alphaLowest outs _ Hswitch).
    unfold fadeSpan, alphaLowest, alphaFull, fadeStep in *. lia. }
  assert (Hdone : faded (hd + 2) alphaFull n (outs ++ ins) s done).
  { unfold done. rewrite ticks_add. cbn [ticks].
    apply (fadeIn_done_tick imgWidth imgHeight s (hd + 1)); [| lia].
    replace alphaFull with (alphaLowest + fadeStep * Z.of_nat fadeSpan) at 1
      by reflexivity.
    apply Hin. apply Nat.le_refl. }
  destruct Hdone as (Ht & Hal & Hic & Hp).
  split; [exact Hout |]. split; [exact Hin |].
  split; [exact Hic |]. split; [exact Hal |]. split; [exact Ht |].
  split; [exact Hp |].
  split; [apply shown_sorted, ramp_falling |].
  split; [apply shown_sorted, ramp_rising |].
  apply Forall_app. split; apply shown_Forall, Forall_forall; intros x Hin1.
  - destruct (ramp_In (- fadeStep) nOut _ _ Hin1) as (j & Hjn & ->).
    unfold a, nOut, fadeSpan, alphaLowest, alphaFull, fadeStep in *. lia.
  - destruct (ramp_In fadeStep fadeSpan _ _ Hin1) as (j & Hjn & ->).
    unfold fadeSpan, alphaLowest, fadeStep in *. lia.
Qed.

(** ** Every opacity reached is on the grid *)

Lemma leaves_option {A B} (P R : Slideshow -> Prop) (o : option A)
  (f : A -> M B) (d : M B) :
  (forall x, leaves P (f x) R) -> leaves P d R ->
  leaves P (match o with Some x => f x | None => d end) R.
Proof. destruct o; auto. Qed.

Lemma grid_modify (f : Slideshow -> Slideshow) :
  (forall s, globalAlpha (current (context (f s))) =
             globalAlpha (current (context s)) /\
             map globalAlpha (saved (context (f s))) =
             map globalAlpha (saved (context s))) ->
  leaves alphaGrid (modify f) alphaGrid.
Proof.
  intros Hf. apply leaves_modify. intros s [Hc Hs].
  destruct (Hf s) as [E1 E2]. split; [rewrite E1; exact Hc |].
  rewrite Forall_forall in *. intros d Hd.
  apply (in_map globalAlpha) in Hd. rewrite E2 in Hd.
  apply in_map_iff in Hd. destruct Hd as (d0 & <- & Hd0). apply Hs, Hd0.
Qed.

Ltac grid_prim := apply grid_modify; intros s; split; reflexivity.

Lemma grid_save : leaves alphaGrid save alphaGrid.
Proof.
  apply leaves_modify. intros s [Hc Hs]. split; [exact Hc |].
  constructor; assumption.
Qed.

Lemma grid_restore : leaves alphaGrid restore alphaGrid.
Proof.
  apply leaves_modify. intros s [Hc Hs].
  unfold alphaGrid. cbn [context withContext]. unfold ctxRestore.
  destruct (saved (context s)) as [| d rest] eqn:E; cbn [current saved].
  - split; [exact Hc | constructor].
  - inversion Hs; subst. split; assumption.
Qed.

Lemma grid_setInterval cb ms : leaves alphaGrid (setInterval cb ms) alphaGrid.
Proof. intros s Hs. exact Hs. Qed.

Lemma grid_clearInterval hd : leaves alphaGrid (clearInterval hd) alphaGrid.
Proof. grid_prim. Qed.
Lemma grid_translate dx dy : leaves alphaGrid (translate dx dy) alphaGrid.
Proof. grid_prim. Qed.
Lemma grid_clearRect x y w h : leaves alphaGrid (clearRect x y w h) alphaGrid.
Proof. grid_prim. Qed.
Lemma grid_consoleLog l : leaves alphaGrid (consoleLog l) alphaGrid.
Proof. grid_prim. Qed.
Lemma grid_setOffset self off : leaves alphaGrid (setOffset self off) alphaGrid.
Proof. grid_prim. Qed.
Lemma grid_withInterval v : leaves alphaGrid (modify (withInterval v)) alphaGrid.
Proof. grid_prim. Qed.
Lemma grid_withImageCounter v :
  leaves alphaGrid (modify (withImageCounter v)) alphaGrid.
Proof. grid_prim. Qed.
Lemma grid_withCaptions v : leaves alphaGrid (modify (withCaptions v)) alphaGrid.
Proof. grid_prim. Qed.
Lemma grid_withControls v : leaves alphaGrid (modify (withControls v)) alphaGrid.
Proof. grid_prim. Qed.
Lemma grid_withDrawingFunction v :
  leaves alphaGrid (modify (withDrawingFunction v)) alphaGrid.
Proof. grid_prim. Qed.

Lemma grid_onControls {A} (f : ControlsManager -> A * ControlsManager) :
  leaves alphaGrid (onControls f) alphaGrid.
Proof. intros s Hs. exact Hs. Qed.

Lemma grid_drawImage img x y w h :
  leaves alphaGrid (drawImage img x y w h) alphaGrid.
Proof.
  unfold drawImage. destruct img as [i |]; [| apply leaves_throw].
  destruct (drawable i); [grid_prim | apply leaves_throw].
Qed.

Lemma grid_member {A} (f : Image -> A) img :
  leaves alphaGrid (member f img) alphaGrid.
Proof. destruct img; [apply leaves_ret | apply leaves_throw]. Qed.

Lemma grid_tryCatch {A} (body : M A) (handler : Exn -> M A) :
  leaves alphaGrid body alphaGrid ->
  (forall e, leaves alphaGrid (handler e) alphaGrid) ->
  leaves alphaGrid (tryCatch body handler) alphaGrid.
Proof. intros Hb Hh. apply (leaves_tryCatch _ alphaGrid); auto. Qed.

Create HintDb grid.
#[local] Hint Resolve leaves_ret leaves_throw leaves_gets leaves_seq
  leaves_when leaves_if leaves_option grid_tryCatch grid_save grid_restore
  grid_setInterval grid_clearInterval grid_translate grid_clearRect
  grid_consoleLog grid_setOffset grid_withInterval grid_withImageCounter
  grid_withCaptions grid_withControls grid_withDrawingFunction
  grid_onControls grid_drawImage grid_member : grid.

Lemma grid_drawSlide w h slide : leaves alphaGrid (drawSlide w h slide) alphaGrid.
Proof. unfold drawSlide, imageAt. auto 30 with grid. Qed.
#[local] Hint Resolve grid_drawSlide : grid.

Lemma grid_clearHeld : leaves alphaGrid clearHeld alphaGrid.
Proof. unfold clearHeld. auto with grid. Qed.
Lemma grid_installInterval cb ms :
  leaves alphaGrid (installInterval cb ms) alphaGrid.
Proof. unfold installInterval. auto with grid. Qed.
#[local] Hint Resolve grid_clearHeld grid_installInterval : grid.

Lemma grid_resumeSlideShow : leaves alphaGrid resumeSlideShow alphaGrid.
Proof. unfold resumeSlideShow. auto with grid. Qed.
#[local] Hint Resolve grid_resumeSlideShow : grid.

Lemma grid_callDrawingFunction slide :
  leaves alphaGrid (callDrawingFunction slide) alphaGrid.
Proof.
  unfold callDrawingFunction.
  apply leaves_seq; [apply leaves_gets | intros f].
  destruct f; unfold fadeTransition, horizontalTransition, verticalTransition;
    auto 30 with grid.
Qed.
#[local] Hint Resolve grid_callDrawingFunction : grid.

Lemma grid_draws r :
  leaves alphaGrid drawNextSlide alphaGrid /\
  leaves alphaGrid drawPreviousSlide alphaGrid /\
  leaves alphaGrid (drawRandomSlide r) alphaGrid /\
  leaves alphaGrid stopForManualAdvance alphaGrid.
Proof.
  unfold drawNextSlide, drawPreviousSlide, drawRandomSlide,
    stopForManualAdvance.
  split; [| split; [| split]]; auto 30 with grid.
Qed.

Lemma grid_slideTicks self n w h f off :
  leaves alphaGrid (horizontalTick self n w h f off) alphaGrid /\
  leaves alphaGrid (verticalTick self n w h f off) alphaGrid.
Proof.
  unfold horizontalTick, verticalTick, finishSlide, imageAt.
  split; destruct f; auto 40 with grid.
Qed.

Lemma onGrid_down (a : Z) : onGrid a -> alphaFloor <= a -> onGrid (a + - fadeStep).
Proof.
  intros (j & Hj & ->) Ha. exists (S j).
  unfold fadeSpan, alphaFloor, alphaFull, fadeStep in *. split; lia.
Qed.

Lemma onGrid_up (a : Z) : onGrid a -> a < alphaFull -> onGrid (a + fadeStep).
Proof.
  intros (j & Hj & ->) Ha. destruct j as [| j].
  - unfold alphaFull, fadeStep in *. lia.
  - exists j. unfold fadeSpan, alphaFull, fadeStep in *. split; lia.
Qed.

Lemma grid_setAlpha (a : Z) (s : Slideshow) :
  alphaGrid s -> onGrid a -> alphaGrid (exec (setAlpha a) s).
Proof. intros [_ Hs] Ha. split; [exact Ha | exact Hs]. Qed.

Lemma grid_fadeOutTick n w h : leaves alphaGrid (fadeOutTick n w h) alphaGrid.
Proof.
  intros s Hs.
  destruct (Z.leb_spec alphaFloor (globalAlpha (current (context s)))) as [Hge | Hlt].
  - rewrite fadeOutTick_draws by exact Hge.
    apply grid_setAlpha; [apply grid_drawSlide, Hs |].
    apply onGrid_down; [apply Hs | exact Hge].
  - revert s Hs Hlt.
    assert (H : leaves alphaGrid
                  (clearHeld ;; modify (withImageCounter n) ;;
                   installInterval (FadeIn w h) animationSpeed) alphaGrid)
      by auto 10 with grid.
    intros s Hs Hlt. specialize (H s Hs).
    unfold exec, fadeOutTick, bind at 1, getAlpha, gets.
    destruct (Z.leb_spec alphaFloor (globalAlpha (current (context s))));
      [lia | exact H].
Qed.

Lemma grid_fadeInTick w h : leaves alphaGrid (fadeInTick w h) alphaGrid.
Proof.
  intros s Hs.
  destruct (Z.ltb_spec (globalAlpha (current (context s))) alphaFull) as [Hlt | Hge].
  - rewrite fadeInTick_draws by exact Hlt.
    apply grid_setAlpha; [apply grid_drawSlide, Hs |].
    apply onGrid_up; [apply Hs | exact Hlt].
  - assert (H : leaves alphaGrid
                  (clearHeld ;;
                   playing <- gets (fun s => isPlaying (controls s)) ;;
                   when playing resumeSlideShow) alphaGrid)
      by auto 10 with grid.
    specialize (H s Hs).
    unfold exec, fadeInTick, bind at 1, getAlpha, gets.
    destruct (Z.ltb_spec (globalAlpha (current (context s))) alphaFull);
      [lia | exact H].
Qed.

Lemma grid_handler e : leaves alphaGrid (handler e) alphaGrid.
Proof.
  destruct e; cbn [handler].
  - apply leaves_seq; [apply leaves_gets | intros [t |]]; [| apply leaves_ret].
    unfold invoke. destruct (callback t).
    + unfold autoplayTick.
      pose proof (grid_draws random) as (H1 & H2 & H3 & _). auto 10 with grid.
    + unfold randomTick.
      pose proof (grid_draws random) as (H1 & H2 & H3 & _). auto 10 with grid.
    + apply grid_fadeOutTick.
    + apply grid_fadeInTick.
    + apply grid_slideTicks.
    + apply grid_slideTicks.
  - unfold playCallback. auto 10 with grid.
  - unfold directionCallback. auto 10 with grid.
  - unfold randomCallback. auto 10 with grid.
  - unfold nextCallback.
    pose proof (grid_draws 0) as (H1 & H2 & _ & H4). auto 10 with grid.
  - unfold previousCallback.
    pose proof (grid_draws 0) as (H1 & H2 & _ & H4). auto 10 with grid.
  - unfold effectCallback. auto 20 with grid.
  - unfold keydown.
    pose proof (grid_draws 0) as (H1 & H2 & _ & H4). auto 10 with grid.
  - unfold touchend.
    pose proof (grid_draws 0) as (H1 & H2 & _ & H4). auto 10 with grid.
Qed.

Lemma reachable_alphaGrid imgs w h s : reachable imgs w h s -> alphaGrid s.
Proof.
  induction 1 as [| e s _ IH].
  - assert (H : leaves alphaGrid start alphaGrid).
    { unfold start. pose proof (grid_draws 0) as (H1 & _). auto 20 with grid. }
    apply H. split; [exists O; split; [lia | reflexivity] | constructor].
  - apply grid_handler, IH.
Qed.

(** Every reachable state meets the hypotheses under which the fade
    transition is described. *)
Lemma reachable_fade_ready imgs w h s :
  reachable imgs w h s ->
  singleTimer s /\
  exists j0, (j0 <= fadeSpan)%nat /\
    globalAlpha (current (context s)) = alphaFull - fadeStep * Z.of_nat j0.
Proof.
  intros Hr. split; [exact (reachable_singleTimer imgs w h s Hr) |].
  apply (reachable_alphaGrid imgs w h s Hr).
Qed.

(** ** The example states meet the hypotheses *)

Lemma demo_singleTimer : singleTimer demo.
Proof.
  split; [vm_compute; lia |].
  right. exists (mkTimer 1 playSpeed Autoplay). split; vm_compute; reflexivity.
Qed.

Lemma demo_first :
  imageOf (images demo) (imageCounter demo)
  = Some (mkImage "a.jpg" "first" true).
Proof. vm_compute. reflexivity. Qed.

Lemma demo_second :
  imageOf (images demo) 1 = Some (mkImage "b.jpg" "second" true).
Proof. vm_compute. reflexivity. Qed.

Lemma demo_extent (a : Axis) :
  (0 <= extent a (extentOr (-1) (globalImageWidth demo))
                 (extentOr (-1) (globalImageHeight demo)))%Q.
Proof. destruct a; vm_compute; discriminate. Qed.

Lemma fade_transition_runs_witness :
  let s1 := exec (fadeTransition 1 (-1) (-1)) demo in
  imageCounter (ticks (fadeSpan - 0 + 1 + fadeSpan + 1) s1) = 1 /\
  globalAlpha (current (context (ticks (fadeSpan - 0 + 1 + fadeSpan + 1) s1)))
  = alphaFull.
Proof.
  assert (Ha : globalAlpha (current (context demo))
               = alphaFull - fadeStep * Z.of_nat 0)
    by (vm_compute; reflexivity).
  pose proof (fade_transition_runs demo 1 (-1) (-1) 0 demo_singleTimer
                (Nat.le_0_l fadeSpan) Ha) as H.
  cbv zeta in H. destruct H as (_ & _ & Hic & Hal & _).
  split; [exact Hic | exact Hal].
Defined.

Lemma slide_transition_runs_witness :
  let ext := extent Vertical (extentOr (-1) (globalImageWidth demo))
                             (extentOr (-1) (globalImageHeight demo)) in
  let s1 := exec (slideTransition Vertical 1 (-1) (-1)) demo in
  liveTimer (interval s1) (ticks (slideTicks ext) s1) = None /\
  imageCounter (ticks (slideTicks ext) s1) = 1.
Proof.
  pose proof (slide_transition_runs Vertical demo 1 (-1) (-1) _ _
                demo_singleTimer demo_first eq_refl demo_second eq_refl
                (demo_extent Vertical)) as H.
  cbv zeta in H. destruct H as (_ & Hl & Hic & _).
  split; [exact Hl | exact Hic].
Defined.

Lemma slide_saves_once_more_witness :
  let ext := extent Horizontal (extentOr (-1) (globalImageWidth demo))
                               (extentOr (-1) (globalImageHeight demo)) in
  let s1 := exec (slideTransition Horizontal 1 (-1) (-1)) demo in
  saved (context (ticks (slideTicks ext) s1))
  = current (context demo) :: saved (context demo).
Proof.
  pose proof (slide_saves_once_more Horizontal demo 1 (-1) (-1) _ _
                demo_singleTimer demo_first eq_refl demo_second eq_refl
                (demo_extent Horizontal)) as H.
  cbv zeta in H. destruct H as (Hk & _).
  apply (Hk (slideTicks _) (Nat.le_refl _)).
Defined.


(** * Further properties *)

(** ** Control state *)

Lemma toggle_coherent (c : ControlElement) :
  coherent c -> coherent (snd (toggle c)).
Proof. destruct c as [[|] [|]]; unfold coherent; cbn; auto. Qed.

Lemma toggleEnabled_coherent (c : ControlElement) :
  coherent (snd (toggleEnabled c)).
Proof. destruct c as [[|] [|]]; unfold coherent; cbn; auto. Qed.

Lemma togglePlay_invariant (m : ControlsManager) :
  controlsInvariant m -> controlsInvariant (snd (togglePlay m)).
Proof.
  destruct m as [[pe ps] [de ds] [re rs] nb pb es fs].
  unfold controlsInvariant, coherent, isPlaying, getState. cbn.
  intros (Hp & Hd & Hr & Hn & Hpv & He & Hf & Epe & Ees & Efs & Ere).
  subst pe. destruct ps, de, ds, re, rs; cbn in *; repeat split; intros;
    auto; try congruence.
Qed.

Lemma toggleDirection_invariant (m : ControlsManager) :
  controlsInvariant m -> controlsInvariant (snd (toggleDirection m)).
Proof.
  destruct m as [[pe ps] [de ds] [re rs] nb pb es fs].
  unfold controlsInvariant, coherent, isPlaying, getState. cbn.
  intros (Hp & Hd & Hr & Hn & Hpv & He & Hf & Epe & Ees & Efs & Ere).
  destruct de, ds; cbn in *; repeat split; intros; auto; try congruence.
Qed.

Lemma toggleRandom_invariant (m : ControlsManager) :
  controlsInvariant m -> controlsInvariant (snd (toggleRandom m)).
Proof.
  destruct m as [[pe ps] [de ds] [re rs] [ne ns] [ve vs] es fs].
  unfold controlsInvariant, coherent, isPlaying, getState. cbn.
  intros (Hp & Hd & Hr & Hn & Hpv & He & Hf & Epe & Ees & Efs & Ere).
  destruct re, rs, de, ds, ne, ns, ve, vs; cbn in *; repeat split; intros;
    auto; try congruence.
Qed.

Section ControlsKept.
Variable Q : ControlsManager -> Prop.
Hypothesis Q_togglePlay : forall m, Q m -> Q (snd (togglePlay m)).
Hypothesis Q_toggleDirection : forall m, Q m -> Q (snd (toggleDirection m)).
Hypothesis Q_toggleRandom : forall m, Q m -> Q (snd (toggleRandom m)).

Lemma kept_modify (f : Slideshow -> Slideshow) :
  (forall s, controls (f s) = controls s) ->
  leaves (ofControls Q) (modify f) (ofControls Q).
Proof.
  intros Hf. apply leaves_modify. intros s Hs. unfold ofControls.
  rewrite Hf. exact Hs.
Qed.

Lemma kept_setInterval cb ms :
  leaves (ofControls Q) (setInterval cb ms) (ofControls Q).
Proof. intros s Hs. exact Hs. Qed.

Lemma kept_drawImage img x y w h :
  leaves (ofControls Q) (drawImage img x y w h) (ofControls Q).
Proof.
  unfold drawImage. destruct img as [i |]; [| apply leaves_throw].
  destruct (drawable i); [| apply leaves_throw].
  apply kept_modify. reflexivity.
Qed.

Lemma kept_member {A} (f : Image -> A) img :
  leaves (ofControls Q) (member f img) (ofControls Q).
Proof. destruct img; [apply leaves_ret | apply leaves_throw]. Qed.

Lemma kept_tryCatch {A} (body : M A) (handler : Exn -> M A) :
  leaves (ofControls Q) body (ofControls Q) ->
  (forall e, leaves (ofControls Q) (handler e) (ofControls Q)) ->
  leaves (ofControls Q) (tryCatch body handler) (ofControls Q).
Proof. intros Hb Hh. apply (leaves_tryCatch _ (ofControls Q)); auto. Qed.

Lemma kept_togglePlay :
  leaves (ofControls Q) (onControls togglePlay) (ofControls Q).
Proof. intros s Hs. apply Q_togglePlay, Hs. Qed.

Lemma kept_toggleDirection :
  leaves (ofControls Q) (onControls toggleDirection) (ofControls Q).
Proof. intros s Hs. apply Q_toggleDirection, Hs. Qed.

Lemma kept_toggleRandom :
  leaves (ofControls Q) (onControls toggleRandom) (ofControls Q).
Proof. intros s Hs. apply Q_toggleRandom, Hs. Qed.

Lemma kept_primitives :
  leaves (ofControls Q) save (ofControls Q) /\
  leaves (ofControls Q) restore (ofControls Q) /\
  (forall dx dy, leaves (ofControls Q) (translate dx dy) (ofControls Q)) /\
  (forall x y w h, leaves (ofControls Q) (clearRect x y w h) (ofControls Q)) /\
  (forall a, leaves (ofControls Q) (setAlpha a) (ofControls Q)) /\
  (forall l, leaves (ofControls Q) (consoleLog l) (ofControls Q)) /\
  (forall hd, leaves (ofControls Q) (clearInterval hd) (ofControls Q)) /\
  (forall self off,
     leaves (ofControls Q) (setOffset self off) (ofControls Q)) /\
  (forall v, leaves (ofControls Q) (modify (withInterval v)) (ofControls Q)) /\
  (forall v,
     leaves (ofControls Q) (modify (withImageCounter v)) (ofControls Q)) /\
  (forall v, leaves (ofControls Q) (modify (withCaptions v)) (ofControls Q)) /\
  (forall v,
     leaves (ofControls Q) (modify (withDrawingFunction v)) (ofControls Q)).
Proof. repeat split; intros; apply kept_modify; reflexivity. Qed.

Lemma kept_handler (e : Event) :
  leaves (ofControls Q) (handler e) (ofControls Q).
Proof.
  destruct kept_primitives
    as (P1 & P2 & P3 & P4 & P5 & P6 & P7 & P8 & P9 & P10 & P11 & P12).
  pose proof kept_setInterval as P13. pose proof kept_drawImage as P14.
  pose proof (@kept_member string) as P15.
  pose proof kept_togglePlay as P16. pose proof kept_toggleDirection as P17.
  pose proof kept_toggleRandom as P18.
  pose proof (@kept_tryCatch unit) as P19.
  assert (Hslide : forall w h i,
            leaves (ofControls Q) (drawSlide w h i) (ofControls Q)).
  { intros. unfold drawSlide, imageAt.
    auto 30 using leaves_ret, leaves_gets, leaves_seq. }
  assert (Hclear : leaves (ofControls Q) clearHeld (ofControls Q)).
  { unfold clearHeld. auto using leaves_gets, leaves_seq. }
  assert (Hinst : forall cb ms,
            leaves (ofControls Q) (installInterval cb ms) (ofControls Q)).
  { intros. unfold installInterval. auto using leaves_seq. }
  assert (Hres : leaves (ofControls Q) resumeSlideShow (ofControls Q)).
  { unfold resumeSlideShow. auto using leaves_seq. }
  assert (Hcall : forall i,
            leaves (ofControls Q) (callDrawingFunction i) (ofControls Q)).
  { intros i. unfold callDrawingFunction.
    apply leaves_seq; [apply leaves_gets | intros f].
    destruct f;
      unfold fadeTransition, horizontalTransition, verticalTransition;
      auto 30 using leaves_ret, leaves_gets, leaves_seq. }
  assert (Hnext : leaves (ofControls Q) drawNextSlide (ofControls Q)).
  { unfold drawNextSlide. auto 10 using leaves_gets, leaves_seq. }
  assert (Hprev : leaves (ofControls Q) drawPreviousSlide (ofControls Q)).
  { unfold drawPreviousSlide. auto 10 using leaves_gets, leaves_seq. }
  assert (Hrnd : forall r,
            leaves (ofControls Q) (drawRandomSlide r) (ofControls Q)).
  { intros r. unfold drawRandomSlide. auto 10 using leaves_gets, leaves_seq. }
  assert (Hstop : leaves (ofControls Q) stopForManualAdvance (ofControls Q)).
  { unfold stopForManualAdvance.
    auto 10 using leaves_ret, leaves_gets, leaves_seq, leaves_when. }
  assert (Hfin : forall n,
            leaves (ofControls Q) (finishSlide n) (ofControls Q)).
  { intros n. unfold finishSlide, imageAt.
    auto 30 using leaves_ret, leaves_gets, leaves_seq, leaves_when. }
  destruct e; cbn [handler].
  - apply leaves_seq; [apply leaves_gets | intros [t |]]; [| apply leaves_ret].
    unfold invoke. destruct (callback t).
    + unfold autoplayTick.
      auto 10 using leaves_gets, leaves_seq, leaves_if.
    + unfold randomTick. auto using leaves_if.
    + unfold fadeOutTick, getAlpha.
      auto 20 using leaves_gets, leaves_seq, leaves_if.
    + unfold fadeInTick, getAlpha.
      auto 20 using leaves_gets, leaves_seq, leaves_if, leaves_when.
    + unfold horizontalTick, imageAt. destruct forward;
        auto 40 using leaves_gets, leaves_seq, leaves_when.
    + unfold verticalTick, imageAt. destruct forward;
        auto 40 using leaves_gets, leaves_seq, leaves_when.
  - unfold playCallback. auto 10 using leaves_seq, leaves_if.
  - unfold directionCallback. auto 10 using leaves_seq.
  - unfold randomCallback. auto 10 using leaves_seq.
  - unfold nextCallback. auto 10 using leaves_gets, leaves_seq, leaves_when.
  - unfold previousCallback.
    auto 10 using leaves_gets, leaves_seq, leaves_when.
  - unfold effectCallback. auto 20 using leaves_ret, leaves_seq, leaves_if.
  - unfold keydown. auto 10 using leaves_ret, leaves_seq, leaves_if.
  - unfold touchend. auto 10 using leaves_ret, leaves_seq, leaves_if.
Qed.
End ControlsKept.


Ltac run_fields :=
  cbv [exec bind tryCatch modify gets ret throw when fst snd
       clearHeld clearInterval installInterval setInterval resumeSlideShow
       imageAt clearRect consoleLog member save restore translate setAlpha
       getAlpha onControls rearmed
       images globalImageWidth globalImageHeight interval imageCounter context
       controls captions drawingFunction timers nextHandle liveHighWater console
       withInterval withImageCounter withContext withControls withCaptions
       withDrawingFunction withTimers withConsole].

(** What [drawSlide] leaves alone. *)
Lemma drawSlide_frame (w h : Q) (slide : Z) (s : Slideshow) :
  let s1 := exec (drawSlide w h slide) s in
  drawingFunction s1 = drawingFunction s /\
  globalImageWidth s1 = globalImageWidth s /\
  globalImageHeight s1 = globalImageHeight s /\
  liveHighWater s1 = liveHighWater s /\
  saved (context s1) = saved (context s) /\
  saveCalls (context s1) = saveCalls (context s) /\
  restoreCalls (context s1) = restoreCalls (context s).
Proof.
  destruct s as [imgs gw gh iv ic ctx ctl cap df tm nh hw con].
  unfold drawSlide. run_fields.
  destruct (imageOf imgs slide) as [img |]; cbv [drawImage].
  - destruct (drawable img); run_fields; repeat split.
  - run_fields. repeat split.
Qed.

Lemma resumeSlideShow_effect (s : Slideshow) :
  singleTimer s ->
  exec resumeSlideShow s =
  withTimers [mkTimer (nextHandle s) playSpeed Autoplay] (rearmed s).
Proof.
  intros [_ Ht].
  destruct s as [imgs gw gh iv ic ctx ctl cap df tm nh hw con].
  cbn [timers interval] in Ht.
  destruct Ht as [-> | (t & -> & Hh)]; run_fields;
    cbn [filter negb]; try (rewrite Hh, Z.eqb_refl); reflexivity.
Qed.

Lemma clearHeld_effect (s : Slideshow) :
  singleTimer s -> exec clearHeld s = withTimers [] s.
Proof.
  intros [_ Ht].
  destruct s as [imgs gw gh iv ic ctx ctl cap df tm nh hw con].
  cbn [timers interval] in Ht.
  destruct Ht as [-> | (t & -> & Hh)]; run_fields;
    cbn [filter negb]; try (rewrite Hh, Z.eqb_refl); reflexivity.
Qed.

Lemma callDrawingFunction_plain (i : Z) (s : Slideshow) :
  drawingFunction s = DrawPlain ->
  callDrawingFunction i s =
  drawSlide (globalImageWidth s) (globalImageHeight s) i s.
Proof.
  intros Hd. unfold callDrawingFunction, bind, gets. rewrite Hd. reflexivity.
Qed.

(** The state start-up leaves, field by field. *)
Lemma started_fields (imgs : list Image) (w h : Q) :
  let s := started imgs w h in
  controls s = snd (togglePlay freshControls) /\
  images s = imgs /\
  imageCounter s = nextIndex (Z.of_nat (List.length imgs)) (-1) /\
  timers s = [mkTimer 1 playSpeed Autoplay] /\ interval s = 1 /\
  drawingFunction s = DrawPlain /\
  globalImageWidth s = w /\ globalImageHeight s = h /\
  current (context s) = mkDrawingState (0, 0)%Q alphaFull /\
  saved (context s) = [].
Proof.
  set (s0 := withControls freshControls
               (withImageCounter (-1)
                  (withDrawingFunction DrawPlain (loaded imgs w h)))).
  set (i0 := nextIndex (Z.of_nat (List.length imgs)) (-1)).
  assert (E : started imgs w h =
              exec resumeSlideShow
                (withControls (snd (togglePlay freshControls))
                   (exec (drawSlide w h i0) s0))).
  { unfold started, start, exec at 1, bind, modify.
    cbn [fst snd]. fold s0.
    unfold drawNextSlide, bind, gets.
    rewrite (callDrawingFunction_plain _ s0) by reflexivity.
    change (imagesLength s0) with (Z.of_nat (List.length imgs)).
    change (imageCounter s0) with (-1).
    change (globalImageWidth s0) with w.
    change (globalImageHeight s0) with h.
    fold i0. rewrite drawSlide_returns. unfold onControls. cbn [fst snd].
    destruct (drawSlide_effect w h i0 s0) as (_ & _ & _ & _ & _ & Hc & _).
    cbv zeta in Hc. rewrite Hc. reflexivity. }
  destruct (drawSlide_effect w h i0 s0)
    as (Hic & Ht & Hi & Hnh & Him & Hc & Hcur & _).
  destruct (drawSlide_frame w h i0 s0)
    as (Hdf & Hgw & Hgh & Hhw & Hsv & _).
  cbv zeta in *.
  assert (Hs : singleTimer (withControls (snd (togglePlay freshControls))
                              (exec (drawSlide w h i0) s0))).
  { split; cbn [liveHighWater timers withControls].
    - rewrite Hhw. cbn. lia.
    - left. rewrite Ht. reflexivity. }
  rewrite E, resumeSlideShow_effect by exact Hs.
  cbn [controls images imageCounter timers interval drawingFunction
       globalImageWidth globalImageHeight context
       withTimers rearmed withControls nextHandle].
  rewrite Him, Hic, Hnh, Hdf, Hgw, Hgh, Hcur, Hsv. repeat split.
Qed.


Lemma reachable_controlsInvariant imgs w h s :
  reachable imgs w h s -> controlsInvariant (controls s).
Proof.
  induction 1 as [| e s _ IH].
  - destruct (started_fields imgs w h) as (Hc & _). cbv zeta in Hc.
    rewrite Hc. unfold controlsInvariant, coherent. cbn.
    repeat split; intros; congruence.
  - apply (kept_handler controlsInvariant togglePlay_invariant
             toggleDirection_invariant toggleRandom_invariant e s IH).
Qed.

(** X1. From start-up on, whatever the user does, a disabled control is
    never active, the play button is never disabled, and the random
    control is enabled exactly while the slideshow is playing. *)
Theorem disabled_controls_inactive imgs w h s :
  reachable imgs w h s ->
  (forall c, In c (buttons (controls s)) ->
             isEnabled c = false -> state c = false) /\
  isEnabled (playButton (controls s)) = true /\
  isEnabled (randomButton (controls s)) = isPlaying (controls s).
Proof.
  intros Hr.
  destruct (reachable_controlsInvariant imgs w h s Hr)
    as (H1 & H2 & H3 & H4 & H5 & H6 & H7 & Hp & _ & _ & Hrnd).
  split; [| split; [exact Hp | exact Hrnd]].
  intros c Hin. unfold buttons in Hin. cbn [In] in Hin.
  destruct Hin as [<- | [<- | [<- | [<- | [<- | [<- | [<- | []]]]]]]];
    assumption.
Qed.

Lemma disabled_controls_inactive_witness :
  (forall c, In c (buttons (controls resumedAfterRandom)) ->
             isEnabled c = false -> state c = false) /\
  isEnabled (playButton (controls resumedAfterRandom)) = true /\
  isEnabled (randomButton (controls resumedAfterRandom))
  = isPlaying (controls resumedAfterRandom).
Proof.
  apply (disabled_controls_inactive demoImages 640 360).
  unfold resumedAfterRandom. cbv [run fold_left].
  repeat apply reach_step. apply reach_started.
Defined.

(** X2. Random mode is never on while the slideshow is paused. *)
Theorem random_only_while_playing imgs w h s :
  reachable imgs w h s ->
  isRandom (controls s) = true -> isPlaying (controls s) = true.
Proof.
  intros Hr Hrnd.
  destruct (reachable_controlsInvariant imgs w h s Hr)
    as (_ & _ & H3 & _ & _ & _ & _ & _ & _ & _ & He).
  rewrite <- He. unfold coherent, isRandom, getState in *.
  destruct (isEnabled (randomButton (controls s))); [reflexivity |].
  rewrite H3 in Hrnd; [discriminate | reflexivity].
Qed.

Lemma random_only_while_playing_witness :
  isPlaying (controls randomOn) = true.
Proof.
  apply (random_only_while_playing demoImages 640 360).
  - unfold randomOn. apply reach_step, reach_started.
  - vm_compute. reflexivity.
Defined.

(** X3. Pausing forgets the modes: when [togglePlay] turns playing off,
    random and reversed are both forced off and their controls disabled
    (no control being active while disabled beforehand). *)
Theorem pause_forgets_modes (m : ControlsManager) :
  coherent (randomButton m) -> coherent (directionButton m) ->
  fst (togglePlay m) = false ->
  let m1 := snd (togglePlay m) in
  isPlaying m1 = false /\ isRandom m1 = false /\ isReversed m1 = false /\
  isEnabled (randomButton m1) = false /\
  isEnabled (directionButton m1) = false.
Proof.
  destruct m as [[pe ps] [de ds] [re rs] nb pb es fs].
  unfold coherent. cbn.
  destruct pe, ps, de, ds, re, rs; cbn; intros Hr Hd Hf;
    repeat split; auto; discriminate.
Qed.

Lemma pause_forgets_modes_witness :
  let m1 := snd (togglePlay (controls randomOn)) in
  isPlaying m1 = false /\ isRandom m1 = false /\ isReversed m1 = false /\
  isEnabled (randomButton m1) = false /\
  isEnabled (directionButton m1) = false.
Proof.
  apply (pause_forgets_modes (controls randomOn)).
  - vm_compute. intros H. discriminate.
  - vm_compute. intros H. reflexivity.
  - vm_compute. reflexivity.
Defined.

(** X4. [toggleDirection] and [toggleFullScreen] undo themselves: two
    calls in a row restore the whole control state, whether the control
    is enabled or not, and one call changes no other control. *)
Theorem direction_and_fullscreen_toggle_back (m : ControlsManager) :
  snd (toggleDirection (snd (toggleDirection m))) = m /\
  toggleFullScreen (toggleFullScreen m) = m /\
  setDirectionButton (directionButton m) (snd (toggleDirection m)) = m /\
  setFullScreenButton (fullScreenButton m) (toggleFullScreen m) = m.
Proof.
  destruct m as [pb [de ds] rb nb vb es [fe fs]].
  destruct de, ds, fe, fs; repeat split.
Qed.

(** X5. Entering random mode and leaving it again restores the random
    flag and the enabled flags of previous, next and direction, but the
    playback direction comes back forward: a reversed direction is
    forgotten. *)
Theorem toggleRandom_twice_forgets_direction (m : ControlsManager) :
  isRandom (toggleRandomTwice m) = isRandom m /\
  isEnabled (previousButton (toggleRandomTwice m))
  = isEnabled (previousButton m) /\
  isEnabled (nextButton (toggleRandomTwice m)) = isEnabled (nextButton m) /\
  isEnabled (directionButton (toggleRandomTwice m))
  = isEnabled (directionButton m) /\
  isReversed (toggleRandomTwice m) = false.
Proof.
  destruct m as [pb [de ds] [re rs] [ne ns] [ve vs] es fs].
  destruct de, ds, re, rs, ne, ve; repeat split.
Qed.


(** ** Indices *)

Lemma nextIndex_valid (len i : Z) :
  1 <= len -> -1 <= i < len -> 0 <= nextIndex len i < len.
Proof.
  intros Hl Hi. unfold nextIndex. destruct (Z.geb_spec (i + 1) len); lia.
Qed.

Lemma previousIndex_valid (len i : Z) :
  1 <= len -> 0 <= i < len -> 0 <= previousIndex len i < len.
Proof.
  intros Hl Hi. unfold previousIndex. destruct (Z.ltb_spec (i - 1) 0); lia.
Qed.

(** ** The rounded product of [drawRandomSlide] *)

Lemma pow2_pos (e : Z) : (0 < pow2 e)%Q.
Proof. apply Qpower_0_lt. reflexivity. Qed.

Lemma pow2_add (a b : Z) : (pow2 (a + b) == pow2 a * pow2 b)%Q.
Proof. apply Qpower_plus. discriminate. Qed.

Lemma pow2_le (a b : Z) : a <= b -> (pow2 a <= pow2 b)%Q.
Proof. intros H. apply Qpower_le_compat_l; [exact H | discriminate]. Qed.

Lemma pow2_lt_inv (a b : Z) : (pow2 a < pow2 b)%Q -> a < b.
Proof. intros H. apply (Qpower_lt_compat_l_inv 2); [exact H | reflexivity]. Qed.

Lemma pow2_Z (e : Z) : 0 <= e -> (pow2 e == inject_Z (2 ^ e))%Q.
Proof. intros H. unfold pow2. rewrite Zpower_Qpower by exact H. reflexivity. Qed.

Lemma pow2_opp (k : Z) : (pow2 k * pow2 (- k) == 1)%Q.
Proof. rewrite <- pow2_add, Z.add_opp_diag_r. reflexivity. Qed.

(** An integer over a power of two with exponent at most 0. *)
Lemma div_pow2 (n k : Z) : k <= 0 ->
  (inject_Z n / pow2 k == inject_Z (n * 2 ^ (- k)))%Q.
Proof.
  intros Hk. rewrite inject_Z_mult, <- pow2_Z by lia.
  pose proof (pow2_opp k) as Ho. pose proof (pow2_pos k) as Hp.
  apply Qmult_inj_r with (z := pow2 k).
  - intros E. rewrite E in Hp. discriminate.
  - rewrite Qmult_comm, Qmult_div_r.
    + rewrite <- Qmult_assoc, (Qmult_comm (pow2 (- k))), Ho. ring.
    + intros E. rewrite E in Hp. discriminate.
Qed.

Lemma binade_le (x : Q) : (0 < x)%Q -> (pow2 (binade x) <= x)%Q.
Proof.
  intros Hx. unfold binade.
  destruct (Qle_bool _ (Qabs x)) eqn:E.
  - apply Qle_bool_iff in E. rewrite Qabs_pos in E; [exact E |].
    apply Qlt_le_weak, Hx.
  - clear E. destruct x as [n d]. cbn [Qnum Qden] in *.
    assert (Hn : 0 < n) by (unfold Qlt in Hx; cbn in Hx; lia).
    rewrite Z.abs_eq by lia.
    set (a := Z.log2 n). set (b := Z.log2 (Z.pos d)).
    destruct (Z.log2_spec n Hn) as [Ha _]. fold a in Ha.
    destruct (Z.log2_spec (Z.pos d) (Pos2Z.is_pos d)) as [_ Hb]. fold b in Hb.
    pose proof (Z.log2_nonneg n) as Ha0. fold a in Ha0.
    pose proof (Z.log2_nonneg (Z.pos d)) as Hb0. fold b in Hb0.
    replace (a - b - 1) with (a + - (b + 1)) by lia.
    rewrite pow2_add.
    apply Qmult_le_r with (z := pow2 (b + 1)); [apply pow2_pos |].
    rewrite <- Qmult_assoc, (Qmult_comm (pow2 (- (b + 1)))), pow2_opp.
    rewrite Qmult_1_r, !pow2_Z by lia.
    rewrite (Qmake_Qdiv n d).
    unfold Qdiv. rewrite <- Qmult_assoc, (Qmult_comm (/ _)), Qmult_assoc.
    apply Qle_shift_div_l.
    + change 0%Q with (inject_Z 0). rewrite <- Zlt_Qlt. lia.
    + rewrite <- !inject_Z_mult, <- Zle_Qle.
      replace (Z.succ b) with (b + 1) in Hb by lia. nia.
Qed.

Lemma roundHalfEven_ge (y : Q) (i : Z) :
  (inject_Z i <= y)%Q -> i <= roundHalfEven y.
Proof.
  intros H. apply Qfloor_resp_le in H. rewrite Qfloor_Z in H.
  unfold roundHalfEven.
  destruct (y - inject_Z (Qfloor y) ?= 1 # 2)%Q; [destruct (Z.even _) | |];
    lia.
Qed.

Lemma roundHalfEven_lt (y : Q) (n : Z) :
  (y + (1 # 2) < inject_Z n)%Q -> roundHalfEven y < n.
Proof.
  intros H. pose proof (Qfloor_le y) as Hf.
  assert (Hfn : Qfloor y < n).
  { rewrite Zlt_Qlt. lra. }
  unfold roundHalfEven.
  destruct (y - inject_Z (Qfloor y) ?= 1 # 2)%Q eqn:E.
  - apply Qeq_alt in E.
    assert (Qfloor y + 1 < n).
    { rewrite Zlt_Qlt, inject_Z_plus. change (inject_Z 1) with 1%Q. lra. }
    destruct (Z.even _); lia.
  - exact Hfn.
  - apply Qgt_alt in E.
    rewrite Zlt_Qlt, inject_Z_plus. change (inject_Z 1) with 1%Q. lra.
Qed.

Lemma roundHalfEven_Z (y : Q) (k : Z) :
  (y == inject_Z k)%Q -> roundHalfEven y = k.
Proof.
  intros H.
  assert (k <= roundHalfEven y) by (apply roundHalfEven_ge; lra).
  assert (roundHalfEven y < k + 1).
  { apply roundHalfEven_lt. rewrite inject_Z_plus.
    change (inject_Z 1) with 1%Q. lra. }
  lia.
Qed.

Lemma half_ulp (x : Q) : (0 < x)%Q ->
  exists k, ulp x = pow2 k /\ binade x - 52 <= k /\
    ((pow2 k * (1 # 2) <= x * pow2 (-53))%Q \/ k = -1074).
Proof.
  intros Hx. exists (Z.max (binade x - 52) (-1074)).
  split; [reflexivity |]. split; [lia |].
  destruct (Z.max_spec (binade x - 52) (-1074)) as [[_ E] | [_ E]];
    rewrite E; [right; reflexivity | left].
  replace (binade x - 52) with (binade x + -53 + 1) by lia.
  rewrite !pow2_add. change (pow2 1) with 2%Q.
  pose proof (binade_le x Hx) as Hb. pose proof (pow2_pos (-53)) as Hp.
  assert ((pow2 (binade x) * pow2 (-53) <= x * pow2 (-53))%Q).
  { apply Qmult_le_compat_r; [exact Hb | apply Qlt_le_weak, Hp]. }
  lra.
Qed.

Lemma ulp_small (x : Q) (k : Z) :
  (0 < x)%Q -> (x < pow2 53)%Q -> ulp x = pow2 k -> k <= 0.
Proof.
  intros Hx Hlt E. pose proof (binade_le x Hx) as Hb.
  assert (binade x < 53) by (apply pow2_lt_inv; lra).
  unfold ulp in E.
  assert (Hk : (pow2 (Z.max (binade x - 52) (-1074)) <= pow2 0)%Q)
    by (apply pow2_le; lia).
  rewrite E in Hk.
  destruct (Z.le_gt_cases k 0) as [H0 | H0]; [exact H0 |].
  assert ((pow2 0 < pow2 k)%Q).
  { apply Qpower_lt_compat_l; [lia | reflexivity]. }
  lra.
Qed.

Lemma roundDouble_pos (x : Q) : (0 < x)%Q ->
  roundDouble x = (inject_Z (roundHalfEven (x / ulp x)) * ulp x)%Q.
Proof.
  intros Hx. unfold roundDouble.
  destruct (Qeq_bool x 0) eqn:E; [| reflexivity].
  apply Qeq_bool_iff in E. lra.
Qed.

Lemma roundDouble_0 (x : Q) : (x == 0)%Q -> roundDouble x = 0%Q.
Proof.
  intros Hx. unfold roundDouble. apply Qeq_bool_iff in Hx. rewrite Hx.
  reflexivity.
Qed.

(** An integer below [2^53] is not passed when what is rounded lies
    more than half an ulp under it. *)
Lemma roundDouble_lt (x : Q) (n : Z) :
  (0 < x)%Q -> (x < inject_Z n)%Q -> n <= 2 ^ 53 ->
  (x * pow2 (-53) < inject_Z n - x)%Q -> (pow2 (-1075) < inject_Z n - x)%Q ->
  (roundDouble x < inject_Z n)%Q.
Proof.
  intros Hx Hn Hb Hrel Habs.
  destruct (half_ulp x Hx) as (k & Hu & _ & Hhalf).
  assert (H53 : (x < pow2 53)%Q).
  { rewrite pow2_Z by lia. rewrite Zle_Qle in Hb. lra. }
  pose proof (ulp_small x k Hx H53 Hu) as Hk.
  rewrite (roundDouble_pos x Hx), Hu.
  pose proof (pow2_pos k) as Hp.
  pose proof (div_pow2 n k Hk) as Hdiv.
  set (N := n * 2 ^ (- k)) in *.
  assert (Hnu : (inject_Z N * pow2 k == inject_Z n)%Q).
  { rewrite <- Hdiv. rewrite Qmult_comm, Qmult_div_r; [reflexivity |].
    intros E. rewrite E in Hp. discriminate. }
  assert (Hxu : (x / pow2 k * pow2 k == x)%Q).
  { rewrite Qmult_comm, Qmult_div_r; [reflexivity |].
    intros E. rewrite E in Hp. discriminate. }
  assert (Hhu : (pow2 k * (1 # 2) < inject_Z n - x)%Q).
  { destruct Hhalf as [H | ->]; [lra |].
    replace (-1074) with (-1075 + 1) by lia. rewrite pow2_add.
    change (pow2 1) with 2%Q. lra. }
  assert (Hr : roundHalfEven (x / pow2 k) < N).
  { apply roundHalfEven_lt.
    destruct (Qlt_le_dec (x / pow2 k + (1 # 2)) (inject_Z N)) as [H | H];
      [exact H |].
    apply (Qmult_le_compat_r _ _ (pow2 k)) in H; [| lra].
    rewrite Hnu in H. lra. }
  assert (Hr1 : (inject_Z (roundHalfEven (x / pow2 k)) <= inject_Z N - 1)%Q).
  { change 1%Q with (inject_Z 1). unfold Qminus.
    rewrite <- inject_Z_opp, <- inject_Z_plus, <- Zle_Qle. lia. }
  apply (Qmult_le_compat_r _ _ (pow2 k)) in Hr1; [| lra]. lra.
Qed.

(** An integer under what is rounded is not passed either. *)
Lemma roundDouble_ge (x : Q) (i : Z) :
  (0 < x)%Q -> (inject_Z i <= x)%Q -> (x < pow2 53)%Q ->
  (inject_Z i <= roundDouble x)%Q.
Proof.
  intros Hx Hi H53.
  destruct (half_ulp x Hx) as (k & Hu & _ & _).
  pose proof (ulp_small x k Hx H53 Hu) as Hk.
  rewrite (roundDouble_pos x Hx), Hu.
  pose proof (pow2_pos k) as Hp.
  pose proof (div_pow2 i k Hk) as Hdiv.
  set (I := i * 2 ^ (- k)) in *.
  assert (Hiu : (inject_Z I * pow2 k == inject_Z i)%Q).
  { rewrite <- Hdiv. rewrite Qmult_comm, Qmult_div_r; [reflexivity |].
    intros E. rewrite E in Hp. discriminate. }
  assert (Hr : I <= roundHalfEven (x / pow2 k)).
  { apply roundHalfEven_ge. rewrite <- Hdiv.
    apply Qmult_le_compat_r; [exact Hi |].
    apply Qinv_le_0_compat, Qlt_le_weak, Hp. }
  rewrite Zle_Qle in Hr.
  apply (Qmult_le_compat_r _ _ (pow2 k)) in Hr; [| lra]. lra.
Qed.

Lemma binade_lt (x : Q) : (0 < x)%Q -> (x < pow2 (binade x + 1))%Q.
Proof.
  intros Hx. unfold binade.
  destruct (Qle_bool _ (Qabs x)) eqn:E.
  - clear E. destruct x as [n d]. cbn [Qnum Qden] in *.
    assert (Hn : 0 < n) by (unfold Qlt in Hx; cbn in Hx; lia).
    rewrite Z.abs_eq by lia.
    set (a := Z.log2 n). set (b := Z.log2 (Z.pos d)).
    destruct (Z.log2_spec n Hn) as [_ Ha]. fold a in Ha.
    destruct (Z.log2_spec (Z.pos d) (Pos2Z.is_pos d)) as [Hb _]. fold b in Hb.
    pose proof (Z.log2_nonneg n) as Ha0. fold a in Ha0.
    pose proof (Z.log2_nonneg (Z.pos d)) as Hb0. fold b in Hb0.
    replace (a - b + 1) with (a + 1 + - b) by lia.
    rewrite pow2_add.
    apply Qmult_lt_r with (z := pow2 b); [apply pow2_pos |].
    rewrite <- (Qmult_assoc (pow2 (a + 1))), (Qmult_comm (pow2 (- b))), pow2_opp.
    rewrite Qmult_1_r, !pow2_Z by lia.
    rewrite (Qmake_Qdiv n d).
    unfold Qdiv. rewrite <- Qmult_assoc, (Qmult_comm (/ _)), Qmult_assoc.
    apply Qlt_shift_div_r.
    + change 0%Q with (inject_Z 0). rewrite <- Zlt_Qlt. lia.
    + rewrite <- !inject_Z_mult, <- Zlt_Qlt.
      replace (Z.succ a) with (a + 1) in Ha by lia.
      assert (0 < 2 ^ b) by (apply Z.pow_pos_nonneg; lia). nia.
  - replace (_ - 1 + 1) with
      (Z.log2 (Z.abs (Qnum x)) - Z.log2 (Z.pos (Qden x))) by lia.
    apply Qnot_le_lt. intros H.
    assert (Ha : (pow2 (Z.log2 (Z.abs (Qnum x)) - Z.log2 (Z.pos (Qden x)))
                  <= Qabs x)%Q).
    { rewrite Qabs_pos; [exact H | apply Qlt_le_weak, Hx]. }
    apply Qle_bool_iff in Ha. congruence.
Qed.

(** A double below 1 is at most the double just under 1. *)
Lemma double_below_one (r : Q) :
  isDouble r = true -> (0 <= r)%Q -> (r < 1)%Q -> (r <= 1 - pow2 (-53))%Q.
Proof.
  intros Hd H0 H1.
  assert (Hsmall : (pow2 (-53) <= 1 # 2)%Q) by (vm_compute; discriminate).
  destruct (Qlt_le_dec 0 r) as [Hx | Hx]; [| lra].
  pose proof (binade_le r Hx) as Hlo. pose proof (binade_lt r Hx) as Hhi.
  assert (He : binade r < 0).
  { apply pow2_lt_inv. change (pow2 0) with 1%Q. lra. }
  destruct (Z.eq_dec (binade r) (-1)) as [E | E].
  - unfold isDouble in Hd. apply Qeq_bool_iff in Hd.
    rewrite (roundDouble_pos r Hx) in Hd. unfold ulp in Hd.
    rewrite E in Hd. change (Z.max (-1 - 52) (-1074)) with (-53) in Hd.
    set (m := roundHalfEven _) in Hd.
    assert (Hm : m < 2 ^ 53).
    { rewrite Zlt_Qlt, <- pow2_Z by lia.
      apply Qmult_lt_r with (z := pow2 (-53)); [apply pow2_pos |].
      rewrite Hd. change (pow2 53 * pow2 (-53))%Q with ((2 ^ 53) * (2 ^ (-53)))%Q.
      setoid_replace ((2 ^ 53) * (2 ^ (-53)))%Q with 1%Q; [exact H1 |].
      apply (pow2_opp 53). }
    assert (Hm1 : (inject_Z m + 1 <= pow2 53)%Q).
    { rewrite pow2_Z by lia. change 1%Q with (inject_Z 1).
      rewrite <- inject_Z_plus, <- Zle_Qle. lia. }
    apply (Qmult_le_compat_r _ _ (pow2 (-53))) in Hm1;
      [| apply Qlt_le_weak, pow2_pos].
    rewrite (pow2_opp 53) in Hm1. lra.
  - assert (Hp : (pow2 (binade r + 1) <= pow2 (-1))%Q) by (apply pow2_le; lia).
    change (pow2 (-1)) with (/ 2)%Q in Hp.
    assert ((/ 2 == 1 # 2)%Q) by reflexivity. lra.
Qed.

(** The index is in range. *)
Lemma randomIndex_rounded (len : Z) (random : Q) :
  1 <= len -> len <= 2 ^ 53 ->
  isDouble random = true -> (0 <= random)%Q -> (random < 1)%Q ->
  0 <= Qfloor (roundDouble (inject_Z len * random)) < len.
Proof.
  intros Hl Hb Hd H0 H1.
  pose proof (double_below_one random Hd H0 H1) as Hr.
  assert (Hlq : (1 <= inject_Z len)%Q).
  { change 1%Q with (inject_Z 1). rewrite <- Zle_Qle. exact Hl. }
  assert (Hlb : (inject_Z len <= pow2 53)%Q).
  { rewrite pow2_Z by lia. rewrite <- Zle_Qle. exact Hb. }
  pose proof (pow2_pos (-53)) as Hp.
  set (x := (inject_Z len * random)%Q).
  destruct (Qlt_le_dec 0 x) as [Hx | Hx].
  - assert (Hxl : (x <= inject_Z len - inject_Z len * pow2 (-53))%Q).
    { unfold x. nra. }
    assert (Hlp : (pow2 (-53) <= inject_Z len * pow2 (-53))%Q) by nra.
    assert (Hxp : (x * pow2 (-53) < inject_Z len * pow2 (-53))%Q).
    { apply Qmult_lt_compat_r; [exact Hp | lra]. }
    assert (Ht : (pow2 (-1075) < pow2 (-53))%Q).
    { apply Qpower_lt_compat_l; [lia | reflexivity]. }
    assert (Hlt : (roundDouble x < inject_Z len)%Q).
    { apply roundDouble_lt; auto; lra. }
    assert (Hge : (inject_Z 0 <= roundDouble x)%Q).
    { apply roundDouble_ge; auto; [apply Qlt_le_weak, Hx | lra]. }
    split.
    + apply Qfloor_resp_le in Hge. rewrite Qfloor_Z in Hge. exact Hge.
    + rewrite Zlt_Qlt. pose proof (Qfloor_le (roundDouble x)). lra.
  - assert (Hx0 : (x == 0)%Q) by (unfold x in *; nra).
    rewrite (roundDouble_0 x Hx0). cbn. lia.
Qed.

Lemma pow2_53 : (pow2 (-53) == 1 # 9007199254740992)%Q.
Proof. unfold Qeq. vm_compute. reflexivity. Qed.

(** The multiples of [2^-53] in [0, 1) are doubles. *)
Lemma dyadic_double (m : Z) : 0 <= m < 2 ^ 53 ->
  isDouble (inject_Z m * pow2 (-53)) = true.
Proof.
  intros Hm. unfold isDouble. apply Qeq_bool_iff.
  set (r := (inject_Z m * pow2 (-53))%Q).
  pose proof (pow2_pos (-53)) as Hp.
  destruct (Z.eq_dec m 0) as [E | E].
  - assert (Hr : (r == 0)%Q) by (unfold r; rewrite E; ring).
    rewrite (roundDouble_0 r Hr). symmetry. exact Hr.
  - assert (Hmq : (1 <= inject_Z m)%Q).
    { change 1%Q with (inject_Z 1). rewrite <- Zle_Qle. lia. }
    assert (Hmp : (inject_Z m <= 9007199254740991)%Q).
    { change 9007199254740991%Q with (inject_Z 9007199254740991).
      rewrite <- Zle_Qle. change (2 ^ 53) with 9007199254740992 in Hm. lia. }
    assert (Hx : (0 < r)%Q) by (unfold r; nra).
    assert (H1 : (r < 1)%Q).
    { unfold r. rewrite pow2_53. lra. }
    pose proof (binade_le r Hx) as Hlo.
    assert (He : binade r < 0).
    { apply pow2_lt_inv. change (pow2 0) with 1%Q. lra. }
    rewrite (roundDouble_pos r Hx). unfold ulp.
    set (k := Z.max (binade r - 52) (-1074)).
    assert (Hk : k <= -53) by lia.
    pose proof (pow2_pos k) as Hpk.
    assert (Hq : (r / pow2 k == inject_Z (m * 2 ^ (-53 - k)))%Q).
    { rewrite inject_Z_mult, <- pow2_Z by lia. unfold r.
      replace (-53 - k) with (-53 + - k) by lia. rewrite pow2_add.
      unfold Qdiv. assert (Hinv : (/ pow2 k == pow2 (- k))%Q).
      { unfold pow2. rewrite Qpower_opp. reflexivity. }
      rewrite Hinv. ring. }
    rewrite (roundHalfEven_Z _ _ Hq), <- Hq.
    rewrite Qmult_comm, Qmult_div_r; [reflexivity |].
    intros E0. rewrite E0 in Hpk. discriminate.
Qed.

(** Every index is the floor of the product for some double. *)
Lemma randomIndex_reached (len i : Z) :
  0 <= i < len -> len <= 2 ^ 32 ->
  let random := (inject_Z ((i * 2 ^ 53 + len - 1) / len) * pow2 (-53))%Q in
  isDouble random = true /\ (0 <= random)%Q /\ (random < 1)%Q /\
  Qfloor (roundDouble (inject_Z len * random)) = i.
Proof.
  intros Hi Hl. change (2 ^ 32) with 4294967296 in Hl.
  change (2 ^ 53) with 9007199254740992.
  set (m := (i * 9007199254740992 + len - 1) / len).
  assert (Hm1 : len * m <= i * 9007199254740992 + len - 1).
  { apply Z.mul_div_le. lia. }
  assert (Hm2 : i * 9007199254740992 + len - 1 < len * m + len).
  { pose proof (Z.mul_succ_div_gt (i * 9007199254740992 + len - 1) len).
    lia. }
  assert (Hm : 0 <= m < 9007199254740992) by nia.
  cbv zeta. pose proof pow2_53 as Hp.
  assert (Hd : isDouble (inject_Z m * pow2 (-53)) = true).
  { apply dyadic_double. exact Hm. }
  set (M := inject_Z m) in *. set (L := inject_Z len). set (I := inject_Z i).
  assert (HM : (0 <= M)%Q /\ (M <= 9007199254740991)%Q).
  { unfold M. change 0%Q with (inject_Z 0).
    change 9007199254740991%Q with (inject_Z 9007199254740991).
    rewrite <- !Zle_Qle. lia. }
  assert (HL : (L <= 4294967296)%Q /\ (I + 1 <= L)%Q /\ (0 <= I)%Q).
  { unfold L, I. change 4294967296%Q with (inject_Z 4294967296).
    change 1%Q with (inject_Z 1). change 0%Q with (inject_Z 0).
    rewrite <- inject_Z_plus, <- !Zle_Qle. lia. }
  assert (HA : (I * 9007199254740992 <= L * M)%Q /\
               (L * M <= I * 9007199254740992 + L - 1)%Q).
  { unfold L, M, I. change 9007199254740992%Q with (inject_Z 9007199254740992).
    change 1%Q with (inject_Z 1).
    unfold Qminus. rewrite <- !inject_Z_mult, <- inject_Z_opp, <- !inject_Z_plus.
    rewrite <- !Zle_Qle. lia. }
  split; [exact Hd |]. split; [rewrite Hp; lra |]. split; [rewrite Hp; lra |].
  set (x := (L * (M * pow2 (-53)))%Q).
  assert (Hx : (x == L * M * (1 # 9007199254740992))%Q).
  { unfold x. rewrite Hp. ring. }
  destruct HA as [HA1 HA2]. set (A := (L * M)%Q) in *.
  destruct (Qlt_le_dec 0 x) as [Hpos | Hneg].
  - assert (Hge : (inject_Z i <= roundDouble x)%Q).
    { apply roundDouble_ge; [exact Hpos | fold I; lra |].
      unfold pow2. change (2 ^ 53)%Q with 9007199254740992%Q. lra. }
    assert (Hlt : (roundDouble x < inject_Z (i + 1))%Q).
    { apply roundDouble_lt; [exact Hpos | | | |];
        rewrite ?inject_Z_plus; change (inject_Z 1) with 1%Q; fold I.
      - lra.
      - change (2 ^ 53) with 9007199254740992. lia.
      - rewrite Hp. lra.
      - assert ((pow2 (-1075) < pow2 (-53))%Q).
        { apply Qpower_lt_compat_l; [lia | reflexivity]. }
        lra. }
    pose proof (Qfloor_le (roundDouble x)) as Hf1.
    pose proof (Qlt_floor (roundDouble x)) as Hf2.
    assert (Qfloor (roundDouble x) < i + 1) by (rewrite Zlt_Qlt; lra).
    assert (i < Qfloor (roundDouble x) + 1) by (rewrite Zlt_Qlt; lra).
    lia.
  - assert (Hx0 : (x == 0)%Q) by lra.
    rewrite (roundDouble_0 x Hx0). cbn.
    assert (I <= 0)%Q by lra.
    unfold I in *. change 0%Q with (inject_Z 0) in *.
    rewrite <- Zle_Qle in *. lia.
Qed.


Lemma leaves_bind_gets {A B} (P R : Slideshow -> Prop) (f : Slideshow -> A)
  (k : A -> M B) :
  (forall s, P s -> R (exec (k (f s)) s)) -> leaves P (bind (gets f) k) R.
Proof. intros H s Hs. apply (H s Hs). Qed.

Lemma targetOf_withOffset (off : Z) (cb : Callback) :
  targetOf (withOffset off cb) = targetOf cb.
Proof. destruct cb; reflexivity. Qed.

Section IndicesKept.
Variable imgs : list Image.
Hypothesis some_image : 1 <= Z.of_nat (List.length imgs).
Hypothesis array_length : Z.of_nat (List.length imgs) < arrayLimit.

Lemma idx_modify (f : Slideshow -> Slideshow) :
  (forall s, images (f s) = images s /\ imageCounter (f s) = imageCounter s /\
             timers (f s) = timers s) ->
  leaves (indicesValid imgs) (modify f) (indicesValid imgs).
Proof.
  intros Hf. apply leaves_modify. intros s (Hi & Hc & Ht).
  destruct (Hf s) as (E1 & E2 & E3). unfold indicesValid.
  rewrite E1, E2, E3. auto.
Qed.

Lemma idx_withImageCounter (v : Z) :
  validIndex imgs v ->
  leaves (indicesValid imgs) (modify (withImageCounter v)) (indicesValid imgs).
Proof.
  intros Hv. apply leaves_modify. intros s (Hi & Hc & Ht).
  repeat split; assumption || apply Hv.
Qed.

Lemma idx_clearInterval (hd : Z) :
  leaves (indicesValid imgs) (clearInterval hd) (indicesValid imgs).
Proof.
  apply leaves_modify. intros s (Hi & Hc & Ht).
  split; [exact Hi |]. split; [exact Hc |].
  cbn [timers withTimers]. rewrite Forall_forall in *.
  intros t Hin. apply filter_In in Hin. apply Ht, Hin.
Qed.

Lemma idx_setOffset (self off : Z) :
  leaves (indicesValid imgs) (setOffset self off) (indicesValid imgs).
Proof.
  apply leaves_modify. intros s (Hi & Hc & Ht).
  split; [exact Hi |]. split; [exact Hc |].
  cbn [timers withTimers]. rewrite Forall_forall in *.
  intros t Hin. apply in_map_iff in Hin. destruct Hin as (t0 & <- & Hin).
  specialize (Ht t0 Hin). destruct (handle t0 =? self); [| exact Ht].
  unfold targetValid in *. cbn [callback].
  rewrite targetOf_withOffset. exact Ht.
Qed.

Lemma idx_installInterval (cb : Callback) (ms : Q) :
  match targetOf cb with
  | Some n => validIndex imgs n
  | None => True
  end ->
  leaves (indicesValid imgs) (installInterval cb ms) (indicesValid imgs).
Proof.
  intros Hcb s (Hi & Hc & Ht).
  unfold exec, installInterval, setInterval, bind, modify.
  cbn [fst snd]. split; [exact Hi |]. split; [exact Hc |].
  cbn [timers withInterval]. constructor; [exact Hcb | exact Ht].
Qed.

Lemma idx_drawImage img x y w h :
  leaves (indicesValid imgs) (drawImage img x y w h) (indicesValid imgs).
Proof.
  unfold drawImage. destruct img as [i |]; [| apply leaves_throw].
  destruct (drawable i); [| apply leaves_throw].
  apply idx_modify. repeat split.
Qed.

Lemma idx_member {A} (f : Image -> A) img :
  leaves (indicesValid imgs) (member f img) (indicesValid imgs).
Proof. destruct img; [apply leaves_ret | apply leaves_throw]. Qed.

Lemma idx_onControls {A} (f : ControlsManager -> A * ControlsManager) :
  leaves (indicesValid imgs) (onControls f) (indicesValid imgs).
Proof. intros s Hs. exact Hs. Qed.

Lemma idx_tryCatch {A} (body : M A) (handler : Exn -> M A) :
  leaves (indicesValid imgs) body (indicesValid imgs) ->
  (forall e, leaves (indicesValid imgs) (handler e) (indicesValid imgs)) ->
  leaves (indicesValid imgs) (tryCatch body handler) (indicesValid imgs).
Proof. intros Hb Hh. apply (leaves_tryCatch _ (indicesValid imgs)); auto. Qed.

Lemma idx_primitives :
  leaves (indicesValid imgs) save (indicesValid imgs) /\
  leaves (indicesValid imgs) restore (indicesValid imgs) /\
  (forall dx dy,
     leaves (indicesValid imgs) (translate dx dy) (indicesValid imgs)) /\
  (forall x y w h,
     leaves (indicesValid imgs) (clearRect x y w h) (indicesValid imgs)) /\
  (forall a, leaves (indicesValid imgs) (setAlpha a) (indicesValid imgs)) /\
  (forall l, leaves (indicesValid imgs) (consoleLog l) (indicesValid imgs)) /\
  (forall v, leaves (indicesValid imgs) (modify (withCaptions v))
               (indicesValid imgs)) /\
  (forall v, leaves (indicesValid imgs) (modify (withDrawingFunction v))
               (indicesValid imgs)).
Proof.
  repeat match goal with |- _ /\ _ => split end;
    intros; apply idx_modify; intros; repeat split.
Qed.

Lemma idx_drawSlide (w h : Q) (slide : Z) :
  validIndex imgs slide ->
  leaves (indicesValid imgs) (drawSlide w h slide) (indicesValid imgs).
Proof.
  intros Hv.
  destruct idx_primitives as (P1 & P2 & P3 & P4 & P5 & P6 & P7 & P8).
  pose proof (idx_withImageCounter slide Hv) as P9.
  pose proof idx_drawImage as P10. pose proof (@idx_member string) as P11.
  pose proof (@idx_tryCatch unit) as P12.
  unfold drawSlide, imageAt.
  auto 30 using leaves_ret, leaves_gets, leaves_seq.
Qed.

Lemma idx_clearHeld :
  leaves (indicesValid imgs) clearHeld (indicesValid imgs).
Proof.
  unfold clearHeld. pose proof idx_clearInterval.
  auto using leaves_gets, leaves_seq.
Qed.

Lemma idx_resumeSlideShow :
  leaves (indicesValid imgs) resumeSlideShow (indicesValid imgs).
Proof.
  unfold resumeSlideShow.
  apply leaves_seq; [apply idx_clearHeld | intros _].
  apply idx_installInterval. exact I.
Qed.

Lemma idx_callDrawingFunction (i : Z) :
  validIndex imgs i ->
  leaves (indicesValid imgs) (callDrawingFunction i) (indicesValid imgs).
Proof.
  intros Hv.
  destruct idx_primitives as (P1 & P2 & P3 & P4 & P5 & P6 & P7 & P8).
  pose proof idx_clearHeld as P9.
  pose proof (fun w h => idx_drawSlide w h i Hv) as P10.
  unfold callDrawingFunction.
  apply leaves_seq; [apply leaves_gets | intros f].
  destruct f;
    unfold fadeTransition, horizontalTransition, verticalTransition;
    repeat (apply leaves_seq;
            [first [apply leaves_gets | apply P9 | apply P1] | intros ?]);
    first [apply leaves_ret | apply P10
          | apply idx_installInterval; exact Hv].
Qed.

Lemma idx_drawNextSlide :
  leaves (indicesValid imgs) drawNextSlide (indicesValid imgs).
Proof.
  intros s Hs.
  change (indicesValid imgs
            (exec (callDrawingFunction
                     (nextIndex (imagesLength s) (imageCounter s))) s)).
  apply idx_callDrawingFunction; [| exact Hs].
  destruct Hs as (Hi & Hc & _). unfold validIndex, imagesLength in *.
  rewrite Hi. apply nextIndex_valid; lia.
Qed.

Lemma idx_drawPreviousSlide :
  leaves (indicesValid imgs) drawPreviousSlide (indicesValid imgs).
Proof.
  intros s Hs.
  change (indicesValid imgs
            (exec (callDrawingFunction
                     (previousIndex (imagesLength s) (imageCounter s))) s)).
  apply idx_callDrawingFunction; [| exact Hs].
  destruct Hs as (Hi & Hc & _). unfold validIndex, imagesLength in *.
  rewrite Hi. apply previousIndex_valid; lia.
Qed.

Lemma idx_drawRandomSlide (random : Q) :
  (0 <= random)%Q -> (random < 1)%Q -> isDouble random = true ->
  leaves (indicesValid imgs) (drawRandomSlide random) (indicesValid imgs).
Proof.
  intros H0 H1 Hd. unfold drawRandomSlide. apply leaves_bind_gets.
  intros s Hs.
  apply idx_callDrawingFunction; [| exact Hs].
  destruct Hs as (Hi & _). unfold validIndex, imagesLength.
  rewrite Hi. apply randomIndex_rounded; try assumption.
  unfold arrayLimit in array_length.
  assert (2 ^ 32 <= 2 ^ 53) by (vm_compute; discriminate). lia.
Qed.

Lemma idx_redraw (w h : Q) (k : M unit) :
  leaves (indicesValid imgs) k (indicesValid imgs) ->
  leaves (indicesValid imgs)
    (ic <- gets imageCounter ;; drawSlide w h ic ;; k) (indicesValid imgs).
Proof.
  intros Hk. apply leaves_bind_gets. intros s Hs.
  assert (H : leaves (indicesValid imgs)
                (drawSlide w h (imageCounter s) ;; k) (indicesValid imgs)).
  { apply leaves_seq; [apply idx_drawSlide, Hs | intros _; exact Hk]. }
  apply H, Hs.
Qed.

Lemma idx_finishSlide (n : Z) :
  validIndex imgs n ->
  leaves (indicesValid imgs) (finishSlide n) (indicesValid imgs).
Proof.
  intros Hv.
  destruct idx_primitives as (P1 & P2 & P3 & P4 & P5 & P6 & P7 & P8).
  pose proof idx_clearHeld as P9.
  pose proof (idx_withImageCounter n Hv) as P10.
  pose proof (@idx_member string) as P11.
  pose proof idx_resumeSlideShow as P12.
  unfold finishSlide, imageAt.
  auto 30 using leaves_ret, leaves_gets, leaves_seq, leaves_when.
Qed.

Lemma idx_invoke (t : Timer) (random : Q) :
  targetValid imgs t ->
  (0 <= random)%Q -> (random < 1)%Q -> isDouble random = true ->
  leaves (indicesValid imgs) (invoke t random) (indicesValid imgs).
Proof.
  intros Ht H0 H1 Hdbl.
  destruct idx_primitives as (P1 & P2 & P3 & P4 & P5 & P6 & P7 & P8).
  pose proof idx_clearHeld as P9. pose proof idx_resumeSlideShow as P10.
  pose proof idx_drawNextSlide as P11.
  pose proof idx_drawPreviousSlide as P12.
  pose proof (idx_drawRandomSlide random H0 H1 Hdbl) as P13.
  pose proof idx_drawImage as P14. pose proof idx_setOffset as P15.
  unfold invoke, targetValid in *.
  destruct (callback t) as [| st | n w h | w h | n w h f off | n w h f off];
    cbn [targetOf] in Ht.
  - unfold autoplayTick. auto 10 using leaves_gets, leaves_seq, leaves_if.
  - unfold randomTick. auto using leaves_if.
  - unfold fadeOutTick, getAlpha.
    apply leaves_seq; [apply leaves_gets | intros a]. apply leaves_if.
    + apply idx_redraw. auto using leaves_gets, leaves_seq.
    + pose proof (idx_withImageCounter n Ht).
      pose proof (idx_installInterval (FadeIn w h) animationSpeed I).
      auto using leaves_seq.
  - unfold fadeInTick, getAlpha.
    apply leaves_seq; [apply leaves_gets | intros a]. apply leaves_if.
    + apply idx_redraw. auto using leaves_gets, leaves_seq.
    + auto 10 using leaves_gets, leaves_seq, leaves_when.
  - pose proof (idx_finishSlide n Ht). unfold horizontalTick, imageAt.
    destruct f; auto 40 using leaves_gets, leaves_seq, leaves_when.
  - pose proof (idx_finishSlide n Ht). unfold verticalTick, imageAt.
    destruct f; auto 40 using leaves_gets, leaves_seq, leaves_when.
Qed.

Lemma idx_handler (e : Event) :
  admissible e ->
  leaves (indicesValid imgs) (handler e) (indicesValid imgs).
Proof.
  intros He.
  destruct idx_primitives as (P1 & P2 & P3 & P4 & P5 & P6 & P7 & P8).
  pose proof idx_clearHeld as P9. pose proof idx_resumeSlideShow as P10.
  pose proof idx_drawNextSlide as P11.
  pose proof idx_drawPreviousSlide as P12.
  pose proof (@idx_onControls bool) as P13.
  assert (Hstop : leaves (indicesValid imgs) stopForManualAdvance
                    (indicesValid imgs)).
  { unfold stopForManualAdvance.
    auto 10 using leaves_ret, leaves_gets, leaves_seq, leaves_when. }
  destruct e; cbn [handler].
  - destruct He as (H0 & H1 & Hdbl). apply leaves_bind_gets. intros s Hs.
    destruct (liveTimer h s) as [t |] eqn:E; [| exact Hs].
    apply idx_invoke; auto.
    destruct Hs as (_ & _ & Ht). rewrite Forall_forall in Ht. apply Ht.
    unfold liveTimer in E. apply find_some in E. apply E.
  - unfold playCallback. auto 10 using leaves_seq, leaves_if.
  - unfold directionCallback. auto 10 using leaves_seq.
  - unfold randomCallback.
    apply leaves_seq; [apply P13 | intros st].
    apply leaves_seq; [apply P9 | intros _].
    apply idx_installInterval. exact I.
  - unfold nextCallback. auto 10 using leaves_gets, leaves_seq, leaves_when.
  - unfold previousCallback.
    auto 10 using leaves_gets, leaves_seq, leaves_when.
  - unfold effectCallback. auto 20 using leaves_ret, leaves_seq, leaves_if.
  - unfold keydown. auto 10 using leaves_ret, leaves_seq, leaves_if.
  - unfold touchend. auto 10 using leaves_ret, leaves_seq, leaves_if.
Qed.

Lemma reached_indicesValid (w h : Q) (s : Slideshow) :
  reached imgs w h s -> indicesValid imgs s.
Proof.
  induction 1 as [| e s He _ IH].
  - destruct (started_fields imgs w h) as (_ & Hi & Hc & Ht & _).
    cbv zeta in *. split; [exact Hi |]. split.
    + rewrite Hc. apply nextIndex_valid; lia.
    + rewrite Ht. constructor; [exact I | constructor].
  - apply idx_handler; assumption.
Qed.
End IndicesKept.


Lemma exec_draw_plain (forward : bool) (s : Slideshow) :
  drawingFunction s = DrawPlain ->
  exec (if forward then drawNextSlide else drawPreviousSlide) s =
  exec (drawSlide (globalImageWidth s) (globalImageHeight s)
                  (advanceTarget forward s)) s.
Proof.
  intros Hd. unfold exec, advanceTarget.
  destruct forward; unfold drawNextSlide, drawPreviousSlide, bind, gets;
    rewrite (callDrawingFunction_plain _ s Hd); reflexivity.
Qed.

Lemma index_round_trip (len i : Z) :
  1 <= len -> 0 <= i < len ->
  previousIndex len (nextIndex len i) = i /\
  nextIndex len (previousIndex len i) = i.
Proof.
  intros Hl Hi. split.
  - unfold nextIndex. destruct (Z.geb_spec (i + 1) len);
      unfold previousIndex;
      match goal with |- context [?a <? ?b] => destruct (Z.ltb_spec a b) end;
      lia.
  - unfold previousIndex. destruct (Z.ltb_spec (i - 1) 0);
      unfold nextIndex;
      match goal with |- context [?a >=? ?b] => destruct (Z.geb_spec a b) end;
      lia.
Qed.

(** X6. With no effect selected, stepping forward and then backward (or
    backward and then forward) shows the slide one started from, also
    across the ends of the image array. *)
Theorem next_and_previous_cancel (s : Slideshow) :
  drawingFunction s = DrawPlain ->
  1 <= imagesLength s -> 0 <= imageCounter s < imagesLength s ->
  imageCounter (exec drawPreviousSlide (exec drawNextSlide s))
  = imageCounter s /\
  imageCounter (exec drawNextSlide (exec drawPreviousSlide s))
  = imageCounter s.
Proof.
  intros Hd Hl Hi.
  assert (H : forall forward : bool,
            imageCounter
              (exec (if forward then drawPreviousSlide else drawNextSlide)
                 (exec (if forward then drawNextSlide else drawPreviousSlide)
                       s)) = imageCounter s).
  { intros forward.
    pose proof (exec_draw_plain forward s Hd) as E1.
    set (s1 := exec (if forward then drawNextSlide else drawPreviousSlide) s)
      in *.
    destruct (drawSlide_effect (globalImageWidth s) (globalImageHeight s)
                (advanceTarget forward s) s)
      as (Hic & _ & _ & _ & Him & _).
    destruct (drawSlide_frame (globalImageWidth s) (globalImageHeight s)
                (advanceTarget forward s) s) as (Hdf & _).
    cbv zeta in *. rewrite <- E1 in Hic, Him, Hdf.
    assert (Hd1 : drawingFunction s1 = DrawPlain) by congruence.
    pose proof (exec_draw_plain (negb forward) s1 Hd1) as E2.
    destruct (drawSlide_effect (globalImageWidth s1) (globalImageHeight s1)
                (advanceTarget (negb forward) s1) s1) as (Hic2 & _).
    cbv zeta in Hic2. rewrite <- E2 in Hic2.
    replace (if forward then drawPreviousSlide else drawNextSlide)
      with (if negb forward then drawNextSlide else drawPreviousSlide)
      by (destruct forward; reflexivity).
    rewrite Hic2. unfold advanceTarget, imagesLength in *.
    rewrite Him, Hic.
    destruct forward; cbn [negb]; cbv beta iota;
      apply index_round_trip; assumption. }
  split; [exact (H true) | exact (H false)].
Qed.

Lemma demo_plain : drawingFunction demo = DrawPlain.
Proof. vm_compute. reflexivity. Qed.

Lemma next_and_previous_cancel_witness :
  imageCounter (exec drawPreviousSlide (exec drawNextSlide demo))
  = imageCounter demo.
Proof.
  apply (next_and_previous_cancel demo demo_plain);
    vm_compute; intuition discriminate.
Defined.

(** X7. The index [drawRandomSlide] passes to the drawing function is an
    index of the image array whenever the array is not empty (and below
    the length a JavaScript array can have) and [Math.random] returns a
    double in [0, 1): the product is rounded to a double before it is
    floored, and rounding never carries it up to the length.  With a
    single image the index is always 0. *)
Theorem random_slide_in_range (random : Q) (s : Slideshow) :
  1 <= imagesLength s -> imagesLength s < arrayLimit ->
  isDouble random = true -> (0 <= random)%Q -> (random < 1)%Q ->
  exists target,
    drawRandomSlide random s = callDrawingFunction target s /\
    target = Qfloor (roundDouble (inject_Z (imagesLength s) * random)) /\
    0 <= target < imagesLength s /\
    (imagesLength s = 1 -> target = 0).
Proof.
  intros Hl Hb Hd H0 H1.
  exists (Qfloor (roundDouble (inject_Z (imagesLength s) * random))).
  assert (Hb53 : imagesLength s <= 2 ^ 53).
  { unfold arrayLimit in Hb.
    assert (2 ^ 32 <= 2 ^ 53) by (vm_compute; discriminate). lia. }
  pose proof (randomIndex_rounded (imagesLength s) random Hl Hb53 Hd H0 H1)
    as Hv.
  split; [reflexivity |]. split; [reflexivity |]. split; [exact Hv |]. lia.
Qed.

Lemma random_slide_in_range_witness :
  exists target,
    drawRandomSlide (6004799503160661 # 9007199254740992) demo =
      callDrawingFunction target demo /\
    target = Qfloor (roundDouble (inject_Z (imagesLength demo) *
                                  (6004799503160661 # 9007199254740992))) /\
    0 <= target < imagesLength demo /\
    (imagesLength demo = 1 -> target = 0).
Proof.
  apply (random_slide_in_range (6004799503160661 # 9007199254740992) demo).
  - vm_compute. discriminate.
  - vm_compute. reflexivity.
  - vm_compute. reflexivity.
  - vm_compute. discriminate.
  - vm_compute. reflexivity.
Defined.

(** X8. Once started with at least one image (and fewer than a
    JavaScript array can hold at most), whatever the user does and
    whatever double in [0, 1) [Math.random] returns, the image array is
    never changed, the current index is always an index of it, and so is
    the target of every fade or slide transition in progress; so the
    current image is never [undefined]. *)
Theorem current_index_always_valid (imgs : list Image) (w h : Q)
  (s : Slideshow) :
  imgs <> [] -> Z.of_nat (List.length imgs) < arrayLimit ->
  reached imgs w h s ->
  images s = imgs /\
  0 <= imageCounter s < imagesLength s /\
  (exists img, imageOf (images s) (imageCounter s) = Some img) /\
  (forall t n, In t (timers s) -> targetOf (callback t) = Some n ->
               0 <= n < imagesLength s).
Proof.
  intros Hne Hb Hr.
  assert (Hl : 1 <= Z.of_nat (List.length imgs)).
  { destruct imgs; [congruence | cbn [List.length]; lia]. }
  destruct (reached_indicesValid imgs Hl Hb w h s Hr) as (Hi & Hc & Ht).
  unfold validIndex, imagesLength in *. rewrite Hi.
  split; [reflexivity |]. split; [exact Hc |]. split.
  - unfold imageOf. destruct (Z.ltb_spec (imageCounter s) 0); [lia |].
    destruct (nth_error imgs (Z.to_nat (imageCounter s))) eqn:E; [eauto |].
    apply nth_error_None in E. lia.
  - intros t n Hin Hn. rewrite Forall_forall in Ht.
    specialize (Ht t Hin). unfold targetValid in Ht. rewrite Hn in Ht.
    exact Ht.
Qed.

Lemma current_index_always_valid_witness :
  let s := step (Elapsed 2 (6004799503160661 # 9007199254740992)) randomOn in
  imageCounter s = 2 /\ 0 <= imageCounter s < imagesLength s.
Proof.
  split; [vm_compute; reflexivity |].
  assert (Hne : demoImages <> []) by discriminate.
  assert (Hb : Z.of_nat (List.length demoImages) < arrayLimit)
    by (vm_compute; reflexivity).
  assert (Hr : reached demoImages 640 360
                 (step (Elapsed 2 (6004799503160661 # 9007199254740992))
                       randomOn)).
  { unfold randomOn. apply reached_step.
    - split; [discriminate |]. split; vm_compute; reflexivity.
    - apply reached_step; [exact I | apply reached_started]. }
  apply (current_index_always_valid demoImages 640 360 _ Hne Hb Hr).
Defined.


(** ** Autoplay *)

Lemma autoplay_tick (hd : Z) (ms : Q) (s : Slideshow) :
  timers s = [mkTimer hd ms Autoplay] -> interval s = hd ->
  isRandom (controls s) = false ->
  tick s =
  exec (if negb (isReversed (controls s))
        then drawNextSlide else drawPreviousSlide) s.
Proof.
  intros Ht Hi Hr. rewrite (tick_invoke s _ Ht) by (symmetry; exact Hi).
  unfold invoke. cbn [callback]. unfold autoplayTick, exec, bind, gets.
  rewrite Hr. cbn [negb]. destruct (isReversed (controls s)); reflexivity.
Qed.

Lemma nextIndex_mod (len i : Z) :
  0 <= i < len -> nextIndex len i = (i + 1) mod len.
Proof.
  intros Hi. unfold nextIndex. destruct (Z.geb_spec (i + 1) len).
  - replace (i + 1) with len by lia. rewrite Z.mod_same; lia.
  - rewrite Z.mod_small; lia.
Qed.

Lemma previousIndex_mod (len i : Z) :
  0 <= i < len -> previousIndex len i = (i - 1) mod len.
Proof.
  intros Hi. unfold previousIndex. destruct (Z.ltb_spec (i - 1) 0).
  - replace (i - 1) with (-1) by lia.
    replace (-1) with (len - 1 + -1 * len) by lia.
    rewrite Z.mod_add by lia. rewrite Z.mod_small; lia.
  - rewrite Z.mod_small; lia.
Qed.

Lemma autoplaying_tick hd ms reversed len s :
  autoplaying hd ms reversed len s ->
  autoplaying hd ms reversed len (tick s) /\
  imageCounter (tick s) =
  (imageCounter s + (if reversed then -1 else 1)) mod len.
Proof.
  intros (Ht & Hi & Hr & Hv & Hd & Hl & Hc).
  rewrite (autoplay_tick hd ms s Ht Hi Hr).
  rewrite (exec_draw_plain (negb (isReversed (controls s))) s Hd).
  destruct (drawSlide_effect (globalImageWidth s) (globalImageHeight s)
              (advanceTarget (negb (isReversed (controls s))) s) s)
    as (Hic & Ht1 & Hi1 & _ & Him & Hc1 & _).
  destruct (drawSlide_frame (globalImageWidth s) (globalImageHeight s)
              (advanceTarget (negb (isReversed (controls s))) s) s)
    as (Hdf & _).
  cbv zeta in *.
  assert (E : advanceTarget (negb (isReversed (controls s))) s =
              (imageCounter s + (if reversed then -1 else 1)) mod len).
  { unfold advanceTarget. rewrite Hv, Hl.
    destruct reversed; cbn [negb].
    - apply previousIndex_mod, Hc.
    - apply nextIndex_mod, Hc. }
  unfold autoplaying, imagesLength in *.
  rewrite Hic, Ht1, Hi1, Him, Hc1, Hdf, E.
  repeat split; auto; apply Z.mod_pos_bound; lia.
Qed.

(** X9. Autoplay with no effect selected and random mode off: every
    period the same interval draws the neighbouring slide, so after [k]
    periods the current index is [(i + k) mod length] playing forward
    and [(i - k) mod length] playing reversed; the interval is never
    re-armed. *)
Theorem autoplay_cycles (hd : Z) (ms : Q) (reversed : bool) (len : Z)
  (s : Slideshow) (k : nat) :
  autoplaying hd ms reversed len s ->
  autoplaying hd ms reversed len (ticks k s) /\
  imageCounter (ticks k s) =
  (imageCounter s + (if reversed then -1 else 1) * Z.of_nat k) mod len.
Proof.
  revert s. induction k as [| k IH]; intros s Hs.
  - cbn [ticks]. split; [exact Hs |].
    destruct Hs as (_ & _ & _ & _ & _ & _ & Hc).
    rewrite Z.mul_0_r, Z.add_0_r, Z.mod_small; lia.
  - cbn [ticks]. destruct (autoplaying_tick hd ms reversed len s Hs) as [H1 E1].
    destruct (IH (tick s) H1) as [H2 E2]. split; [exact H2 |].
    destruct Hs as (_ & _ & _ & _ & _ & _ & Hc).
    rewrite E2, E1, Zplus_mod_idemp_l. f_equal. lia.
Qed.

Lemma demo_autoplaying : autoplaying 1 playSpeed false 3 demo.
Proof. vm_compute. intuition discriminate. Qed.

Lemma autoplay_cycles_witness :
  imageCounter (ticks 3 demo) = (imageCounter demo + 1 * Z.of_nat 3) mod 3.
Proof.
  apply (autoplay_cycles 1 playSpeed false 3 demo 3 demo_autoplaying).
Defined.


(** ** The control callbacks and the scheduler *)

Lemma togglePlay_fst (m : ControlsManager) :
  isEnabled (playButton m) = true ->
  fst (togglePlay m) = negb (isPlaying m) /\
  isPlaying (snd (togglePlay m)) = negb (isPlaying m).
Proof.
  destruct m as [[pe ps] [de ds] [re rs] nb pb es fs]. cbn. intros ->.
  destruct ps, de, re, ds, rs; cbn; split; reflexivity.
Qed.

Lemma singleTimer_withControls (m : ControlsManager) (s : Slideshow) :
  singleTimer s -> singleTimer (withControls m s).
Proof. intros H. destruct s. exact H. Qed.

(** X10. The play button: a click flips the playing state; pausing
    cancels the held interval at once and arms nothing, resuming arms
    one autoplay interval of a full period without drawing.  Neither
    touches the current index or the canvas. *)
Theorem play_button_pauses_and_resumes (s : Slideshow) :
  singleTimer s -> isEnabled (playButton (controls s)) = true ->
  let s1 := step PlayClicked s in
  isPlaying (controls s1) = negb (isPlaying (controls s)) /\
  timers s1 =
    (if isPlaying (controls s) then []
     else [mkTimer (nextHandle s) playSpeed Autoplay]) /\
  imageCounter s1 = imageCounter s /\ context s1 = context s.
Proof.
  intros Hs He s1.
  destruct (togglePlay_fst (controls s) He) as [Hf Hp].
  pose proof (singleTimer_withControls (snd (togglePlay (controls s))) s Hs)
    as Hs1.
  assert (E : s1 = exec (if negb (fst (togglePlay (controls s)))
                         then clearHeld else resumeSlideShow)
                        (withControls (snd (togglePlay (controls s))) s)).
  { reflexivity. }
  rewrite E, Hf. clear E s1.
  destruct (isPlaying (controls s)) eqn:Hpl; cbn [negb] in *.
  - rewrite (clearHeld_effect _ Hs1). destruct s. cbn in *.
    repeat split; auto.
  - rewrite (resumeSlideShow_effect _ Hs1). destruct s. cbn in *.
    repeat split; auto.
Qed.

Lemma play_button_pauses_and_resumes_witness :
  isPlaying (controls (step PlayClicked demo)) =
    negb (isPlaying (controls demo)) /\
  timers (step PlayClicked demo) =
    (if isPlaying (controls demo) then []
     else [mkTimer (nextHandle demo) playSpeed Autoplay]) /\
  imageCounter (step PlayClicked demo) = imageCounter demo /\
  context (step PlayClicked demo) = context demo.
Proof.
  apply (play_button_pauses_and_resumes demo).
  - exact demo_singleTimer.
  - vm_compute. reflexivity.
Defined.

Lemma toggleRandom_fst (m : ControlsManager) :
  isEnabled (randomButton m) = true ->
  fst (toggleRandom m) = negb (isRandom m) /\
  isRandom (snd (toggleRandom m)) = negb (isRandom m).
Proof.
  destruct m as [ps ds [re rs] nb pb es fs]. cbn. intros ->.
  destruct rs; cbn; split; reflexivity.
Qed.

Lemma randomCallback_effect (s : Slideshow) :
  singleTimer s ->
  exec randomCallback s =
  withTimers [mkTimer (nextHandle s) playSpeed
                (RandomPlay (fst (toggleRandom (controls s))))]
    (rearmed (withControls (snd (toggleRandom (controls s))) s)).
Proof.
  intros [_ Ht].
  destruct s as [imgs gw gh iv ic ctx ctl cap df tm nh hw con].
  cbn [timers interval] in Ht. unfold randomCallback.
  destruct Ht as [-> | (t & -> & Hh)]; run_fields;
    cbn [filter negb]; try (rewrite Hh, Z.eqb_refl); reflexivity.
Qed.

(** X11. Leaving random mode: the click arms an interval whose closure
    still carries the state "off"; when it first comes due, a full
    period later, it draws nothing and only re-arms autoplay, so the
    current index and the canvas are untouched for two periods. *)
Theorem leaving_random_mode_skips_a_period (s : Slideshow) :
  singleTimer s -> isEnabled (randomButton (controls s)) = true ->
  isRandom (controls s) = true ->
  let s1 := step RandomClicked s in
  let s2 := tick s1 in
  isRandom (controls s1) = false /\
  timers s1 = [mkTimer (nextHandle s) playSpeed (RandomPlay false)] /\
  timers s2 = [mkTimer (nextHandle s + 1) playSpeed Autoplay] /\
  imageCounter s2 = imageCounter s /\ context s2 = context s.
Proof.
  intros Hs He Hr s1 s2.
  destruct (toggleRandom_fst (controls s) He) as [Hf Hp].
  rewrite Hr in Hf, Hp. cbn [negb] in Hf, Hp.
  assert (E1 : s1 =
    withTimers [mkTimer (nextHandle s) playSpeed (RandomPlay false)]
      (rearmed (withControls (snd (toggleRandom (controls s))) s))).
  { unfold s1, step, handler. rewrite (randomCallback_effect s Hs), Hf.
    reflexivity. }
  assert (Hs1 : singleTimer s1).
  { rewrite E1. destruct Hs as [Hw _]. destruct s. split; cbn in *.
    - apply Nat.max_lub; [exact Hw | apply Nat.le_refl].
    - right. eexists. split; reflexivity. }
  assert (E2 : s2 = exec resumeSlideShow s1).
  { unfold s2. rewrite (tick_invoke s1 (mkTimer (nextHandle s) playSpeed
                                           (RandomPlay false))).
    - reflexivity.
    - rewrite E1. destruct s. reflexivity.
    - rewrite E1. destruct s. reflexivity. }
  rewrite E2, (resumeSlideShow_effect s1 Hs1), E1.
  destruct s. cbn in *. repeat split; auto.
Qed.

Lemma leaving_random_mode_skips_a_period_witness :
  isRandom (controls (step RandomClicked randomOn)) = false /\
  timers (step RandomClicked randomOn) =
    [mkTimer (nextHandle randomOn) playSpeed (RandomPlay false)] /\
  timers (tick (step RandomClicked randomOn)) =
    [mkTimer (nextHandle randomOn + 1) playSpeed Autoplay] /\
  imageCounter (tick (step RandomClicked randomOn)) =
    imageCounter randomOn /\
  context (tick (step RandomClicked randomOn)) = context randomOn.
Proof.
  apply (leaving_random_mode_skips_a_period randomOn).
  - vm_compute. split; [lia |]. right. eexists. split; reflexivity.
  - vm_compute. reflexivity.
  - vm_compute. reflexivity.
Defined.


(** ** Effect selection and dispatch *)

Lemma extentOr_default (global : Q) : extentOr (-1) global = global.
Proof. reflexivity. Qed.

Lemma effectCallback_frame (option : string) (s : Slideshow) :
  let s1 := exec (effectCallback option) s in
  timers s1 = timers s /\ interval s1 = interval s /\
  nextHandle s1 = nextHandle s /\ liveHighWater s1 = liveHighWater s /\
  imageCounter s1 = imageCounter s /\ context s1 = context s /\
  controls s1 = controls s /\ images s1 = images s /\
  globalImageWidth s1 = globalImageWidth s /\
  globalImageHeight s1 = globalImageHeight s.
Proof.
  destruct s as [imgs gw gh iv ic ctx ctl cap df tm nh hw con].
  unfold effectCallback. run_fields.
  destruct (String.eqb option "None");
    [| destruct (String.eqb option "fade");
       [| destruct (String.eqb option "slide-across");
          [| destruct (String.eqb option "slide-vertically")]]];
    run_fields; repeat split.
Qed.

(** The interval a forward or backward advance arms under each effect;
    the plain draw arms none. *)
Lemma advance_dispatch (forward : bool) (s : Slideshow) :
  singleTimer s ->
  let n := advanceTarget forward s in
  let go := exec (if forward then drawNextSlide else drawPreviousSlide) s in
  match drawingFunction s with
  | DrawNothing => go = s
  | DrawPlain =>
      go = exec (drawSlide (globalImageWidth s) (globalImageHeight s) n) s
  | DrawFade =>
      timers go = [mkTimer (nextHandle s) animationSpeed
                     (FadeOut n (globalImageWidth s) (globalImageHeight s))]
      /\ imageCounter go = imageCounter s /\ context go = context s
  | DrawHorizontal =>
      go = exec (slideTransition Horizontal n (-1) (-1)) s
  | DrawVertical =>
      go = exec (slideTransition Vertical n (-1) (-1)) s
  end.
Proof.
  intros Hs n go.
  assert (E : go = exec (callDrawingFunction n) s).
  { unfold go, n, advanceTarget. destruct forward; reflexivity. }
  rewrite E. clear E go.
  assert (D : exec (callDrawingFunction n) s =
              match drawingFunction s with
              | DrawNothing => s
              | DrawPlain =>
                  exec (drawSlide (globalImageWidth s) (globalImageHeight s) n) s
              | DrawFade => exec (fadeTransition n (-1) (-1)) s
              | DrawHorizontal => exec (horizontalTransition n (-1) (-1)) s
              | DrawVertical => exec (verticalTransition n (-1) (-1)) s
              end).
  { unfold callDrawingFunction, exec, bind, gets. cbn [fst snd].
    destruct (drawingFunction s); reflexivity. }
  rewrite D. clear D.
  destruct (drawingFunction s) eqn:Hd; try reflexivity.
  destruct (fadeTransition_starts s n (-1) (-1) Hs)
    as (Ht & _ & _ & _ & Hc & _).
  rewrite !extentOr_default in Ht.
  split; [exact Ht |]. split; [exact Hc |].
  destruct Hs as [_ Hs].
  destruct s as [imgs gw gh iv ic ctx ctl cap df tm nh hw con].
  cbn [timers interval] in Hs. unfold fadeTransition.
  destruct Hs as [-> | (t & -> & Hh)]; run_fields; reflexivity.
Qed.

(** X12. Selecting an effect changes nothing but the drawing function:
    the intervals, the current index, the canvas and the controls stay as
    they are, so a transition in flight runs on under the closure it
    started with.  The selection shows at the next advance: with autoplay
    held and random mode off, the first tick after "fade" was selected
    draws nothing and arms the fade-out toward the neighbouring slide. *)
Theorem effect_shows_at_next_advance (option : string) (hd : Z) (ms : Q)
  (s : Slideshow) :
  singleTimer s ->
  let s1 := step (EffectChanged option) s in
  (timers s1 = timers s /\ interval s1 = interval s /\
   imageCounter s1 = imageCounter s /\ context s1 = context s /\
   controls s1 = controls s) /\
  (option = "fade"%string -> timers s = [mkTimer hd ms Autoplay] ->
   interval s = hd -> isRandom (controls s) = false ->
   let n := advanceTarget (negb (isReversed (controls s))) s in
   timers (tick s1) =
     [mkTimer (nextHandle s) animationSpeed
        (FadeOut n (globalImageWidth s) (globalImageHeight s))] /\
   imageCounter (tick s1) = imageCounter s /\
   context (tick s1) = context s).
Proof.
  intros Hs s1. unfold s1. clear s1.
  change (step (EffectChanged option) s)
    with (exec (effectCallback option) s).
  destruct (effectCallback_frame option s)
    as (Ht & Hi & Hn & Hw & Hc & Hx & Hm & Him & Hgw & Hgh).
  cbv zeta in *.
  split; [repeat split; assumption |].
  intros Hf Htm Hiv Hr.
  assert (Hd : drawingFunction (exec (effectCallback option) s) = DrawFade).
  { rewrite Hf. destruct s. reflexivity. }
  set (s1 := exec (effectCallback option) s) in *.
  assert (Hs1 : singleTimer s1).
  { destruct Hs as [Hhw Hs]. split; [rewrite Hw; exact Hhw |].
    rewrite Ht, Hi. exact Hs. }
  rewrite (autoplay_tick hd ms s1) by congruence.
  pose proof (advance_dispatch (negb (isReversed (controls s1))) s1 Hs1) as H.
  cbv zeta in H. rewrite Hd in H.
  unfold advanceTarget, imagesLength in H |- *.
  rewrite Hm, Him, Hc, Hn, Hgw, Hgh, Hx in H. rewrite Hm. exact H.
Qed.

Lemma effect_shows_at_next_advance_witness :
  timers (tick (step (EffectChanged "fade") demo)) =
    [mkTimer (nextHandle demo) animationSpeed
       (FadeOut (advanceTarget (negb (isReversed (controls demo))) demo)
          (globalImageWidth demo) (globalImageHeight demo))] /\
  imageCounter (tick (step (EffectChanged "fade") demo)) =
    imageCounter demo /\
  context (tick (step (EffectChanged "fade") demo)) = context demo.
Proof.
  apply (proj2 (effect_shows_at_next_advance "fade" 1 playSpeed demo
                  demo_singleTimer));
    vm_compute; reflexivity.
Defined.

(** X13. The direction a slide transition animates is read off the two
    indices, not off the request: an advance to the next slide runs as a
    forward slide except from the last slide, where the wrap to the first
    runs as a backward slide; an advance to the previous slide runs
    backward except from the first slide of two or more, where the wrap to
    the last runs forward. *)
Theorem slide_direction_at_the_wrap (a : Axis) (s : Slideshow) :
  singleTimer s -> 0 <= imageCounter s < imagesLength s ->
  drawingFunction s =
    match a with Horizontal => DrawHorizontal | Vertical => DrawVertical end ->
  let len := imagesLength s in
  let i := imageCounter s in
  let ms := (animationSpeed / inject_Z increment)%Q in
  timers (exec drawNextSlide s) =
    [mkTimer (nextHandle s) ms
       (slideCallback a (nextIndex len i) (globalImageWidth s)
          (globalImageHeight s) (negb (i =? len - 1)) 0)] /\
  timers (exec drawPreviousSlide s) =
    [mkTimer (nextHandle s) ms
       (slideCallback a (previousIndex len i) (globalImageWidth s)
          (globalImageHeight s) ((i =? 0) && (1 <? len)) 0)].
Proof.
  intros Hs Hi Hd len i ms.
  pose proof (advance_dispatch true s Hs) as Hn.
  pose proof (advance_dispatch false s Hs) as Hp.
  cbv zeta in Hn, Hp. rewrite Hd in Hn, Hp.
  assert (En : exec drawNextSlide s =
               exec (slideTransition a (advanceTarget true s) (-1) (-1)) s)
    by (destruct a; exact Hn).
  assert (Ep : exec drawPreviousSlide s =
               exec (slideTransition a (advanceTarget false s) (-1) (-1)) s)
    by (destruct a; exact Hp).
  rewrite En, Ep, !slideTransition_installs by exact Hs.
  rewrite !extentOr_default. unfold sliding, advanceTarget.
  fold len i. fold i in Hi. fold len in Hi.
  assert (Fn : (i <? nextIndex len i) = negb (i =? len - 1)).
  { unfold nextIndex. destruct (Z.geb_spec (i + 1) len);
      destruct (Z.eqb_spec i (len - 1)); cbn [negb]; lia. }
  assert (Fp : (i <? previousIndex len i) = ((i =? 0) && (1 <? len))).
  { unfold previousIndex. destruct (Z.ltb_spec (i - 1) 0);
      destruct (Z.eqb_spec i 0); destruct (Z.ltb_spec 1 len);
      cbn [andb]; lia. }
  rewrite Fn, Fp. destruct s; split; reflexivity.
Qed.

Lemma slide_direction_at_the_wrap_witness :
  let s := ticks 2 (step (EffectChanged "slide-across") demo) in
  timers (exec drawNextSlide s) =
    [mkTimer (nextHandle s) (animationSpeed / inject_Z increment)%Q
       (slideCallback Horizontal
          (nextIndex (imagesLength s) (imageCounter s))
          (globalImageWidth s) (globalImageHeight s)
          (negb (imageCounter s =? imagesLength s - 1)) 0)] /\
  timers (exec drawPreviousSlide s) =
    [mkTimer (nextHandle s) (animationSpeed / inject_Z increment)%Q
       (slideCallback Horizontal
          (previousIndex (imagesLength s) (imageCounter s))
          (globalImageWidth s) (globalImageHeight s)
          ((imageCounter s =? 0) && (1 <? imagesLength s)) 0)].
Proof.
  apply (slide_direction_at_the_wrap Horizontal
           (ticks 2 (step (EffectChanged "slide-across") demo))).
  - vm_compute. split; [lia |]. right. eexists. split; reflexivity.
  - vm_compute. split; [discriminate | reflexivity].
  - vm_compute. reflexivity.
Defined.

(** X14. Input that is not a command: a key other than the two arrow
    keys leaves the whole slideshow as it was, and a swipe of less than 15
    pixels either way adds the console line of its listener and changes
    nothing else; autoplay, a transition in flight and the controls carry
    on. *)
Theorem other_input_is_ignored (s : Slideshow) :
  (forall key, key <> "ArrowLeft"%string -> key <> "ArrowRight"%string ->
     step (KeyDown key) s = s) /\
  (forall d, (-15 < d)%Q -> (d < 15)%Q ->
     step (TouchEnd d) s = withConsole (console s ++ [Touchend]) s).
Proof.
  split.
  - intros key Hl Hr. unfold step, handler, keydown.
    apply String.eqb_neq in Hl. apply String.eqb_neq in Hr.
    rewrite Hl, Hr. reflexivity.
  - intros d Hlo Hhi. unfold step, handler, touchend.
    assert (E1 : Qle_bool 15 d = false).
    { destruct (Qle_bool 15 d) eqn:E; [| reflexivity].
      apply Qle_bool_iff in E. lra. }
    assert (E2 : Qle_bool d (15 * -1) = false).
    { destruct (Qle_bool d (15 * -1)) eqn:E; [| reflexivity].
      apply Qle_bool_iff in E. lra. }
    cbv zeta. rewrite E1, E2. reflexivity.
Qed.

Lemma other_input_is_ignored_witness :
  step (KeyDown "Enter") demo = demo /\
  step (TouchEnd (29 # 2)) demo = withConsole (console demo ++ [Touchend]) demo.
Proof.
  split.
  - apply (proj1 (other_input_is_ignored demo)); discriminate.
  - apply (proj2 (other_input_is_ignored demo)); reflexivity.
Defined.


(** ** Where a slide transition leaves the incoming image *)

Lemma last_offset_bounds (ext : Q) (k : nat) : (0 <= ext)%Q ->
  slideTicks ext = S k ->
  (ext <= inject_Z (increment * Z.of_nat k))%Q /\
  (inject_Z (increment * Z.of_nat k) < ext + 3)%Q.
Proof.
  intros He Hk.
  pose proof (reachedLimit_at ext He) as Hat.
  pose proof (reachedLimit_before ext k He) as Hbe.
  rewrite Hk in *. specialize (Hbe (Nat.lt_succ_diag_r k)).
  unfold reachedLimit in *. apply Qle_bool_iff in Hat.
  assert (Hn : ~ (ext + inject_Z increment <=
                  inject_Z (increment * Z.of_nat k))%Q).
  { intros H. apply Qle_bool_iff in H. congruence. }
  replace (increment * Z.of_nat (S k)) with (increment * Z.of_nat k + 3) in Hat
    by (unfold increment; lia).
  rewrite inject_Z_plus in Hat. unfold increment in *.
  change (inject_Z 3) with 3%Q in *.
  split; [lra |]. apply Qnot_le_lt. exact Hn.
Qed.

Lemma frame_geometry (a : Axis) (forward : bool) (w h : Q) (base : Q * Q)
  (offset : Z) :
  let ext := extent a w h in
  let p := incomingAt a forward w h base offset in
  let q := outgoingAt a forward base offset in
  if falls a forward
  then (along a q == along a base - inject_Z offset)%Q /\
       (along a p == along a q + ext)%Q
  else (along a q == along a base + inject_Z offset)%Q /\
       (along a p == along a q - ext)%Q.
Proof.
  destruct base as [x y].
  destruct a, forward;
    cbv [falls negb along extent incomingAt outgoingAt origin shifted abutted
         ctxTranslate atBase withCurrent current transform saved saveCalls
         restoreCalls painted globalAlpha fst snd];
    split; ring.
Qed.

(** X15. A slide transition between two drawable images ends on the frame
    its last tick painted; the closing tick paints nothing after it.  In
    that frame the two images lie edge to edge, one full extent apart
    along the axis, and the incoming image has reached its resting place
    or passed it in the direction of the motion by less than one step of
    3 pixels. *)
Theorem slide_ends_within_a_step (a : Axis) (s : Slideshow) (n : Z) (w h : Q)
  (outgoing incoming : Image) :
  singleTimer s ->
  imageOf (images s) (imageCounter s) = Some outgoing ->
  drawable outgoing = true ->
  imageOf (images s) n = Some incoming -> drawable incoming = true ->
  let imgWidth := extentOr w (globalImageWidth s) in
  let imgHeight := extentOr h (globalImageHeight s) in
  let ext := extent a imgWidth imgHeight in
  (0 <= ext)%Q ->
  let forward := imageCounter s <? n in
  let base := transform (current (context s)) in
  let alpha := globalAlpha (current (context s)) in
  let s1 := exec (slideTransition a n w h) s in
  exists (before : list Paint) (p q : Q * Q),
    painted (context (ticks (slideTicks ext) s1)) =
      before ++ [Cleared (origin 0 0 (atBase base)) imgWidth imgHeight;
                 Drew outgoing q imgWidth imgHeight alpha;
                 Drew incoming p imgWidth imgHeight alpha] /\
    if falls a forward
    then (along a p == along a q + ext)%Q /\
         (along a base - 3 < along a p)%Q /\ (along a p <= along a base)%Q
    else (along a p == along a q - ext)%Q /\
         (along a base <= along a p)%Q /\ (along a p < along a base + 3)%Q.
Proof.
  intros Hs Ho Hdo Hn Hdn imgWidth imgHeight ext He forward base alpha s1.
  destruct (slideTicks_succ ext He) as [k Hk].
  destruct (last_offset_bounds ext k He Hk) as [Hlo Hhi].
  pose proof (slide_context a s n w h outgoing incoming Hs Ho Hdo Hn Hdn He
                (slideTicks ext) (Nat.le_refl _)) as Hc.
  fold imgWidth imgHeight ext forward s1 in Hc.
  rewrite Hc, Hk, slideContext_last.
  set (c := slideContext a forward imgWidth imgHeight outgoing incoming k 0
              (ctxSave (context s))).
  destruct (slideContext_effect a forward imgWidth imgHeight outgoing incoming
              k 0 (ctxSave (context s))) as (Hcur & _).
  fold c in Hcur.
  destruct (tickContext_effect a forward imgWidth imgHeight outgoing incoming
              (0 + increment * Z.of_nat k) c) as (_ & _ & _ & _ & Hp).
  cbv zeta in Hp. rewrite Hp, Hcur. cbn [ctxSave current].
  fold base alpha. unfold slideFrame.
  exists (painted c),
         (incomingAt a forward imgWidth imgHeight base
            (0 + increment * Z.of_nat k)),
         (outgoingAt a forward base (0 + increment * Z.of_nat k)).
  split; [reflexivity |].
  pose proof (frame_geometry a forward imgWidth imgHeight base
                (0 + increment * Z.of_nat k)) as G.
  cbv zeta in G. fold ext in G. rewrite Z.add_0_l in *.
  destruct (falls a forward); destruct G as [Gq Gp];
    (split; [exact Gp |]); rewrite Gp, Gq; split; lra.
Qed.

Lemma slide_ends_within_a_step_witness :
  let ext := extent Horizontal (extentOr (-1) (globalImageWidth demo))
                               (extentOr (-1) (globalImageHeight demo)) in
  let s1 := exec (slideTransition Horizontal 1 (-1) (-1)) demo in
  exists (before : list Paint) (p q : Q * Q),
    painted (context (ticks (slideTicks ext) s1)) =
      before ++
      [Cleared (origin 0 0 (atBase (transform (current (context demo)))))
         (extentOr (-1) (globalImageWidth demo))
         (extentOr (-1) (globalImageHeight demo));
       Drew (mkImage "a.jpg" "first" true) q
         (extentOr (-1) (globalImageWidth demo))
         (extentOr (-1) (globalImageHeight demo))
         (globalAlpha (current (context demo)));
       Drew (mkImage "b.jpg" "second" true) p
         (extentOr (-1) (globalImageWidth demo))
         (extentOr (-1) (globalImageHeight demo))
         (globalAlpha (current (context demo)))] /\
    if falls Horizontal (imageCounter demo <? 1)
    then (along Horizontal p == along Horizontal q + ext)%Q /\
         (along Horizontal (transform (current (context demo))) - 3 <
          along Horizontal p)%Q /\
         (along Horizontal p <=
          along Horizontal (transform (current (context demo))))%Q
    else (along Horizontal p == along Horizontal q - ext)%Q /\
         (along Horizontal (transform (current (context demo))) <=
          along Horizontal p)%Q /\
         (along Horizontal p <
          along Horizontal (transform (current (context demo))) + 3)%Q.
Proof.
  exact (slide_ends_within_a_step Horizontal demo 1 (-1) (-1) _ _
           demo_singleTimer demo_first eq_refl demo_second eq_refl
           (demo_extent Horizontal)).
Defined.


(** ** Waiting for the images *)

Lemma retries_done (c : Z) : loadTimeout <= c -> retries c = O.
Proof.
  intros H. unfold retries.
  assert ((loadTimeout - c + 499) / 500 <= 0).
  { apply Z.lt_succ_r. apply Z.div_lt_upper_bound; lia. }
  lia.
Qed.

Lemma retries_again (c : Z) :
  c < loadTimeout -> retries c = S (retries (c + 500)).
Proof.
  intros H. unfold retries.
  replace (loadTimeout - c + 499)
    with (loadTimeout - (c + 500) + 499 + 1 * 500) by lia.
  rewrite Z.div_add by lia.
  assert (0 <= (loadTimeout - (c + 500) + 499) / 500).
  { apply Z.div_pos; lia. }
  lia.
Qed.

Lemma handleImageLoad_alerts (flags : nat -> list bool)
  (doc : nat -> Document) (fuel : nat) :
  forall (check : nat) (c : Z),
  (retries c < fuel)%nat ->
  (forall j, (j <= retries c)%nat ->
     imagesLoaded (flags (check + j)%nat) = false) ->
  handleImageLoad fuel flags doc check c = Some (Alerts (check + retries c)).
Proof.
  induction fuel as [| fuel IH]; intros check c Hf Hn; [lia |].
  cbn [handleImageLoad]. cbv zeta.
  pose proof (Hn O (Nat.le_0_l _)) as H0. rewrite Nat.add_0_r in H0.
  rewrite H0. destruct (Z.ltb_spec c loadTimeout) as [Hc | Hc].
  - rewrite (retries_again c Hc) in *.
    rewrite IH.
    + f_equal. f_equal. lia.
    + lia.
    + intros j Hj. replace (S check + j)%nat with (check + S j)%nat by lia.
      apply Hn. lia.
  - rewrite (retries_done c Hc). rewrite Nat.add_0_r. reflexivity.
Qed.

Lemma handleImageLoad_loaded (flags : nat -> list bool)
  (doc : nat -> Document) (fuel : nat) :
  forall (check : nat) (c : Z) (j : nat),
  (j < fuel)%nat -> (j <= retries c)%nat ->
  imagesLoaded (flags (check + j)%nat) = true ->
  (forall i, (i < j)%nat -> imagesLoaded (flags (check + i)%nat) = false) ->
  handleImageLoad fuel flags doc check c =
  Some (onLoaded (doc (check + j)%nat) (check + j)).
Proof.
  induction fuel as [| fuel IH]; intros check c j Hf Hj Hl Hn; [lia |].
  cbn [handleImageLoad]. cbv zeta. destruct j as [| j].
  - rewrite Nat.add_0_r in *. rewrite Hl.
    unfold onLoaded, fadeoutPreloader.
    destruct (slideshowElem (doc check)), (preloaderElem (doc check));
      reflexivity.
  - pose proof (Hn O (Nat.lt_0_succ _)) as H0. rewrite Nat.add_0_r in H0.
    rewrite H0. destruct (Z.ltb_spec c loadTimeout) as [Hc | Hc].
    + rewrite (retries_again c Hc) in Hj.
      rewrite (IH (S check) (c + 500) j).
      * replace (S check + j)%nat with (check + S j)%nat by lia. reflexivity.
      * lia.
      * lia.
      * replace (S check + j)%nat with (check + S j)%nat by lia. exact Hl.
      * intros i Hi. replace (S check + i)%nat with (check + S i)%nat by lia.
        apply Hn. lia.
    + rewrite (retries_done c Hc) in Hj. lia.
Qed.

(** X16. Waiting for the images always ends.  Started from counter [c],
    the check is repeated every 500 ms at most
    [ceil ((90000 - c) / 500)] times, 180 times from 0.  The first check
    that finds a non-empty array of complete images is the last: it
    schedules the closure that starts the slideshow when the document
    holds both the slideshow element and the preloader element, and
    otherwise throws a TypeError out of [fadeoutPreloader] and schedules
    nothing, so that the slideshow never starts.  When no check up to
    the last one finds the images loaded, the last one raises the
    alert. *)
Theorem image_wait_ends (flags : nat -> list bool) (doc : nat -> Document)
  (c : Z) (fuel : nat) :
  (retries c < fuel)%nat ->
  (retries 0 = 180)%nat /\
  (forall j, (j <= retries c)%nat ->
     imagesLoaded (flags j) = true ->
     (forall i, (i < j)%nat -> imagesLoaded (flags i) = false) ->
     handleImageLoad fuel flags doc 0 c =
     Some (if slideshowElem (doc j) && preloaderElem (doc j)
           then Begins j else Faults j TypeError)) /\
  ((forall j, (j <= retries c)%nat -> imagesLoaded (flags j) = false) ->
   handleImageLoad fuel flags doc 0 c = Some (Alerts (retries c))).
Proof.
  intros Hf. split; [reflexivity |]. split.
  - intros j Hj Hl Hn.
    apply (handleImageLoad_loaded flags doc fuel 0 c j); auto. lia.
  - intros Hn. apply (handleImageLoad_alerts flags doc fuel 0 c Hf Hn).
Qed.

Lemma image_wait_ends_witness :
  handleImageLoad 200
    (fun j => if (j <? 2)%nat then [true; false] else [true; true])
    (fun j => mkDocument true (0 <? j)%nat) 0 0
  = Some (Begins 2) /\
  handleImageLoad 200
    (fun j => if (j <? 2)%nat then [true; false] else [true; true])
    (fun _ => mkDocument true false) 0 0
  = Some (Faults 2 TypeError).
Proof.
  assert (Hf : (retries 0 < 200)%nat) by (vm_compute; lia).
  split.
  - apply (proj1 (proj2 (image_wait_ends
                           (fun j => if (j <? 2)%nat then [true; false]
                                     else [true; true])
                           (fun j => mkDocument true (0 <? j)%nat)
                           0 200 Hf)) 2%nat).
    + vm_compute. lia.
    + vm_compute. reflexivity.
    + intros i Hi. destruct i as [| [| i]]; [reflexivity | reflexivity | lia].
  - apply (proj1 (proj2 (image_wait_ends
                           (fun j => if (j <? 2)%nat then [true; false]
                                     else [true; true])
                           (fun _ => mkDocument true false)
                           0 200 Hf)) 2%nat).
    + vm_compute. lia.
    + vm_compute. reflexivity.
    + intros i Hi. destruct i as [| [| i]]; [reflexivity | reflexivity | lia].
Defined.

(** X17. An image array that stays empty never starts the slideshow:
    whatever the counter it is started from and whatever the document
    holds, the wait ends in the alert, 90 seconds after the first check
    when started from 0. *)
Theorem empty_array_never_starts (flags : nat -> list bool)
  (doc : nat -> Document) (c : Z) (fuel : nat) :
  (retries c < fuel)%nat -> (forall j, flags j = []) ->
  handleImageLoad fuel flags doc 0 c = Some (Alerts (retries c)) /\
  (c = 0 -> Z.of_nat (retries c) * 500 = loadTimeout).
Proof.
  intros Hf He. split.
  - apply (handleImageLoad_alerts flags doc fuel 0 c Hf).
    intros j _. rewrite He. reflexivity.
  - intros ->. reflexivity.
Qed.

Lemma empty_array_never_starts_witness :
  handleImageLoad 181 (fun _ => []) (fun _ => mkDocument true true) 0 0
  = Some (Alerts (retries 0)).
Proof.
  assert (Hf : (retries 0 < 181)%nat) by (vm_compute; lia).
  apply (proj1 (empty_array_never_starts (fun _ => [])
                  (fun _ => mkDocument true true) 0 181 Hf
                  (fun _ => eq_refl))).
Defined.


(** ** The opacity of the canvas *)

Section AlphaKept.
Variable a : Z.

Lemma alpha_modify (f : Slideshow -> Slideshow) :
  (forall s, context (f s) = context s) ->
  leaves (alphaIs a) (modify f) (alphaIs a) /\
  leaves (alphaHeld a) (modify f) (alphaHeld a).
Proof.
  intros Hf. split; apply leaves_modify; intros s Hs;
    unfold alphaHeld, alphaIs in *; rewrite Hf; exact Hs.
Qed.

Lemma alpha_canvas (g : Context -> Context) :
  (forall c, globalAlpha (current (g c)) = globalAlpha (current c) /\
             saved (g c) = saved c) ->
  leaves (alphaIs a) (modify (fun s => withContext (g (context s)) s))
         (alphaIs a) /\
  leaves (alphaHeld a) (modify (fun s => withContext (g (context s)) s))
         (alphaHeld a).
Proof.
  intros Hg. split; apply leaves_modify; intros s Hs;
    destruct (Hg (context s)) as [Ha Hsv];
    destruct s as [imgs gw gh iv ic ctx ctl cap df tm nh hw con];
    unfold alphaHeld, alphaIs in *; cbn [context withContext] in *;
    rewrite Ha, ?Hsv; exact Hs.
Qed.

Lemma alpha_save : leaves (alphaIs a) save (alphaHeld a).
Proof.
  apply leaves_modify. intros s Hs.
  destruct s as [imgs gw gh iv ic [cur sv sc rc p] ctl cap df tm nh hw con].
  unfold alphaHeld, alphaIs in *. cbn in *. split; [exact Hs |].
  intros d rest E. injection E as <- _. exact Hs.
Qed.

Lemma alpha_restore : leaves (alphaHeld a) restore (alphaIs a).
Proof.
  apply leaves_modify. intros s [Hs Hd].
  destruct s as [imgs gw gh iv ic [cur sv sc rc p] ctl cap df tm nh hw con].
  unfold alphaIs in *. cbn in *. destruct sv as [| d rest]; cbn.
  - exact Hs.
  - apply (Hd d rest eq_refl).
Qed.

Lemma alphaHeld_alphaIs (s : Slideshow) : alphaHeld a s -> alphaIs a s.
Proof. intros [H _]. exact H. Qed.

Lemma alpha_setInterval cb ms :
  leaves (alphaIs a) (setInterval cb ms) (alphaIs a).
Proof. intros s Hs. exact Hs. Qed.

Lemma alpha_onControls {A} (f : ControlsManager -> A * ControlsManager) :
  leaves (alphaIs a) (onControls f) (alphaIs a).
Proof. intros s Hs. destruct s. exact Hs. Qed.

Lemma alpha_member {A} (P : Slideshow -> Prop) (f : Image -> A) img :
  leaves P (member f img) P.
Proof. destruct img; [apply leaves_ret | apply leaves_throw]. Qed.

Lemma alpha_paint (p : Slideshow -> Paint) :
  leaves (alphaIs a)
    (modify (fun s => withContext (paint (p s) (context s)) s)) (alphaIs a) /\
  leaves (alphaHeld a)
    (modify (fun s => withContext (paint (p s) (context s)) s)) (alphaHeld a).
Proof.
  split; apply leaves_modify; intros s Hs;
    destruct s as [imgs gw gh iv ic [cur sv sc rc pt] ctl cap df tm nh hw con];
    exact Hs.
Qed.

Lemma alpha_drawImage img x y w h :
  leaves (alphaIs a) (drawImage img x y w h) (alphaIs a) /\
  leaves (alphaHeld a) (drawImage img x y w h) (alphaHeld a).
Proof.
  unfold drawImage. destruct img as [i |];
    [| split; apply leaves_throw].
  destruct (drawable i); [| split; apply leaves_throw].
  apply (alpha_paint (fun s => Drew i (origin x y (context s)) w h
                                  (globalAlpha (current (context s))))).
Qed.

Lemma alpha_clearRect x y w h :
  leaves (alphaIs a) (clearRect x y w h) (alphaIs a) /\
  leaves (alphaHeld a) (clearRect x y w h) (alphaHeld a).
Proof.
  apply (alpha_paint (fun s => Cleared (origin x y (context s)) w h)).
Qed.

Lemma alpha_translate dx dy :
  leaves (alphaIs a) (translate dx dy) (alphaIs a) /\
  leaves (alphaHeld a) (translate dx dy) (alphaHeld a).
Proof.
  apply (alpha_canvas (ctxTranslate dx dy)).
  intros [cur sv sc rc p]. split; reflexivity.
Qed.

(** One step of a tick between its [save] and its [restore]. *)
Lemma alpha_between {A B} (m : M A) (k : A -> M B) :
  leaves (alphaHeld a) m (alphaHeld a) ->
  (forall x, leaves (alphaHeld a) (k x) (alphaIs a)) ->
  leaves (alphaHeld a) (bind m k) (alphaIs a).
Proof.
  intros Hm Hk.
  apply (leaves_bind (alphaHeld a) (alphaHeld a) (alphaIs a)); auto.
  apply alphaHeld_alphaIs.
Qed.

Lemma alpha_quiet_primitives :
  (forall l, leaves (alphaIs a) (consoleLog l) (alphaIs a)) /\
  (forall hd, leaves (alphaIs a) (clearInterval hd) (alphaIs a)) /\
  (forall v, leaves (alphaIs a) (modify (withInterval v)) (alphaIs a)) /\
  (forall v, leaves (alphaIs a) (modify (withImageCounter v)) (alphaIs a)) /\
  (forall v, leaves (alphaIs a) (modify (withCaptions v)) (alphaIs a)) /\
  (forall v, leaves (alphaIs a) (modify (withDrawingFunction v)) (alphaIs a)).
Proof.
  repeat split; intros;
    refine (proj1 (alpha_modify _ _)); intros s; destruct s; reflexivity.
Qed.

Lemma alpha_setOffset self off :
  leaves (alphaHeld a) (setOffset self off) (alphaHeld a).
Proof.
  refine (proj2 (alpha_modify _ _)). intros s; destruct s; reflexivity.
Qed.

Lemma alpha_finishSlide n : leaves (alphaIs a) (finishSlide n) (alphaIs a).
Proof.
  destruct alpha_quiet_primitives as (P1 & P2 & P3 & P4 & P5 & P6).
  pose proof alpha_setInterval as P8.
  pose proof (@alpha_member string (alphaIs a)) as P9.
  unfold finishSlide, imageAt, resumeSlideShow, clearHeld, installInterval.
  auto 30 using leaves_ret, leaves_gets, leaves_seq, leaves_when.
Qed.

Lemma alpha_slideTick (ax : Axis) self n w h forward offset :
  leaves (alphaIs a)
    (match ax with
     | Horizontal => horizontalTick self n w h forward offset
     | Vertical => verticalTick self n w h forward offset
     end) (alphaIs a).
Proof.
  pose proof alpha_setOffset as P7.
  pose proof (fun x y w h => proj2 (alpha_clearRect x y w h)) as P1.
  pose proof (fun dx dy => proj2 (alpha_translate dx dy)) as P2.
  pose proof (fun i x y w h => proj2 (alpha_drawImage i x y w h)) as P3.
  pose proof (alpha_finishSlide n) as P4.
  assert (Hend : leaves (alphaHeld a)
            (bind restore (fun _ =>
               when (Qle_bool (extent ax w h + inject_Z increment)
                              (inject_Z (offset + increment)))
                    (finishSlide n))) (alphaIs a)).
  { apply (leaves_bind (alphaHeld a) (alphaIs a) (alphaIs a)).
    - apply alpha_restore.
    - intros _. apply leaves_when, P4.
    - auto. }
  destruct ax; unfold horizontalTick, verticalTick, imageAt; cbv zeta;
    (apply (leaves_bind (alphaIs a) (alphaHeld a) (alphaIs a));
     [apply alpha_save | intros _ | apply alphaHeld_alphaIs]);
    destruct forward;
    repeat (apply alpha_between;
            [solve [auto using leaves_gets] | intros ?]);
    exact Hend.
Qed.

Lemma alpha_handler (e : Event) (s : Slideshow) :
  fadeDue e s = false -> alphaIs a s -> alphaIs a (exec (handler e) s).
Proof.
  destruct alpha_quiet_primitives as (P1 & P2 & P3 & P4 & P5 & P6).
  pose proof alpha_setInterval as P8.
  pose proof (@alpha_member string (alphaIs a)) as P9.
  pose proof (fun x y w h => proj1 (alpha_clearRect x y w h)) as P10.
  pose proof (fun i x y w h => proj1 (alpha_drawImage i x y w h)) as P11.
  pose proof (@alpha_onControls bool) as P12.
  assert (Hslide : forall w h i,
            leaves (alphaIs a) (drawSlide w h i) (alphaIs a)).
  { intros. unfold drawSlide, imageAt.
    apply leaves_seq; [apply P4 | intros _].
    apply (leaves_tryCatch (alphaIs a) (alphaIs a) (alphaIs a));
      auto 30 using leaves_ret, leaves_gets, leaves_seq. }
  assert (Hclear : leaves (alphaIs a) clearHeld (alphaIs a)).
  { unfold clearHeld. auto using leaves_gets, leaves_seq. }
  assert (Hinst : forall cb ms,
            leaves (alphaIs a) (installInterval cb ms) (alphaIs a)).
  { intros. unfold installInterval. auto using leaves_seq. }
  assert (Hres : leaves (alphaIs a) resumeSlideShow (alphaIs a)).
  { unfold resumeSlideShow. auto using leaves_seq. }
  assert (Hsave : leaves (alphaIs a) save (alphaIs a)).
  { intros s0 H0. apply alphaHeld_alphaIs, alpha_save, H0. }
  assert (Hcall : forall i,
            leaves (alphaIs a) (callDrawingFunction i) (alphaIs a)).
  { intros i. unfold callDrawingFunction.
    apply leaves_seq; [apply leaves_gets | intros f].
    destruct f;
      unfold fadeTransition, horizontalTransition, verticalTransition;
      auto 30 using leaves_ret, leaves_gets, leaves_seq. }
  assert (Hnext : leaves (alphaIs a) drawNextSlide (alphaIs a)).
  { unfold drawNextSlide. auto 10 using leaves_gets, leaves_seq. }
  assert (Hprev : leaves (alphaIs a) drawPreviousSlide (alphaIs a)).
  { unfold drawPreviousSlide. auto 10 using leaves_gets, leaves_seq. }
  assert (Hrnd : forall r,
            leaves (alphaIs a) (drawRandomSlide r) (alphaIs a)).
  { intros r. unfold drawRandomSlide. auto 10 using leaves_gets, leaves_seq. }
  assert (Hstop : leaves (alphaIs a) stopForManualAdvance (alphaIs a)).
  { unfold stopForManualAdvance.
    auto 10 using leaves_ret, leaves_gets, leaves_seq, leaves_when. }
  intros Hf. revert s Hf.
  destruct e; cbn [handler fadeDue]; intros s Hf; revert s Hf.
  - intros s Hf Hs. unfold exec, bind, gets. cbn [fst snd].
    destruct (liveTimer h s) as [t |] eqn:Hl; [| exact Hs].
    revert Hs. change (snd (invoke t random s)) with (exec (invoke t random) s).
    revert s Hl. unfold invoke.
    destruct (callback t); cbn [isFade] in Hf; try discriminate; intros s _.
    + apply (leaves_seq (alphaIs a)); [apply leaves_gets | intros r].
      apply leaves_if; [| apply Hrnd].
      apply leaves_seq; [apply leaves_gets | intros r2].
      apply leaves_if; assumption.
    + unfold randomTick. apply leaves_if; auto.
    + apply (alpha_slideTick Horizontal).
    + apply (alpha_slideTick Vertical).
  - intros s _. revert s. unfold playCallback.
    apply leaves_seq; [apply P12 | intros st]. apply leaves_if; assumption.
  - intros s _. revert s. unfold directionCallback.
    apply leaves_seq; [apply P12 | intros st]. assumption.
  - intros s _. revert s. unfold randomCallback.
    apply leaves_seq; [apply P12 | intros st].
    apply leaves_seq; [assumption | intros _]. apply Hinst.
  - intros s _. revert s. unfold nextCallback.
    apply leaves_seq; [apply leaves_gets | intros r].
    apply leaves_when. apply leaves_seq; [assumption | intros _]. assumption.
  - intros s _. revert s. unfold previousCallback.
    apply leaves_seq; [apply leaves_gets | intros r].
    apply leaves_when. apply leaves_seq; [assumption | intros _]. assumption.
  - intros s _. revert s. unfold effectCallback.
    apply leaves_seq; [apply P1 | intros _].
    repeat (apply leaves_if; [apply P6 |]). apply leaves_ret.
  - intros s _. revert s. unfold keydown.
    repeat (apply leaves_if;
            [apply leaves_seq; [assumption | intros _]; assumption |]).
    apply leaves_ret.
  - intros s _. revert s. unfold touchend. cbv zeta.
    apply leaves_seq; [apply P1 | intros _].
    repeat (apply leaves_if;
            [apply leaves_seq; [assumption | intros _]; assumption |]).
    apply leaves_ret.
Qed.
End AlphaKept.

(** X18. The opacity of the canvas is changed by the ticks of a fade
    closure and by nothing else: over any run of interval ticks, clicks,
    selections, keys and swipes in which no fade closure fires, the
    [globalAlpha] at the end is the one at the start.  A fade that was
    cut short therefore leaves its opacity behind. *)
Theorem opacity_changes_only_in_fade_ticks (es : list Event) (s : Slideshow) :
  fadeFree es s = true ->
  globalAlpha (current (context (run es s))) =
  globalAlpha (current (context s)).
Proof.
  unfold run. revert s. induction es as [| e es IH]; intros s Hf.
  - reflexivity.
  - cbn [fadeFree] in Hf. apply andb_prop in Hf. destruct Hf as [He Hr].
    apply negb_true_iff in He. cbn [fold_left].
    rewrite (IH (step e s) Hr).
    apply (alpha_handler (globalAlpha (current (context s))) e s He).
    reflexivity.
Qed.

Lemma opacity_changes_only_in_fade_ticks_witness :
  let s := ticks 10 fadeSelected in
  globalAlpha (current (context
    (run [PlayClicked; EffectChanged "None"; KeyDown "ArrowRight"] s))) =
  globalAlpha (current (context s)).
Proof.
  apply (opacity_changes_only_in_fade_ticks
           [PlayClicked; EffectChanged "None"; KeyDown "ArrowRight"]
           (ticks 10 fadeSelected)).
  vm_compute. reflexivity.
Defined.


(** ** A slide transition and a drawing fault *)

Ltac run_tick :=
  cbv [invoke callback handle period slideCallback horizontalTick verticalTick
       exec bind gets modify ret throw when save clearRect restore translate
       imageAt setOffset fst snd
       images globalImageWidth globalImageHeight interval imageCounter context
       controls captions drawingFunction timers nextHandle liveHighWater console
       withInterval withImageCounter withContext withControls withCaptions
       withDrawingFunction withTimers withConsole].

Lemma slide_tick_fault (a : Axis) (s : Slideshow) (hd : Z) (ms : Q) (n : Z)
  (w h : Q) (forward : bool) (offset : Z) (outgoing incoming : Image) :
  timers s = [mkTimer hd ms (slideCallback a n w h forward offset)] ->
  interval s = hd ->
  imageOf (images s) (imageCounter s) = Some outgoing ->
  imageOf (images s) n = Some incoming ->
  drawable outgoing && drawable incoming = false ->
  timers (tick s) = timers s /\ interval (tick s) = interval s /\
  images (tick s) = images s /\ imageCounter (tick s) = imageCounter s /\
  captions (tick s) = captions s /\
  saved (context (tick s)) = current (context s) :: saved (context s) /\
  restoreCalls (context (tick s)) = restoreCalls (context s) /\
  (forall img p w1 h1 al,
     In (Drew img p w1 h1 al) (painted (context (tick s))) ->
     In (Drew img p w1 h1 al) (painted (context s)) \/ img = outgoing).
Proof.
  intros Ht Hi Ho Hn Hd.
  rewrite (tick_invoke s _ Ht) by (symmetry; exact Hi). clear Ht Hi.
  destruct s as [imgs gw gh iv ic [cur sv sc rc pt] ctl cap df tm nh hw con].
  cbn [timers interval images imageCounter context] in *.
  destruct (drawable outgoing) eqn:Hdo; cbn [andb] in Hd;
    destruct a, forward;
    run_tick; rewrite Ho; cbv [drawImage]; rewrite Hdo;
    run_tick; rewrite ?Hn; cbv [drawImage]; rewrite ?Hd; run_tick;
    cbv [ctxSave ctxTranslate paint withCurrent current saved saveCalls
         restoreCalls painted transform globalAlpha];
    repeat split; auto;
    intros img p w1 h1 al Hin;
    repeat (apply in_app_or in Hin; destruct Hin as [Hin | Hin]);
    auto; cbn [In] in Hin;
    repeat (destruct Hin as [Hin | Hin]; try discriminate; try tauto);
    injection Hin as <-; auto.
Qed.

(** X19. A slide transition does not contain a drawing fault.  When the
    outgoing or the incoming image cannot be drawn, every tick of the
    closure throws after its [save] and before its [restore] and its
    offset update: the interval stays live with the same offset, the
    current index and the caption never move to the target, the canvas
    keeps one more saved state per tick and never restores one, and the
    incoming image is never painted. *)
Theorem slide_stalls_on_a_fault (a : Axis) (hd : Z) (ms : Q) (n : Z)
  (w h : Q) (forward : bool) (offset : Z) (outgoing incoming : Image)
  (k : nat) (s : Slideshow) :
  timers s = [mkTimer hd ms (slideCallback a n w h forward offset)] ->
  interval s = hd ->
  imageOf (images s) (imageCounter s) = Some outgoing ->
  imageOf (images s) n = Some incoming ->
  drawable outgoing && drawable incoming = false ->
  timers (ticks k s) = timers s /\
  imageCounter (ticks k s) = imageCounter s /\
  captions (ticks k s) = captions s /\
  List.length (saved (context (ticks k s))) =
    (List.length (saved (context s)) + k)%nat /\
  restoreCalls (context (ticks k s)) = restoreCalls (context s) /\
  (forall img p w1 h1 al,
     In (Drew img p w1 h1 al) (painted (context (ticks k s))) ->
     In (Drew img p w1 h1 al) (painted (context s)) \/ img = outgoing).
Proof.
  revert s. induction k as [| k IH]; intros s Ht Hi Ho Hn Hd.
  - cbn [ticks]. rewrite Nat.add_0_r. repeat split; auto.
  - cbn [ticks].
    destruct (slide_tick_fault a s hd ms n w h forward offset outgoing
                incoming Ht Hi Ho Hn Hd)
      as (Ht1 & Hi1 & Him1 & Hc1 & Hcap1 & Hsv1 & Hrc1 & Hp1).
    destruct (IH (tick s)) as (Ht2 & Hc2 & Hcap2 & Hsv2 & Hrc2 & Hp2);
      try congruence.
    rewrite Ht2, Hc2, Hcap2, Hsv2, Hrc2, Ht1, Hc1, Hcap1, Hsv1, Hrc1.
    cbn [List.length]. repeat split; auto; try lia.
    intros img p w1 h1 al Hin.
    destruct (Hp2 img p w1 h1 al Hin) as [H | H]; auto.
Qed.

Lemma slide_stalls_on_a_fault_witness :
  let s := exec (slideTransition Horizontal 1 (-1) (-1))
             (started [mkImage "a.jpg" "first" true;
                       mkImage "b.jpg" "second" false] 640 360) in
  timers (ticks 5 s) = timers s /\
  imageCounter (ticks 5 s) = imageCounter s /\
  captions (ticks 5 s) = captions s /\
  List.length (saved (context (ticks 5 s))) =
    (List.length (saved (context s)) + 5)%nat /\
  restoreCalls (context (ticks 5 s)) = restoreCalls (context s) /\
  (forall img p w1 h1 al,
     In (Drew img p w1 h1 al) (painted (context (ticks 5 s))) ->
     In (Drew img p w1 h1 al) (painted (context s)) \/
     img = mkImage "a.jpg" "first" true).
Proof.
  apply (slide_stalls_on_a_fault Horizontal 2
           (animationSpeed / inject_Z increment)%Q 1 640 360 true 0
           (mkImage "a.jpg" "first" true) (mkImage "b.jpg" "second" false) 5
           (exec (slideTransition Horizontal 1 (-1) (-1))
              (started [mkImage "a.jpg" "first" true;
                        mkImage "b.jpg" "second" false] 640 360)));
    vm_compute; reflexivity.
Defined.


(** ** Random picks and start-up *)

(** X20. Random mode can pick every slide, the current one included: for
    each index of the array (an array below the length a JavaScript array
    can have) some double in [0, 1), a value [Math.random] can return,
    makes [drawRandomSlide] pass exactly that index to the drawing
    function, the product being rounded as the code rounds it. *)
Theorem random_slide_reaches_every_index (i : Z) (s : Slideshow) :
  0 <= i < imagesLength s -> imagesLength s < arrayLimit ->
  exists random : Q,
    isDouble random = true /\ (0 <= random)%Q /\ (random < 1)%Q /\
    drawRandomSlide random s = callDrawingFunction i s.
Proof.
  intros Hi Hb.
  assert (Hb32 : imagesLength s <= 2 ^ 32) by (unfold arrayLimit in Hb; lia).
  destruct (randomIndex_reached (imagesLength s) i Hi Hb32)
    as (Hd & H0 & H1 & Hf).
  eexists. split; [exact Hd |]. split; [exact H0 |]. split; [exact H1 |].
  unfold drawRandomSlide, bind, gets. rewrite Hf. reflexivity.
Qed.

Lemma random_slide_reaches_every_index_witness :
  exists random : Q,
    isDouble random = true /\ (0 <= random)%Q /\ (random < 1)%Q /\
    drawRandomSlide random demo = callDrawingFunction 2 demo.
Proof.
  apply (random_slide_reaches_every_index 2 demo).
  - vm_compute. split; [discriminate | reflexivity].
  - vm_compute. reflexivity.
Defined.

(** X21. Start-up with a drawable first image: the closure
    [handleImageLoad] schedules leaves the first slide on a cleared
    canvas at full opacity with its caption, the current index 0, no
    effect selected, the show playing forward in order with every control
    enabled, and exactly one interval, the autoplay closure at the play
    speed. *)
Theorem startup_shows_first_slide (first : Image) (rest : list Image)
  (w h : Q) :
  drawable first = true ->
  let s := started (first :: rest) w h in
  imageCounter s = 0 /\ captions s = alt first /\
  painted (context s) =
    [Cleared (0, 0)%Q w h; Drew first (0, 0)%Q w h alphaFull] /\
  drawingFunction s = DrawPlain /\
  timers s = [mkTimer 1 playSpeed Autoplay] /\ interval s = 1 /\
  isPlaying (controls s) = true /\ isRandom (controls s) = false /\
  isReversed (controls s) = false /\
  Forall (fun c => isEnabled c = true) (buttons (controls s)).
Proof.
  intros Hd s. destruct first as [sr al d]. cbn [drawable] in Hd. subst d.
  unfold s. vm_compute. repeat split; repeat constructor.
Qed.

Lemma startup_shows_first_slide_witness :
  imageCounter demo = 0 /\ captions demo = "first"%string.
Proof.
  pose proof (startup_shows_first_slide (mkImage "a.jpg" "first" true)
                [mkImage "b.jpg" "second" true; mkImage "c.jpg" "third" true]
                640 360 eq_refl) as H.
  cbv zeta in H. destruct H as (Hc & Hcap & _).
  split; [exact Hc | exact Hcap].
Defined.
